(** * drand: the network shim, the public RPC service, the key generation
    command and the beacon engine

    A shallow embedding of the Go sources of the repository

    - [net/client_grpc.go] and [net/control.go] (module [net]),
    - [core/drand_public.go] (module [core]),
    - the command line front-end, [keygenCmd] and what it calls (module [cli]),

    together with the parts that live outside these files and are described
    by the specification: the beacon engine that [beacon/beacon_test.go]
    drives (module [beacon]) and the resharing that [demo/orchestrator.go]
    runs (module [dkg]).

    Part I holds the definitions, Part II the lemmas and theorems. *)

From Stdlib Require Import ZArith NArith Strings.Byte Strings.Ascii.
From Stdlib Require Import Field QArith Qcanon.
From stdpp Require Import base option list strings gmap pretty.

Local Open Scope string_scope.
Local Open Scope list_scope.
Local Open Scope nat_scope.
Local Open Scope stdpp_scope.

(** ** Part I: definitions *)

(** Go's [[]byte]. *)
Abbreviation bytes := (list Byte.byte).

(** Go's [error] interface, observed through [Error()]; [nil] is the absence
    of an error. *)
Abbreviation error := string (only parsing).

(** [strings.Contains(s, substr)]. *)
Fixpoint Contains (s substr : string) : bool :=
  String.prefix substr s ||
  match s with
  | EmptyString => false
  | String _ rest => Contains rest substr
  end.

(** *** Package [beacon] *)
Module beacon.

#[global] Instance byte_eq_dec : EqDecision Byte.byte := Byte.byte_eq_dec.

(** [Beacon], with the fields the sources read: [b.Round],
    [b.PreviousRound], [b.PreviousSig], [b.Signature]. *)
Record Beacon := mkBeacon {
  Round : N;
  PreviousRound : N;
  PreviousSig : bytes;
  Signature : bytes
}.

(** Modelled from the spec: the chain store (4.A), an ordered mapping from
    round to beacon.  The store itself is not among the sources; its
    operations follow the words of the specification. *)
Inductive StoreError := NotFound | Empty | Conflict.

(** Modelled from the spec: the text of the store errors, which is not among
    the sources either; [NotFound] and [Empty] are the kinds of 4.A. *)
Definition StoreError_string (e : StoreError) : string :=
  match e with
  | NotFound => "beacon not found"
  | Empty => "no beacon saved"
  | Conflict => "conflicting beacon"
  end.

(** Modelled from the spec: [put(b)] fails if [b.round] is already present
    with a different signature and is idempotent on an equal value. *)
Definition put (b : Beacon) (s : gmap N Beacon) : gmap N Beacon + StoreError :=
  match s !! Round b with
  | Some b' =>
      if decide (Signature b' = Signature b) then inl s else inr Conflict
  | None => inl (<[Round b := b]> s)
  end.

(** Modelled from the spec: [get(round)] is the beacon or [NotFound]. *)
Definition Get (r : N) (s : gmap N Beacon) : Beacon + StoreError :=
  match s !! r with
  | Some b => inl b
  | None => inr NotFound
  end.

(** Modelled from the spec: the greatest round of the store, for [last()]. *)
Definition max_round (s : gmap N Beacon) : N :=
  foldr N.max 0%N (elements (dom s)).

(** Modelled from the spec: [last()] is the beacon of the greatest round, or
    [Empty]. *)
Definition Last (s : gmap N Beacon) : Beacon + StoreError :=
  match s !! max_round s with
  | Some b => inl b
  | None => inr Empty
  end.

(** Modelled from the spec: [len()]. *)
Definition Len (s : gmap N Beacon) : N := N.of_nat (size s).

(** Modelled from the spec: the node entries of a group (3),
    [(index, address, tls_flag, long_term_pubkey)]. *)
Record Node := mkNode {
  node_index : N;
  node_address : string;
  node_tls : bool;
  node_key : bytes
}.

(** Modelled from the spec: the group (3), with the distributed public key
    it holds after the DKG. *)
Record Group := mkGroup {
  Nodes : list Node;
  Threshold : nat;
  Period : Z;
  GenesisTime : Z;
  GenesisSeed : bytes;
  TransitionTime : option Z;
  PublicKey : list bytes
}.

(** Modelled from the spec: the share of this node (3), [(index, scalar)]
    plus the public polynomial commitments. *)
Record Share := mkShare {
  share_index : N;
  share_scalar : bytes;
  share_commits : list bytes
}.

(** Modelled from the spec: the packet of the wire protocol (6),
    [BeaconPacket { round, previous_round, previous_sig, partial_sig }],
    together with the index of the signer; a nil [partial_sig] is [None]. *)
Record BeaconPacket := mkBeaconPacket {
  pk_round : N;
  pk_previous_round : N;
  pk_previous_sig : bytes;
  pk_index : N;
  pk_partial_sig : option bytes
}.

(** Modelled from the spec: the states of the aggregator (4.F). *)
Inductive State :=
| Idle
| Waiting (genesis_time : Z)
| Running
| CatchingUp
| Stopped.

(** Modelled from the spec: the handler, that is the aggregator with its
    store, its head, its partial cache and the round of the last tick. *)
Record Handler := mkHandler {
  group : Group;
  share : Share;
  state : State;
  store : gmap N Beacon;
  head : Beacon;
  cache : gmap N (list (N * bytes));
  round : N
}.

(** [h.Store()], as [Drand.PublicRand] calls it. *)
Definition Store (h : Handler) : gmap N Beacon := store h.

(** Modelled from the spec: the flag [started] that [TestBeaconSimple] reads,
    set once the handler runs. *)
Definition started (h : Handler) : bool :=
  match state h with
  | Running | CatchingUp => true
  | Idle | Waiting _ | Stopped => false
  end.

(** Field updates of the handler. *)
Definition set_state (st : State) (h : Handler) : Handler :=
  {| group := group h; share := share h; state := st; store := store h;
     head := head h; cache := cache h; round := round h |}.

Definition set_round (r : N) (h : Handler) : Handler :=
  {| group := group h; share := share h; state := state h; store := store h;
     head := head h; cache := cache h; round := r |}.

Definition set_cache (c : gmap N (list (N * bytes))) (h : Handler) : Handler :=
  {| group := group h; share := share h; state := state h; store := store h;
     head := head h; cache := c; round := round h |}.

Definition set_store (s : gmap N Beacon) (b : Beacon) (h : Handler) : Handler :=
  {| group := group h; share := share h; state := state h; store := s;
     head := b; cache := cache h; round := round h |}.

(** Modelled from the spec: what the handler is fed with (4.F, inputs; 4.G):
    the external calls, the fake clock advanced to a time, a partial from a
    peer, a beacon received while syncing, the end of a sync stream. *)
Inductive Input :=
| Start
| Catchup
| Stop
| Clock (t : Z)
| Inbound (p : BeaconPacket)
| SyncBeacon (b : Beacon)
| SyncClosed.

(** Modelled from the spec: what the handler does to the outside. *)
Inductive Action :=
| Broadcast (to : string) (p : BeaconPacket)
| SyncRequest (from_round : N)
| Notify (b : Beacon).

(** Modelled from the spec: the round of a time (3),
    [round(t) = floor((t - genesis_time) / period) + 1] from genesis on,
    0 before. *)
Definition current_round (genesis_time period : Z) (t : Z) : N :=
  if (t <? genesis_time)%Z then 0%N
  else Z.to_N ((t - genesis_time) / period + 1).

(** Modelled from the spec: the start time of a round (4.D). *)
Definition round_start_time (genesis_time period : Z) (r : N) : Z :=
  (genesis_time + (Z.of_N r - 1) * period)%Z.

(** Modelled from the spec: the partial cache (4.C).  [add] rejects
    duplicates by index and rejects when the threshold is already reached;
    rounds older than [last_stored_round - K] are purged. *)
Definition K : N := 3%N.

(** Modelled from the spec: the partials buffered for a round. *)
Definition cache_get (r : N) (c : gmap N (list (N * bytes))) : list (N * bytes) :=
  default [] (c !! r).

(** Modelled from the spec: [add(round, index, sig)]. *)
Definition cache_add (thr : nat) (r idx : N) (sig : bytes)
    (c : gmap N (list (N * bytes))) : gmap N (list (N * bytes)) :=
  let set := cache_get r c in
  if bool_decide (idx ∈ set.*1) then c
  else if bool_decide (thr ≤ length set) then c
  else <[r := set ++ [(idx, sig)]]> c.

(** Modelled from the spec: [count(round)]. *)
Definition cache_count (r : N) (c : gmap N (list (N * bytes))) : nat :=
  length (cache_get r c).

(** Modelled from the spec: [drain(round)], snapshot and remove. *)
Definition cache_drain (r : N) (c : gmap N (list (N * bytes)))
    : list (N * bytes) * gmap N (list (N * bytes)) :=
  (cache_get r c, delete r c).

(** Modelled from the spec: the eviction of old rounds. *)
Definition cache_evict (last_stored : N) (c : gmap N (list (N * bytes)))
    : gmap N (list (N * bytes)) :=
  filter (λ kv, (last_stored - K ≤ kv.1)%N) c.

(** Modelled from the spec: the head before any beacon is stored; round 1
    uses [previous_sig = genesis_seed] and [previous_round = 0]. *)
Definition genesis_beacon (g : Group) : Beacon :=
  {| Round := 0%N; PreviousRound := 0%N; PreviousSig := [];
     Signature := GenesisSeed g |}.

(** Modelled from the spec: a new handler is idle, its head is [last()] of
    the store it is given, or the genesis head. *)
Definition NewHandler (g : Group) (sh : Share) (s : gmap N Beacon) : Handler :=
  {| group := g; share := sh; state := Idle; store := s;
     head := match Last s with inl b => b | inr _ => genesis_beacon g end;
     cache := ∅; round := 0%N |}.

Section Scheme.

(** The threshold signature scheme and the hash of the round message are
    collaborators of the engine: [Message] is [H(previous_sig, previous_round,
    round)], the rest is threshold BLS. *)
Variable Message : bytes → N → N → bytes.
Variable Sign : Share → bytes → bytes.
Variable VerifyPartial : list bytes → N → bytes → bytes → bool.
Variable Recover : list bytes → bytes → list (N * bytes) → nat → option bytes.
Variable VerifyRecovered : list bytes → bytes → bytes → bool.

(** What the callbacks of [TestBeaconSimple] and [TestBeaconThreshold] check
    on a beacon: [VerifyRecovered(dpublic, Message(b.PreviousSig,
    b.PreviousRound, b.Round), b.Signature)]. *)
Definition verifies (g : Group) (b : Beacon) : bool :=
  VerifyRecovered (PublicKey g)
    (Message (PreviousSig b) (PreviousRound b) (Round b)) (Signature b).

(** Modelled from the spec: steps 2 and 3 of the per-round procedure, sign the
    message of the round, cache the own partial and broadcast it to every peer
    of the group except self. *)
Definition sign_round (r : N) (h : Handler) : Handler * list Action :=
  let prev := head h in
  let msg := Message (Signature prev) (Round prev) r in
  let own := Sign (share h) msg in
  let me := share_index (share h) in
  let packet := {| pk_round := r; pk_previous_round := Round prev;
                   pk_previous_sig := Signature prev; pk_index := me;
                   pk_partial_sig := Some own |} in
  let peers := filter (λ n, node_index n ≠ me) (Nodes (group h)) in
  (set_cache (cache_add (Threshold (group h)) r me own (cache h)) h,
   (λ n, Broadcast (node_address n) packet) <$> peers).

(** Modelled from the spec: the tick of round [r], step 1 then steps 2-3. *)
Definition tick (r : N) (h : Handler) : Handler * list Action :=
  let prev := head h in
  if (Round prev + 1 <? r)%N then
    (set_state CatchingUp (set_round r h), [SyncRequest (Round prev + 1)])
  else sign_round r (set_round r h).

(** Modelled from the spec: step 4, recovery once the threshold is reached,
    verification against the distributed public key, then the store. *)
Definition try_recover (r : N) (h : Handler) : Handler * list Action :=
  let thr := Threshold (group h) in
  if bool_decide (thr ≤ cache_count r (cache h)) then
    let prev := head h in
    let msg := Message (Signature prev) (Round prev) r in
    match Recover (PublicKey (group h)) msg (take thr (cache_get r (cache h))) thr with
    | None => (h, [])
    | Some sig =>
        if VerifyRecovered (PublicKey (group h)) msg sig then
          let b := {| Round := r; PreviousRound := Round prev;
                      PreviousSig := Signature prev; Signature := sig |} in
          match put b (store h) with
          | inl s' =>
              (set_cache (cache_evict r (cache h)) (set_store s' b h), [Notify b])
          | inr _ => (set_state Stopped h, [])
          end
        else (h, [])
    end
  else (h, []).

(** Modelled from the spec: validation of a received partial (step 4 and the
    edge cases): the round is the current one or one of the next [K], the
    previous fields match the head, the index is in the group, and the partial
    verifies against the public polynomial at that index. *)
Definition valid_partial (p : BeaconPacket) (sig : bytes) (h : Handler) : bool :=
  let prev := head h in
  bool_decide (round h ≤ pk_round p ≤ round h + K)%N
  && bool_decide (pk_previous_round p = Round prev)
  && bool_decide (pk_previous_sig p = Signature prev)
  && bool_decide (pk_index p ∈ node_index <$> Nodes (group h))
  && VerifyPartial (PublicKey (group h)) (pk_index p)
       (Message (pk_previous_sig p) (pk_previous_round p) (pk_round p)) sig.

(** Modelled from the spec: a received packet.  A packet without partial only
    carries a round context and is not verified; a partial for a stored round
    is ignored; a valid partial is cached, and recovery is tried for the
    current round. *)
Definition process (p : BeaconPacket) (h : Handler) : Handler * list Action :=
  match pk_partial_sig p with
  | None => (h, [])
  | Some sig =>
      if bool_decide (is_Some (store h !! pk_round p)) then (h, [])
      else if valid_partial p sig h then
        let h' := set_cache (cache_add (Threshold (group h)) (pk_round p)
                               (pk_index p) sig (cache h)) h in
        if bool_decide (pk_round p = round h) then try_recover (round h) h'
        else (h', [])
      else (h, [])
  end.

(** Modelled from the spec: the syncer (4.G), for each received beacon verify
    against the distributed public key, verify that it chains to the local
    head, put, advance the head. *)
Definition sync (b : Beacon) (h : Handler) : Handler * list Action :=
  if verifies (group h) b
     && bool_decide (PreviousSig b = Signature (head h))
     && bool_decide (PreviousRound b = Round (head h))
     && bool_decide (Round (head h) < Round b)%N
  then
    match put b (store h) with
    | inl s' => (set_store s' b h, [Notify b])
    | inr _ => (set_state Stopped h, [])
    end
  else (h, [SyncRequest (Round (head h) + 1)]).

(** Modelled from the spec: the state machine of the aggregator.  A started
    handler waits for genesis; the clock reaching a new round fires its tick;
    when a sync ends the tick is evaluated again. *)
Definition step (h : Handler) (i : Input) : Handler * list Action :=
  match i, state h with
  | Start, Idle => (set_state (Waiting (GenesisTime (group h))) h, [])
  | Catchup, Idle =>
      (set_state CatchingUp h, [SyncRequest (Round (head h) + 1)])
  | Stop, _ => (set_state Stopped h, [])
  | Clock t, Waiting g =>
      if (t <? g)%Z then (h, [])
      else tick (current_round g (Period (group h)) t) (set_state Running h)
  | Clock t, Running =>
      let r := current_round (GenesisTime (group h)) (Period (group h)) t in
      if (round h <? r)%N then tick r h else (h, [])
  | Clock t, CatchingUp =>
      let r := current_round (GenesisTime (group h)) (Period (group h)) t in
      (set_round (N.max (round h) r) h, [])
  | Inbound p, Running => process p h
  | SyncBeacon b, CatchingUp => sync b h
  | SyncClosed, CatchingUp =>
      if (round h =? 0)%N then (set_state Running h, [])
      else sign_round (round h) (set_state Running h)
  | _, _ => (h, [])
  end.

(** Every stored beacon is stored under its round and verifies under the
    distributed public key of the group. *)
Definition chain_verifies (g : Group) (s : gmap N Beacon) : Prop :=
  ∀ r b, s !! r = Some b → Round b = r ∧ verifies g b = true.

(** A move of the handler keeps the group and keeps the store verified. *)
Definition preserves (h h' : Handler) : Prop :=
  group h' = group h
  ∧ (chain_verifies (group h) (store h) → chain_verifies (group h) (store h')).

(** Modelled from the spec: the handler fed with a sequence of inputs, and
    what it did to the outside in the course of it. *)
Fixpoint run (h : Handler) (ins : list Input) : Handler * list Action :=
  match ins with
  | [] => (h, [])
  | i :: rest =>
      let '(h1, a1) := step h i in
      let '(h2, a2) := run h1 rest in
      (h2, a1 ++ a2)
  end.

End Scheme.

End beacon.

(** *** Package [net] *)
Module net.

(** [time.Duration] is a count of nanoseconds; a [time.Time] is taken as the
    number of nanoseconds since the epoch. *)
Abbreviation Duration := Z (only parsing).
Abbreviation Time := Z (only parsing).

Definition Second : Duration := 1000000000%Z.
Definition Minute : Duration := (60 * Second)%Z.

(** [context.Context], as far as the shim uses it: the deadline. *)
Record Context := mkContext { Deadline : option Time }.

(** [context.Background()] has no deadline. *)
Definition Background : Context := {| Deadline := None |}.

(** [context.WithDeadline(parent, d)]: a parent deadline that is already
    earlier than [d] is kept. *)
Definition WithDeadline (parent : Context) (d : Time) : Context :=
  match Deadline parent with
  | Some cur => if (cur <? d)%Z then parent else {| Deadline := Some d |}
  | None => {| Deadline := Some d |}
  end.

(** The [Peer] interface: [Address()] and [IsTLS()]. *)
Record Peer := mkPeer { Address : string; IsTLS : bool }.

(** [CertManager.Pool()] gives the trust pool, named here by the certificate
    paths it was built from. *)
Record CertManager := mkCertManager { Pool : list string }.

(** [grpc.DialOption]: the two the client adds, and those of the caller. *)
Inductive DialOption :=
| WithInsecure
| WithTransportCredentials (pool : list string)
| CallerOption (n : nat).

(** A [*grpc.ClientConn] that is not nil: where it points to, and which dial
    made it. *)
Record ClientConn := mkClientConn { cc_target : string; cc_serial : nat }.

(** The unary methods of the generated [PublicClient] and [ProtocolClient]
    stubs. *)
Inductive Method :=
| MPublicRand | MPrivateRand | MGroup | MDistKey | MHome
| MSetup | MReshare | MNewBeacon.

#[global] Instance Method_eq_dec : EqDecision Method.
Proof. solve_decision. Defined.

(** What the process does to the outside: dials and remote invocations, the
    latter with the context they were issued under. *)
Inductive Event :=
| EvDial (target : string) (o : list DialOption)
| EvInvoke (m : Method) (cc : ClientConn) (ctx : Context) (req : bytes)
| EvListen (network address : string).

(** The outside world.  [clock k] is what the [k]-th call of [time.Now()]
    returns; [dialer k target] is [None] when the dial issued as the [k]-th
    event succeeds and the error otherwise; [server k m target req] is the
    reply or the error of the remote invocation issued as the [k]-th event;
    [binder k network address] is the error of [net.Listen], if any. *)
Record World := mkWorld {
  clock : nat → Time;
  reads : nat;
  dialer : nat → string → option error;
  server : nat → Method → string → bytes → bytes + error;
  binder : nat → string → string → option error;
  trace : list Event
}.

(** [grpcClient]; the value [None] in [conns] is a nil [*grpc.ClientConn]. *)
Record grpcClient := mkGrpcClient {
  conns : gmap string (option ClientConn);
  opts : list DialOption;
  timeout : Duration;
  manager : option CertManager
}.

(** [var defaultTimeout = 1 * time.Minute]. *)
Definition defaultTimeout : Duration := (1 * Minute)%Z.

(** [NewGrpcClient], [NewGrpcClientFromCertManager] and
    [NewGrpcClientWithTimeout]. *)
Definition NewGrpcClient (o : list DialOption) : grpcClient :=
  {| conns := ∅; opts := o; timeout := defaultTimeout; manager := None |}.

Definition NewGrpcClientFromCertManager (c : CertManager)
    (o : list DialOption) : grpcClient :=
  let client := NewGrpcClient o in
  {| conns := conns client; opts := opts client; timeout := timeout client;
     manager := Some c |}.

Definition NewGrpcClientWithTimeout (t : Duration)
    (o : list DialOption) : grpcClient :=
  let c := NewGrpcClient o in
  {| conns := conns c; opts := opts c; timeout := t; manager := manager c |}.

(** A method of the client either returns or panics (a nil connection is
    dereferenced by the stub). *)
Inductive Outcome (A : Type) :=
| Ret (a : A)
| Panic.
Arguments Ret {A} a.
Arguments Panic {A}.

(** Methods of [*grpcClient] thread the client and the world.  The mutex of
    the client is not modelled: a method runs alone. *)
Definition M (A : Type) : Type :=
  grpcClient → World → Outcome (A * grpcClient * World).

#[global] Instance M_ret : MRet M := λ A a g w, Ret (a, g, w).
#[global] Instance M_bind : MBind M := λ A B f m g w,
  match m g w with
  | Ret (a, g', w') => f a g' w'
  | Panic => Panic
  end.

(** Reading the receiver [g], and writing [g.conns]. *)
Definition get_client : M grpcClient := λ g w, Ret (g, g, w).
Definition set_conns (c : gmap string (option ClientConn)) : M unit :=
  λ g w, Ret (tt, {| conns := c; opts := opts g; timeout := timeout g;
                     manager := manager g |}, w).

(** [time.Now()]. *)
Definition time_Now : M Time := λ g w,
  Ret (clock w (reads w), g,
       {| clock := clock w; reads := S (reads w); dialer := dialer w;
          server := server w; binder := binder w; trace := trace w |}).

(** An event is appended to the trace. *)
Definition emit (e : Event) (w : World) : World :=
  {| clock := clock w; reads := reads w; dialer := dialer w;
     server := server w; binder := binder w; trace := trace w ++ [e] |}.

(** [grpc.Dial(target, opts...)]: a connection or an error. *)
Definition dial (target : string) (o : list DialOption) (w : World)
    : (ClientConn + error) * World :=
  let k := length (trace w) in
  match dialer w k target with
  | None => (inl (mkClientConn target k), emit (EvDial target o) w)
  | Some e => (inr e, emit (EvDial target o) w)
  end.

(** The pair [c, err] that [grpc.Dial] returns: [c] is nil with an error. *)
Definition grpc_Dial (target : string) (o : list DialOption)
    : M (option ClientConn * option error) := λ g w,
  match dial target o w with
  | (inl c, w') => Ret ((Some c, None), g, w')
  | (inr e, w') => Ret ((None, Some e), g, w')
  end.

(** A call of a generated stub, [client.Method(ctx, in)], on connection [c]. *)
Definition invoke (m : Method) (c : option ClientConn) (ctx : Context)
    (req : bytes) : M (bytes + error) := λ g w,
  match c with
  | None => Panic
  | Some cc =>
      Ret (server w (length (trace w)) m (cc_target cc) req, g,
           emit (EvInvoke m cc ctx req) w)
  end.

(** [getTimeoutContext]: the context with the deadline [time.Now()] plus the
    timeout of the client. *)
Definition getTimeoutContext (ctx : Context) : M Context :=
  now ← time_Now;
  g ← get_client;
  let clientDeadline := (now + timeout g)%Z in
  mret (WithDeadline ctx clientDeadline).

(** [SetTimeout] and [deleteConn]. *)
Definition SetTimeout (p : Duration) : M unit := λ g w,
  Ret (tt, {| conns := conns g; opts := opts g; timeout := p;
              manager := manager g |}, w).

Definition deleteConn (p : Peer) : M unit :=
  g ← get_client;
  set_conns (delete (Address p) (conns g)).

(** [conn] retrieves an already existing connection to the peer or creates a
    new one; what the dial returned is cached, also when it failed. *)
Definition conn (p : Peer) : M (option ClientConn * option error) :=
  g ← get_client;
  match conns g !! Address p with
  | Some c => mret (c, None)
  | None =>
      '(c, err) ←
        (if negb (IsTLS p) then
           grpc_Dial (Address p) (opts g ++ [WithInsecure])
         else
           let o := match manager g with
                    | Some mgr => opts g ++ [WithTransportCredentials (Pool mgr)]
                    | None => opts g
                    end in
           grpc_Dial (Address p) o);
      g' ← get_client;
      set_conns (<[Address p := c]> (conns g'));;
      mret (c, err)
  end.

(** The unary methods.  Requests and replies are kept as bytes, and the pair
    [(resp, err)] a method returns is the reply or the error; the call
    options, handed to the stub untouched, are left out. *)
Definition PublicRand (p : Peer) (req : bytes) : M (bytes + error) :=
  '(c, err) ← conn p;
  match err with
  | Some e => mret (inr e)
  | None =>
      ctx ← getTimeoutContext Background;
      invoke MPublicRand c ctx req
  end.

Definition PrivateRand (p : Peer) (req : bytes) : M (bytes + error) :=
  '(c, err) ← conn p;
  match err with
  | Some e => mret (inr e)
  | None =>
      ctx ← getTimeoutContext Background;
      invoke MPrivateRand c ctx req
  end.

Definition Group (p : Peer) (req : bytes) : M (bytes + error) :=
  '(c, err) ← conn p;
  match err with
  | Some e => mret (inr e)
  | None =>
      ctx ← getTimeoutContext Background;
      invoke MGroup c ctx req
  end.

Definition DistKey (p : Peer) (req : bytes) : M (bytes + error) :=
  '(c, err) ← conn p;
  match err with
  | Some e => mret (inr e)
  | None => invoke MDistKey c Background req
  end.

Definition Setup (p : Peer) (req : bytes) : M (bytes + error) :=
  '(c, err) ← conn p;
  match err with
  | Some e => mret (inr e)
  | None =>
      ctx ← getTimeoutContext Background;
      invoke MSetup c ctx req
  end.

Definition Reshare (p : Peer) (req : bytes) : M (bytes + error) :=
  '(c, err) ← conn p;
  match err with
  | Some e => mret (inr e)
  | None =>
      ctx ← getTimeoutContext Background;
      invoke MReshare c ctx req
  end.

(** The closure [do] of [NewBeacon]. *)
Definition NewBeacon_do (p : Peer) (req : bytes) : M (bytes + error) :=
  '(c, err) ← conn p;
  match err with
  | Some e => mret (inr e)
  | None =>
      ctx ← getTimeoutContext Background;
      invoke MNewBeacon c ctx req
  end.

(** [NewBeacon]: on an error whose text contains "connection error" the
    connection is deleted and [do] is run once more. *)
Definition NewBeacon (p : Peer) (req : bytes) : M (bytes + error) :=
  r ← NewBeacon_do p req;
  match r with
  | inr err =>
      if Contains err "connection error" then
        deleteConn p;;
        NewBeacon_do p req
      else mret r
  | inl _ => mret r
  end.

Definition Home (p : Peer) (req : bytes) : M (bytes + error) :=
  '(c, err) ← conn p;
  match err with
  | Some e => mret (inr e)
  | None =>
      ctx ← getTimeoutContext Background;
      invoke MHome c ctx req
  end.

(** The unary methods of the shim, by the stub method they end in. *)
Definition call (m : Method) : Peer → bytes → M (bytes + error) :=
  match m with
  | MPublicRand => PublicRand
  | MPrivateRand => PrivateRand
  | MGroup => Group
  | MDistKey => DistKey
  | MHome => Home
  | MSetup => Setup
  | MReshare => Reshare
  | MNewBeacon => NewBeacon
  end.

(** The invocations in a trace, and the dials. *)
Definition invocations (tr : list Event) : list (Method * Context) :=
  omap (λ e, match e with
             | EvInvoke m _ ctx _ => Some (m, ctx)
             | _ => None
             end) tr.

Definition dials (tr : list Event) : list string :=
  omap (λ e, match e with
             | EvDial target _ => Some target
             | _ => None
             end) tr.

(** The body that [PublicRand], [PrivateRand], [Group], [Setup], [Reshare],
    [Home] and the closure of [NewBeacon] share, up to the stub method; it
    serves to state their lemmas once. *)
Definition with_deadline (m : Method) (p : Peer) (req : bytes)
    : M (bytes + error) :=
  '(c, err) ← conn p;
  match err with
  | Some e => mret (inr e)
  | None =>
      ctx ← getTimeoutContext Background;
      invoke m c ctx req
  end.

(** The events of [w'] that [w] does not have yet. *)
Definition new_events (w w' : World) : list Event :=
  drop (length (trace w)) (trace w').

(** The dial options [conn] uses for a peer. *)
Definition dial_options (g : grpcClient) (p : Peer) : list DialOption :=
  if negb (IsTLS p) then opts g ++ [WithInsecure]
  else match manager g with
       | Some mgr => opts g ++ [WithTransportCredentials (Pool mgr)]
       | None => opts g
       end.

(** The claim of the specification on re-dialling, for the unary call that
    ends in the stub method [m]: when the call is made over a cached
    connection and the invocation fails with an error whose description
    contains "connection error", the peer is dialled again. *)
Definition redials (m : Method) : Prop :=
  ∀ p req g w cc e,
    conns g !! Address p = Some (Some cc) →
    server w (length (trace w)) m (cc_target cc) req = inr e →
    Contains e "connection error" = true →
    ∃ r g' w',
      call m p req g w = Ret (r, g', w')
      ∧ Address p ∈ dials (new_events w w').

(** The claim of the specification on deadlines, for the unary call that ends
    in the stub method [m]: every invocation it issues carries a deadline. *)
Definition carries_deadline (m : Method) : Prop :=
  ∀ p req g w r g' w' m' ctx,
    call m p req g w = Ret (r, g', w') →
    (m', ctx) ∈ invocations (new_events w w') →
    is_Some (Deadline ctx).

(** [net/control.go].  [slog.Fatalf] ends the process. *)
Inductive Fatal (A : Type) :=
| Returns (a : A)
| Fatalf (msg : string).
Arguments Returns {A} a.
Arguments Fatalf {A} msg.

(** [controlListenAddr]: [fmt.Sprintf("%s:%s", "localhost", port)]. *)
Definition controlListenAddr (port : string) : string :=
  "localhost" +:+ ":" +:+ port.

(** A [net.Listener] and what it is bound to. *)
Record Listener := mkListener { lis_network : string; lis_address : string }.

(** [net.Listen(network, address)]. *)
Definition net_Listen (network address : string) (w : World)
    : (Listener + error) * World :=
  match binder w (length (trace w)) network address with
  | None => (inl (mkListener network address), emit (EvListen network address) w)
  | Some e => (inr e, emit (EvListen network address) w)
  end.

(** [ControlListener]: the gRPC server, named by the control server
    registered on it, and the listener. *)
Record ControlListener (S : Type) := mkControlListener {
  ControlListener_conns : S;
  lis : Listener
}.
Arguments mkControlListener {S}.
Arguments ControlListener_conns {S}.
Arguments lis {S}.

(** [NewTCPGrpcControlListener] listens on the control address; a failure
    to listen is fatal. *)
Definition NewTCPGrpcControlListener {S : Type} (s : S) (port : string)
    (w : World) : Fatal (ControlListener S) * World :=
  match net_Listen "tcp" (controlListenAddr port) w with
  | (inr err, w') => (Fatalf ("grpc listener failure: " +:+ err), w')
  | (inl l, w') => (Returns (mkControlListener s l), w')
  end.

(** [ControlClient], and [NewControlClient], which dials the control address
    of a node on this machine. *)
Record ControlClient := mkControlClient { ControlClient_conn : ClientConn }.

Definition NewControlClient (port : string) (w : World)
    : Fatal ControlClient * World :=
  match dial (controlListenAddr port) [WithInsecure] w with
  | (inr err, w') => (Fatalf ("control: did not connect: " +:+ err), w')
  | (inl c, w') => (Returns (mkControlClient c), w')
  end.

(** The addresses a trace listens on. *)
Definition listens (tr : list Event) : list (string * string) :=
  omap (λ e, match e with
             | EvListen network address => Some (network, address)
             | _ => None
             end) tr.

(** What one attempt of a unary method (a connection, then the stub) leaves
    behind, read off [conn] and the bodies of the methods: the world after
    [k] more clock reads and the events [l], and the three ways an attempt can
    go when it does not panic. *)
Definition after (k : nat) (l : list Event) (w : World) : World :=
  {| clock := clock w; reads := k + reads w; dialer := dialer w;
     server := server w; binder := binder w; trace := trace w ++ l |}.

Definition cached_as (c : option ClientConn) (p : Peer) (g : grpcClient)
    : grpcClient :=
  {| conns := <[Address p := c]> (conns g); opts := opts g;
     timeout := timeout g; manager := manager g |}.

Inductive Attempt (m : Method) (p : Peer) (req : bytes) (g : grpcClient)
    (w : World) : bytes + error → grpcClient → World → Prop :=
| attempt_cached cc ctx k :
    conns g !! Address p = Some (Some cc) →
    Attempt m p req g w
      (server w (length (trace w)) m (cc_target cc) req) g
      (after k [EvInvoke m cc ctx req] w)
| attempt_dialled ctx k :
    conns g !! Address p = None →
    dialer w (length (trace w)) (Address p) = None →
    Attempt m p req g w
      (server w (S (length (trace w))) m (Address p) req)
      (cached_as (Some (mkClientConn (Address p) (length (trace w)))) p g)
      (after k [EvDial (Address p) (dial_options g p);
                EvInvoke m (mkClientConn (Address p) (length (trace w)))
                  ctx req] w)
| attempt_failed e :
    conns g !! Address p = None →
    dialer w (length (trace w)) (Address p) = Some e →
    Attempt m p req g w (inr e) (cached_as None p g)
      (after 0 [EvDial (Address p) (dial_options g p)] w).

(** The cache is coherent when every connection is filed under the address
    it was dialled to. *)
Definition coherent (g : grpcClient) : Prop :=
  ∀ a cc, conns g !! a = Some (Some cc) → cc_target cc = a.

(** The targets of the invocations of a trace. *)
Definition invoked (tr : list Event) : list string :=
  omap (λ e, match e with
             | EvInvoke _ cc _ _ => Some (cc_target cc)
             | _ => None
             end) tr.

(** [deleteConn] on the client, and what a call leaves behind when it
    returns: the world and the client it ends in, for at most [n] attempts
    with the events [l]. *)
Definition forgotten (p : Peer) (g : grpcClient) : grpcClient :=
  {| conns := delete (Address p) (conns g); opts := opts g;
     timeout := timeout g; manager := manager g |}.

Record Left (n : nat) (p : Peer) (g : grpcClient) (w : World)
    (r : bytes + error) (g' : grpcClient) (w' : World) (l : list Event)
    : Prop := {
  left_world : ∃ k, w' = after k l w;
  left_opts : opts g' = opts g;
  left_timeout : timeout g' = timeout g;
  left_manager : manager g' = manager g;
  left_others : ∀ a, a ≠ Address p → conns g' !! a = conns g !! a;
  left_coherent : coherent g → coherent g';
  left_dials : ∀ t, t ∈ dials l → t = Address p;
  left_invoked : coherent g → ∀ t, t ∈ invoked l → t = Address p;
  left_dial_bound : length (dials l) ≤ n;
  left_invocation_bound : length (invocations l) ≤ n;
  left_reply : ∀ b, r = inl b →
    ∃ cc, conns g' !! Address p = Some (Some cc)
          ∧ (coherent g → cc_target cc = Address p)
}.

(** A session: unary calls made one after the other on the same client, each
    named by its stub method, the peer and the request. *)
Fixpoint session (cs : list (Method * Peer * bytes))
    : M (list (bytes + error)) :=
  match cs with
  | [] => mret []
  | (m, p, req) :: cs =>
      r ← call m p req;
      rs ← session cs;
      mret (r :: rs)
  end.

End net.

(** *** Package [core]: [core/drand_public.go] *)
Module core.

(** A DKG packet on the wire. *)
Abbreviation DkgPacket := bytes (only parsing).

(** The DKG handler [d.dkg] is a collaborator; of its state the packets handed
    to [Process] are kept, in order. *)
Record DkgHandler := mkDkgHandler { processed : list DkgPacket }.

(** [d.dkg.Process(c, packet)]. *)
Definition Process (pkt : DkgPacket) (h : DkgHandler) : DkgHandler :=
  {| processed := processed h ++ [pkt] |}.

(** The messages of the public service: [drand.ResharePacket],
    [drand.PublicRandRequest] with its getter, [drand.PublicRandResponse]. *)
Record ResharePacket := mkResharePacket {
  GroupHash : string;
  Dkg : option DkgPacket
}.

Record PublicRandRequest := mkPublicRandRequest { GetRound : N }.

Record PublicRandResponse := mkPublicRandResponse {
  resp_Round : N;
  resp_PreviousRound : N;
  resp_PreviousSignature : bytes;
  resp_Signature : bytes;
  resp_Randomness : bytes
}.

(** A server stream [drand.Public_PublicRandStreamServer]: the address of the
    peer in its context, and a serial number. *)
Record Stream := mkStream { stream_peer : string; stream_serial : nat }.

(** The function literal that [PublicRandStream] registers, with the variables
    it captures: [addr] and [stream] (the channel [done] belongs to the
    stream). *)
Record Callback := mkCallback { cb_addr : string; cb_stream : Stream }.

#[global] Instance Stream_eq_dec : EqDecision Stream.
Proof. solve_decision. Defined.
#[global] Instance Callback_eq_dec : EqDecision Callback.
Proof. solve_decision. Defined.

(** What [go f(x)] starts. *)
Inductive Goroutine := GoStartDKG (conf : nat).

(** The fields of [Drand] that the public service reads and writes;
    [addr] is [d.priv.Public.Addr]. *)
Record Drand := mkDrand {
  addr : string;
  dkgDone : bool;
  dkg : option DkgHandler;
  nextGroupHash : string;
  nextFirstReceived : bool;
  nextOldPresent : bool;
  nextConf : nat;
  beacon : option beacon.Handler;
  callbacks : gmap string Callback
}.

Definition set_nextFirstReceived (v : bool) (d : Drand) : Drand :=
  {| addr := addr d; dkgDone := dkgDone d; dkg := dkg d;
     nextGroupHash := nextGroupHash d; nextFirstReceived := v;
     nextOldPresent := nextOldPresent d; nextConf := nextConf d;
     beacon := beacon d; callbacks := callbacks d |}.

Definition set_dkg (h : option DkgHandler) (d : Drand) : Drand :=
  {| addr := addr d; dkgDone := dkgDone d; dkg := h;
     nextGroupHash := nextGroupHash d;
     nextFirstReceived := nextFirstReceived d;
     nextOldPresent := nextOldPresent d; nextConf := nextConf d;
     beacon := beacon d; callbacks := callbacks d |}.

Definition set_callbacks (c : gmap string Callback) (d : Drand) : Drand :=
  {| addr := addr d; dkgDone := dkgDone d; dkg := dkg d;
     nextGroupHash := nextGroupHash d;
     nextFirstReceived := nextFirstReceived d;
     nextOldPresent := nextOldPresent d; nextConf := nextConf d;
     beacon := beacon d; callbacks := c |}.

(** [Reshare] is called when a resharing protocol is in progress.  It returns
    the reply or the error, the node afterwards, and the goroutines started. *)
Definition Reshare (d : Drand) (in_ : ResharePacket)
    : (unit + error) * Drand * list Goroutine :=
  if String.eqb (nextGroupHash d) "" then
    (inr ("drand " +:+ addr d +:+
          ": can't reshare because InitReshare has not been called"), d, [])
  else if negb (String.eqb (GroupHash in_) (nextGroupHash d)) then
    (inr "drand: can't reshare to new group: incompatible hashes", d, [])
  else
    let '(d1, started) :=
      if negb (nextFirstReceived d) && nextOldPresent d
      then (set_nextFirstReceived true d, [GoStartDKG (nextConf d)])
      else (d, []) in
    match dkg d1 with
    | None => (inr "drand: no dkg setup yet", d1, started)
    | Some h =>
        let d2 := set_nextFirstReceived true d1 in
        match Dkg in_ with
        | Some pkt => (inl tt, set_dkg (Some (Process pkt h)) d2, started)
        | None => (inl tt, d2, started)
        end
    end.

(** The second half of the claim of the specification on [Reshare], as it is
    stated: a packet for the expected group whose DKG payload is absent is
    accepted, and nothing is processed. *)
Definition accepts_without_payload : Prop :=
  ∀ d in_,
    nextGroupHash d ≠ "" →
    GroupHash in_ = nextGroupHash d →
    Dkg in_ = None →
    (Reshare d in_).1.1 = inl tt ∧ dkg (Reshare d in_).1.2 = dkg d.

Section Randomness.

(** [b.Randomness()], the hash of the signature, is a collaborator. *)
Variable Randomness : beacon.Beacon → bytes.

Definition response (b : beacon.Beacon) : PublicRandResponse :=
  {| resp_PreviousSignature := beacon.PreviousSig b;
     resp_PreviousRound := beacon.PreviousRound b;
     resp_Round := beacon.Round b;
     resp_Signature := beacon.Signature b;
     resp_Randomness := Randomness b |}.

(** [PublicRand] returns a public random beacon according to the request.  If
    the [Round] field is 0, then it returns the last one generated.  The log
    lines, which do not touch the node, are left out. *)
Definition PublicRand (d : Drand) (in_ : PublicRandRequest)
    : PublicRandResponse + error :=
  match beacon d with
  | None => inr "drand: beacon generation not started yet"
  | Some h =>
      let r :=
        if (GetRound in_ =? 0)%N then beacon.Last (beacon.Store h)
        else beacon.Get (GetRound in_) (beacon.Store h) in
      match r with
      | inr err => inr ("can't retrieve beacon: " +:+ beacon.StoreError_string err)
      | inl b => inl (response b)
      end
  end.

(** The streams as the process sees them: [send k st resp] is the error, if
    any, of the [k]-th [stream.Send]; [attempts] logs every send made by a
    callback, with its outcome; [done] holds what was put on the channels. *)
Record Streams := mkStreams {
  send : nat → Stream → PublicRandResponse → option error;
  attempts : list (Callback * PublicRandResponse * option error);
  done : list (Stream * error)
}.

(** Modelled from the spec: the callback registry (4.B), a mapping from
    subscriber id to a delivery function; [AddCallback] and [DelCallback] are
    not among the sources. *)
Definition AddCallback (id : string) (fn : Callback)
    (reg : gmap string Callback) : gmap string Callback := <[id := fn]> reg.

Definition DelCallback (id : string) (reg : gmap string Callback)
    : gmap string Callback := delete id reg.

(** The body of the function literal of [PublicRandStream]: send the beacon
    on the stream; if the connection has a problem, drop the callback. *)
Definition callback (cb : Callback) (b : beacon.Beacon)
    (reg : gmap string Callback) (w : Streams)
    : gmap string Callback * Streams :=
  let resp := response b in
  let err := send w (length (attempts w)) (cb_stream cb) resp in
  let w1 := {| send := send w; attempts := attempts w ++ [(cb, resp, err)];
               done := done w |} in
  match err with
  | Some e =>
      (DelCallback (cb_addr cb) reg,
       {| send := send w1; attempts := attempts w1;
          done := done w1 ++ [(cb_stream cb, e)] |})
  | None => (reg, w1)
  end.

(** [PublicRandStream] registers a callback for the duration of the stream
    and then waits on [done]. *)
Definition PublicRandStream (stream : Stream) (d : Drand) : Drand :=
  let addr := stream_peer stream in
  set_callbacks (AddCallback addr (mkCallback addr stream) (callbacks d)) d.

(** What [PublicRandStream] returns, once something is on [done]. *)
Definition PublicRandStream_result (stream : Stream) (w : Streams)
    : option error :=
  snd <$> head (filter (λ x, x.1 = stream) (done w)).

(** Modelled from the spec: the registry is invoked synchronously after each
    successful put; every callback still registered when its turn comes is
    called with the new beacon. *)
Definition notify (b : beacon.Beacon) (reg : gmap string Callback)
    (w : Streams) : gmap string Callback * Streams :=
  foldl (λ st kv,
           match st.1 !! kv.1 with
           | Some cb => callback cb b st.1 st.2
           | None => st
           end) (reg, w) (map_to_list reg).

Fixpoint notify_all (bs : list beacon.Beacon) (reg : gmap string Callback)
    (w : Streams) : gmap string Callback * Streams :=
  match bs with
  | [] => (reg, w)
  | b :: rest =>
      let '(reg', w') := notify b reg w in notify_all rest reg' w'
  end.

(** The sends made from a given point of the log on. *)
Definition since (w w' : Streams)
    : list (Callback * PublicRandResponse * option error) :=
  drop (length (attempts w)) (attempts w').

(** Every registered callback is registered under the address it captured, as
    [PublicRandStream] does. *)
Definition registered_by_stream (reg : gmap string Callback) : Prop :=
  ∀ id cb, reg !! id = Some cb → cb_addr cb = id.

End Randomness.

(** Requests to [Reshare] served one after the other, nothing else touching
    the node in between: the replies, the node afterwards and the goroutines
    started, in order. *)
Fixpoint Reshare_all (d : Drand) (ins : list ResharePacket)
    : list (unit + error) * Drand * list Goroutine :=
  match ins with
  | [] => ([], d, [])
  | in_ :: rest =>
      let '(r, d1, s1) := Reshare d in_ in
      let '(rs, d2, s2) := Reshare_all d1 rest in
      (r :: rs, d2, s1 ++ s2)
  end.

(** The payloads of the requests that were answered without an error. *)
Fixpoint answered (rs : list (unit + error)) (ins : list ResharePacket)
    : list DkgPacket :=
  match rs, ins with
  | inl _ :: rs, in_ :: ins =>
      match Dkg in_ with
      | Some pkt => pkt :: answered rs ins
      | None => answered rs ins
      end
  | inr _ :: rs, _ :: ins => answered rs ins
  | _, _ => []
  end.

(** What the DKG handler of a node has processed; nothing without one. *)
Definition handled (d : Drand) : list DkgPacket :=
  match dkg d with
  | Some h => processed h
  | None => []
  end.

(** Whether a request passes the two guards of [Reshare] on the group hash. *)
Definition expected (d : Drand) (in_ : ResharePacket) : bool :=
  negb (String.eqb (nextGroupHash d) "")
  && String.eqb (GroupHash in_) (nextGroupHash d).

End core.

(** *** Package [main]: the command line front-end *)
Module cli.

Definition defaultPort : string := "8080".

(** What a command does to the process. *)
Inductive Exit :=
| Return (err : option error)
| OsExit (code : Z)
| GoPanic
| Hang.

Definition is_digit (c : Ascii.ascii) : bool :=
  (48 <=? Ascii.nat_of_ascii c) && (Ascii.nat_of_ascii c <=? 57).

Fixpoint all_digits (s : string) : bool :=
  match s with
  | EmptyString => true
  | String c rest => is_digit c && all_digits rest
  end.

(** [regexp.MustCompile(`[:][0-9]+$`).MatchString(s)]: somewhere in [s] a
    colon is followed by one digit or more, up to the end. *)
Fixpoint validID (s : string) : bool :=
  match s with
  | EmptyString => false
  | String c rest =>
      (Ascii.eqb c ":"%char && negb (String.eqb rest "") && all_digits rest)
      || validID rest
  end.

(** Whether [strconv.Atoi(s)] returns no error, for [s] short enough not to
    overflow: an optional sign, then one digit or more. *)
Definition Atoi_ok (s : string) : bool :=
  match s with
  | EmptyString => false
  | String c rest =>
      if Ascii.eqb c "+"%char || Ascii.eqb c "-"%char
      then negb (String.eqb rest "") && all_digits rest
      else all_digits s
  end.

(** [askPort].  The standard input is the list of what the successive calls
    of [fmt.Scanf] give: [None] for an error, else the port read.  When the
    input is used up the loop does not end. *)
Fixpoint askPort (stdin : list (option string)) : option string :=
  match stdin with
  | [] => None
  | None :: rest => askPort rest
  | Some port :: rest =>
      if String.eqb port "" then Some defaultPort
      else if (2 <? String.length port) && (String.length port <? 5)
              && Atoi_ok port
      then Some port
      else askPort rest
  end.

(** [key.Identity] and [key.Pair]. *)
Record Identity := mkIdentity { Key : bytes; Addr : string; TLS : bool }.
Record Pair := mkPair { Pair_Key : bytes; Public : Identity }.

(** A [cli.Context]: the arguments and what [contextToConfig] and
    [keygenCmd] read of the flags; a string flag that is not set ([IsSet] is
    false) is [None] and reads as the empty string. *)
Record Context := mkContext {
  Args : list string;
  verbose : bool;
  listen : string;
  control : string;
  folder : string;
  tls_disable : bool;
  tls_cert : option string;
  tls_key : option string;
  certs_dir : option string
}.

(** The options that [contextToConfig] hands to [core.NewConfig]. *)
Inductive ConfigOption :=
| WithLogLevel (debug : bool)
| WithListenAddress (addr : string)
| WithControlPort (port : string)
| WithConfigFolder (folder : string)
| WithInsecure
| WithTLS (certPath keyPath : string)
| WithTrustedCerts (paths : list string).

(** A [core.Config], by the options it was made from; [ConfigFolder()] is the
    folder of the last [WithConfigFolder]. *)
Definition ConfigFolder (default : string) (conf : list ConfigOption) : string :=
  foldl (λ acc o, match o with WithConfigFolder f => f | _ => acc end)
    default conf.

Definition KeyFolderName : string := "key".

Section keygen.

(** The disk, and the key store of package [key] on it: [LoadKeyPair] and
    [SaveKeyPair] of the file store at a folder.  Key generation, the default
    configuration folder, [fs.Files], [path.Join], [filepath.Abs] and the TOML
    encoder are collaborators too. *)
Variable FS : Type.
Variable LoadKeyPair : string → FS → Pair + error.
Variable SaveKeyPair : string → Pair → FS → FS * option error.
Variable NewKeyPair : string → Pair.
Variable NewTLSKeyPair : string → Pair.
Variable DefaultConfigFolder : string.
Variable Files : string → list string + error.
Variable Join : string → string → string.
Variable Abs : string → string + error.
Variable EncodeTOML : Identity → string + error.

(** [contextToConfig]; [None] when it panics. *)
Definition contextToConfig (c : Context) : option (list ConfigOption) :=
  let opts := [WithLogLevel (verbose c)] in
  let opts := if String.eqb (listen c) "" then opts
              else opts ++ [WithListenAddress (listen c)] in
  let opts := if String.eqb (control c) "" then opts
              else opts ++ [WithControlPort (control c)] in
  let opts := opts ++ [WithConfigFolder (folder c)] in
  let tls :=
    if tls_disable c then
      if bool_decide (is_Some (tls_cert c)) || bool_decide (is_Some (tls_key c))
      then None
      else Some (opts ++ [WithInsecure])
    else Some (opts ++ [WithTLS (default "" (tls_cert c))
                                 (default "" (tls_key c))]) in
  match tls, certs_dir c with
  | None, _ => None
  | Some opts, None => Some opts
  | Some opts, Some dir =>
      match Files dir with
      | inr _ => None
      | inl paths => Some (opts ++ [WithTrustedCerts paths])
      end
  end.

(** [keygenCmd]: what happens to the process, the disk afterwards, and the
    lines the command itself printed. *)
Definition keygenCmd (c : Context) (stdin : list (option string)) (fs : FS)
    : Exit * FS * list string :=
  match Args c with
  | [] => (OsExit 1, fs, ["Missing drand address in argument. Abort."])
  | first :: _ =>
      let asked :=
        if validID first then Some (first, [])
        else match askPort stdin with
             | Some port => Some (first +:+ ":" +:+ port, ["Invalid port."])
             | None => None
             end in
      match asked with
      | None => (Hang, fs, ["Invalid port."])
      | Some (addr, out1) =>
          let '(priv, out2) :=
            if tls_disable c
            then (NewKeyPair addr,
                  out1 ++ ["Generating private / public key pair without TLS."])
            else (NewTLSKeyPair addr,
                  out1 ++ ["Generating private / public key pair with TLS"
                           +:+ " indication"]) in
          match contextToConfig c with
          | None => (GoPanic, fs, out2)
          | Some config =>
              let dir := ConfigFolder DefaultConfigFolder config in
              match LoadKeyPair dir fs with
              | inl _ =>
                  (Return None, fs,
                   out2 ++ ["Keypair already present in `" +:+ dir +:+ "`.";
                            "Remove them before generating new one"])
              | inr _ =>
                  match SaveKeyPair dir priv fs with
                  | (fs', Some err) =>
                      (OsExit 1, fs', out2 ++ ["could not save key: "])
                  | (fs', None) =>
                      match Abs (Join dir KeyFolderName) with
                      | inr err =>
                          (OsExit 1, fs', out2 ++ ["err getting full path: "])
                      | inl absPath =>
                          let out3 :=
                            out2 ++ ["Generated keys at  " +:+ absPath;
                                     "You can copy paste the following snippet"
                                     +:+ " to a common group.toml file:"] in
                          match EncodeTOML (Public priv) with
                          | inr _ => (GoPanic, fs', out3)
                          | inl toml =>
                              (Return None, fs',
                               out3 ++ ["[[Nodes]]" +:+ toml;
                                        "Or just collect all public key files"
                                        +:+ " and use the group command!"])
                          end
                      end
                  end
              end
          end
      end
  end.

End keygen.

(** [strings.Join]. *)
Fixpoint strings_Join (elems : list string) (sep : string) : string :=
  match elems with
  | [] => ""
  | [s] => s
  | s :: rest => s +:+ sep +:+ strings_Join rest sep
  end.

(** A [key.Identity] is a [net.Peer]: [Address()] is its [Addr] and [IsTLS()]
    its [TLS]. *)
Definition Identity_Peer (id : Identity) : net.Peer :=
  {| net.Address := Addr id; net.IsTLS := TLS id |}.

(** The fields of [key.Group] that the commands read and write; times are in
    seconds since the epoch and the period is a [time.Duration]. *)
Record Group := mkGroup {
  Nodes : list Identity;
  Threshold : Z;
  Period : Z;
  GenesisTime : Z;
  GenesisSeed : bytes;
  TransitionTime : Z
}.

Definition set_Period (p : Z) (g : Group) : Group :=
  {| Nodes := Nodes g; Threshold := Threshold g; Period := p;
     GenesisTime := GenesisTime g; GenesisSeed := GenesisSeed g;
     TransitionTime := TransitionTime g |}.

Definition set_GenesisSeed (seed : bytes) (g : Group) : Group :=
  {| Nodes := Nodes g; Threshold := Threshold g; Period := Period g;
     GenesisTime := GenesisTime g; GenesisSeed := seed;
     TransitionTime := TransitionTime g |}.

Definition set_TransitionTime (t : Z) (g : Group) : Group :=
  {| Nodes := Nodes g; Threshold := Threshold g; Period := Period g;
     GenesisTime := GenesisTime g; GenesisSeed := GenesisSeed g;
     TransitionTime := t |}.

(** The flags of the [group] command, read off the same [cli.Context]; a flag
    that is not set is [None], and then [c.String] gives the empty string and
    [c.Int64] gives 0. *)
Record GroupFlags := mkGroupFlags {
  flag_from : option string;
  flag_threshold : option Z;
  flag_period : option string;
  flag_genesis : option Z;
  flag_start_in : option string;
  flag_transition : option Z;
  flag_out : option string
}.

(** What a command writes to the standard output: a line, or the TOML
    snippet of a group. *)
Inductive Output :=
| Printed (line : string)
| Snippet (g : Group) (toml : string).

(** [t.Unix()] of a time in nanoseconds since the epoch. *)
Definition Unix (t : Z) : Z := (t / 1000000000)%Z.

Section group.

(** The disk and the collaborators of package [key], [core] and [time]:
    [key.Load] of an identity and of a group, [key.Save] of a group,
    [key.NewGroup], [key.DefaultThreshold], [group.GetGenesisSeed()], the
    TOML encoder, [core.DefaultBeaconPeriod], [time.ParseDuration] and the
    text of a time. *)
Variable FS : Type.
Variable LoadIdentity : string → FS → Identity + error.
Variable LoadGroup : string → FS → Group + error.
Variable SaveGroup : string → Group → FS → FS * option error.
Variable NewGroup : list Identity → Z → Z → Group.
Variable DefaultThreshold : nat → Z.
Variable GetGenesisSeed : Group → bytes.
Variable EncodeGroupTOML : Group → string + error.
Variable DefaultBeaconPeriod : Z.
Variable ParseDuration : string → Z + error.
Variable TimeString : Z → string.

(** [time.Now()]: [now k] is what the [k]-th call returns. *)
Variable now : nat → Z.

(** [getThreshold]: the threshold, or the message it is fatal with. *)
Definition getThreshold (c : Context) (f : GroupFlags) : Z + string :=
  let threshold := DefaultThreshold (length (Args c)) in
  match flag_threshold f with
  | Some localThr =>
      if (localThr <? threshold)%Z
      then inr ("drand: threshold specified too low " +:+ pretty localThr
                +:+ "/" +:+ pretty threshold)
      else inl localThr
  | None => inl threshold
  end.

(** [getPublicKeys], from the [i]-th argument on: the identities loaded, or
    the message it is fatal with, and the lines printed. *)
Fixpoint getPublicKeys_from (i : nat) (args : list string) (fs : FS)
    : (list Identity + string) * list Output :=
  match args with
  | [] => (inl [], [])
  | str :: rest =>
      let line := Printed ("drand: reading public identity from " +:+ str) in
      match LoadIdentity str fs with
      | inr err =>
          (inr ("drand: can't load key " +:+ pretty i +:+ ": " +:+ err),
           [line])
      | inl pub =>
          match getPublicKeys_from (S i) rest fs with
          | (inl publics, out) => (inl (pub :: publics), line :: out)
          | (inr msg, out) => (inr msg, line :: out)
          end
      end
  end.

Definition getPublicKeys (c : Context) (fs : FS)
    : (list Identity + string) * list Output :=
  getPublicKeys_from 0 (Args c) fs.

(** [getStartIn], when [time.Now()] has been called [k] times: the time, in
    seconds, or the error, and the number of calls afterwards. *)
Definition getStartIn (f : GroupFlags) (k : nat) : (Z + error) * nat :=
  match flag_start_in f with
  | None => (inr "no start-in flag specified", k)
  | Some periodStr =>
      match ParseDuration periodStr with
      | inr err => (inr err, k)
      | inl period => (inl (Unix (now k + period)), S k)
      end
  end.

(** [groupOut]: the group is saved at the path of [--out], or else its TOML
    snippet is printed. *)
Definition groupOut (f : GroupFlags) (group : Group) (fs : FS)
    (out : list Output) : Exit * FS * list Output :=
  match flag_out f with
  | Some groupPath =>
      match SaveGroup groupPath group fs with
      | (fs', Some err) =>
          (OsExit 1, fs',
           out ++ [Printed ("drand: can't save group to specified file name: "
                            +:+ err)])
      | (fs', None) => (Return None, fs', out)
      end
  | None =>
      match EncodeGroupTOML group with
      | inr err =>
          (OsExit 1, fs,
           out ++ [Printed ("drand: can't encode group to TOML: " +:+ err)])
      | inl toml =>
          (Return None, fs,
           out ++ [Printed ("Copy the following snippet into a new group.toml"
                            +:+ " file and distribute it to all the"
                            +:+ " participants:");
                   Snippet group toml])
      end
  end.

(** [groupReshareCmd]. *)
Definition groupReshareCmd (c : Context) (f : GroupFlags) (fs : FS)
    : Exit * FS * list Output :=
  let '(r, k) := getStartIn f 0 in
  let checked :=
    match r with
    | inl t => inl t
    | inr _ =>
        match flag_transition f with
        | None => inr ("For a creating a group from a current group, "
                       +:+ "transition time flag is required")
        | Some t => inl t
        end
    end in
  match checked with
  | inr msg => (OsExit 1, fs, [Printed msg])
  | inl transitionTime =>
      if (transitionTime <=? Unix (now k))%Z
      then (OsExit 1, fs, [Printed "transition time in the past/current"])
      else
        let out := [Printed ("Creating a new group for resharing at time "
                             +:+ TimeString transitionTime)] in
        let oldGroupPath := default "" (flag_from f) in
        match LoadGroup oldGroupPath fs with
        | inr err => (Return (Some err), fs, out)
        | inl group =>
            if length (GenesisSeed group) =? 0
            then (Return (Some "old group has an empty genesis seed"), fs, out)
            else
              match getThreshold c f with
              | inr msg => (OsExit 1, fs, out ++ [Printed msg])
              | inl newT =>
                  match getPublicKeys c fs with
                  | (inr msg, lines) =>
                      (OsExit 1, fs, out ++ lines ++ [Printed msg])
                  | (inl newNodes, lines) =>
                      let newGroup :=
                        NewGroup newNodes newT (GenesisTime group) in
                      let newGroup := set_Period (Period group) newGroup in
                      let newGroup :=
                        set_GenesisSeed (GetGenesisSeed group) newGroup in
                      let newGroup :=
                        set_TransitionTime (default 0%Z (flag_transition f))
                          newGroup in
                      groupOut f newGroup fs (out ++ lines)
                  end
              end
        end
  end.

(** [groupCmd]. *)
Definition groupCmd (c : Context) (f : GroupFlags) (fs : FS)
    : Exit * FS * list Output :=
  let isResharing := bool_decide (is_Some (flag_from f)) in
  if bool_decide (Args c = [])
     || ((length (Args c) <? 3) && negb isResharing)
  then (OsExit 1, fs,
        [Printed "drand: group command take at least 3 keys as arguments"])
  else if isResharing then groupReshareCmd c f fs
  else
    match getThreshold c f with
    | inr msg => (OsExit 1, fs, [Printed msg])
    | inl threshold =>
        match getPublicKeys c fs with
        | (inr msg, lines) => (OsExit 1, fs, lines ++ [Printed msg])
        | (inl publics, lines) =>
            let period :=
              match flag_period f with
              | Some str => ParseDuration str
              | None => inl DefaultBeaconPeriod
              end in
            match period with
            | inr err =>
                (OsExit 1, fs,
                 lines ++ [Printed ("drand: invalid period time given "
                                    +:+ err)])
            | inl period =>
                let '(r, k) := getStartIn f 0 in
                let genesis :=
                  match r with
                  | inl t => inl t
                  | inr _ =>
                      match flag_genesis f with
                      | None =>
                          inr "no start-in flag nor genesis flag specified"
                      | Some t => inl t
                      end
                  end in
                match genesis with
                | inr msg => (OsExit 1, fs, lines ++ [Printed msg])
                | inl genesis =>
                    if (genesis <=? Unix (now k))%Z
                    then (OsExit 1, fs,
                          lines ++ [Printed ("drand: genesis time in the past"
                                             +:+ " or not specified")])
                    else
                      let out :=
                        lines ++ [Printed ("Creating the new group file at"
                                           +:+ " time "
                                           +:+ TimeString genesis)] in
                      let group := NewGroup publics threshold genesis in
                      let group := set_Period period group in
                      groupOut f group fs out
                end
            end
        end
    end.

(** A run of the command has written the group [g]: saved it at the path of
    [--out], or else printed its snippet last, the disk left as it was. *)
Definition written (f : GroupFlags) (g : Group) (fs fs' : FS)
    (out : list Output) : Prop :=
  match flag_out f with
  | Some groupPath => SaveGroup groupPath g fs = (fs', None)
  | None =>
      fs' = fs ∧ ∃ toml, EncodeGroupTOML g = inl toml
                         ∧ last out = Some (Snippet g toml)
  end.

End group.

Section checkGroup.

(** The disk, as [testEmptyGroup] and [key.Load] see it: the error of
    [os.Open], the size that [file.Stat()] reports or its error, and the group
    loaded; [fs.Files] as in [contextToConfig], and [conf.Certs()]. *)
Variable FS : Type.
Variable Open : string → FS → option error.
Variable Stat_Size : string → FS → Z + error.
Variable LoadGroup : string → FS → Group + error.
Variable Files : string → list string + error.
Variable Certs : list ConfigOption → net.CertManager.

(** [testEmptyGroup]: the message it is fatal with, if any. *)
Definition testEmptyGroup (path : string) (fs : FS) : option string :=
  match Open path fs with
  | Some err => Some ("drand: can't opern group path: " +:+ err)
  | None =>
      match Stat_Size path fs with
      | inr err => Some ("drand: can't open file info: " +:+ err)
      | inl size =>
          if (size =? 0)%Z then Some "drand: group file empty" else None
      end
  end.

(** The loop of [checkGroup] over the nodes of the group: a new client for
    each node, and [Home] called on it.  It gives [allGood], [invalidIds],
    the lines printed and the world afterwards, on the left; what was printed
    and the world when a call panicked, on the right. *)
Fixpoint checkGroup_nodes (mgr : net.CertManager) (nodes : list Identity)
    (allGood : bool) (invalidIds out : list string) (w : net.World)
    : bool * list string * list string * net.World
      + list string * net.World :=
  match nodes with
  | [] => inl (allGood, invalidIds, out, w)
  | id :: rest =>
      let client := net.NewGrpcClientFromCertManager mgr [] in
      match net.Home (Identity_Peer id) [] client w with
      | net.Panic => inr (out, w)
      | net.Ret (inr err, _, w') =>
          checkGroup_nodes mgr rest false (invalidIds ++ [Addr id])
            (out ++ ["drand: error checking id " +:+ Addr id +:+ ": "
                     +:+ err]) w'
      | net.Ret (inl _, _, w') =>
          checkGroup_nodes mgr rest allGood invalidIds
            (out ++ ["drand: id " +:+ Addr id +:+ " answers correctly"]) w'
      end
  end.

(** [checkGroup]. *)
Definition checkGroup (c : Context) (fs : FS) (w : net.World)
    : Exit * list string * net.World :=
  match Args c with
  | [] => (OsExit 1, ["drand: check-group expects a group argument"], w)
  | first :: _ =>
      match contextToConfig Files c with
      | None => (GoPanic, [], w)
      | Some conf =>
          match testEmptyGroup first fs with
          | Some msg => (OsExit 1, [msg], w)
          | None =>
              match LoadGroup first fs with
              | inr _ => (OsExit 1, ["drand: loading group failed"], w)
              | inl group =>
                  match checkGroup_nodes (Certs conf) (Nodes group) true []
                          [] w with
                  | inr (out, w') => (GoPanic, out, w')
                  | inl (allGood, invalidIds, out, w') =>
                      if negb allGood
                      then (Return (Some ("Following nodes don't answer: "
                                          +:+ strings_Join invalidIds " ,")),
                            out, w')
                      else (Return None, out, w')
                  end
              end
          end
      end
  end.

End checkGroup.

(** [strings.Split(s, sep)] for a separator of one byte, as [","] is: the
    pieces of [s] between the separators, one more than there are
    separators. *)
Fixpoint strings_Split (s : string) (sep : Ascii.ascii) : list string :=
  match s with
  | EmptyString => [""]
  | String c rest =>
      if Ascii.eqb c sep then "" :: strings_Split rest sep
      else match strings_Split rest sep with
           | piece :: pieces => String c piece :: pieces
           | [] => [String c ""]
           end
  end.

Section getNodes.

(** The disk as in [checkGroup], and [group.Identities()]. *)
Variable FS : Type.
Variable Open : string → FS → option error.
Variable Stat_Size : string → FS → Z + error.
Variable LoadGroup : string → FS → Group + error.
Variable Identities : Group → list Identity.

(** [getGroup]: the group of the first argument, or the message it is fatal
    with; [c.Args().First()] is the empty string without arguments. *)
Definition getGroup (c : Context) (fs : FS) : Group + string :=
  let groupPath := default "" (head (Args c)) in
  match testEmptyGroup FS Open Stat_Size groupPath fs with
  | Some msg => inr msg
  | None =>
      match LoadGroup groupPath fs with
      | inr err => inr ("drand: error loading group file: " +:+ err)
      | inl g => inl g
      end
  end.

(** [getNodes], with the flag [--nodes]: the identities to contact, or the
    message it is fatal with. *)
Definition getNodes (c : Context) (flag_nodes : option string) (fs : FS)
    : list Identity + string :=
  match getGroup c fs with
  | inr msg => inr msg
  | inl group =>
      let gids := Identities group in
      let selected :=
        match flag_nodes with
        | Some value =>
            let ids :=
              foldl (λ ids addr,
                       foldl (λ ids gid,
                                if String.eqb (Addr gid) addr
                                then ids ++ [gid] else ids) ids gids)
                [] (strings_Split value ","%char) in
            if length ids =? 0
            then inr "drand: addresses specified don't exist in group.toml"
            else inl ids
        | None => inl gids
        end in
      match selected with
      | inr msg => inr msg
      | inl ids =>
          if length ids =? 0
          then inr ("drand: no nodes specified with --nodes are in the group"
                    +:+ " file")
          else inl ids
      end
  end.

End getNodes.

End cli.

(** *** Package [dkg] and the resharing run by [demo/orchestrator.go] *)
Module dkg.

Section scalars.

(** The scalars of the threshold scheme form a field.  A point of the group
    is written by its scalar to the base point, so that the commitment of a
    polynomial is written by the polynomial itself. *)
Context {F : Type} `{EqDecision F}.
Variables (zero one : F) (add mul sub : F → F → F) (opp : F → F)
          (div : F → F → F) (inv : F → F).

(** The evaluation point of the share of index [i]. *)
Variable point : N → F.

(** A polynomial is the list of its coefficients, the constant term first. *)
Fixpoint eval (p : list F) (x : F) : F :=
  match p with
  | [] => zero
  | a :: q => add a (mul x (eval q x))
  end.

Fixpoint padd (p q : list F) : list F :=
  match p, q with
  | [], _ => q
  | _, [] => p
  | a :: p', b :: q' => add a b :: padd p' q'
  end.

Definition pscale (c : F) (p : list F) : list F := map (mul c) p.

Definition sum (l : list F) : F := foldr add zero l.

(** The Lagrange basis polynomial of the point [xi] among the points [xs],
    at [z]. *)
Definition lagrange (xs : list F) (xi z : F) : F :=
  foldr (λ xj acc, if decide (xj = xi) then acc
                   else mul acc (div (sub z xj) (sub xi xj))) one xs.

(** Polynomial arithmetic that only the proofs use: the product by [X - c],
    the quotient by [X - a], and the basis and interpolation polynomials as
    lists of coefficients. *)
Definition pmul_lin (c : F) (p : list F) : list F :=
  padd (pscale (opp c) p) (zero :: p).

Fixpoint divlin (p : list F) (a : F) : list F :=
  match p with
  | [] => []
  | _ :: q => match q with [] => [] | _ => eval q a :: divlin q a end
  end.

Definition lag_poly (xs : list F) (xi : F) : list F :=
  foldr (λ xj acc, if decide (xj = xi) then acc
                   else pscale (inv (sub xi xj)) (pmul_lin xj acc)) [one] xs.

Definition interpolate (xs : list F) (p : list F) : list F :=
  foldr (λ xi acc, padd (pscale (eval p xi) (lag_poly xs xi)) acc) [] xs.

(** [key.DistPublic], the distributed public key with its [Coefficients], and
    [Key()], its first coefficient. *)
Record DistPublic := mkDistPublic { Coefficients : list F }.

Definition Key (dp : DistPublic) : option F := head (Coefficients dp).

Definition Commit (p : list F) : DistPublic := {| Coefficients := p |}.

(** The fields of [key.Group] that a resharing reads and writes. *)
Record Group := mkGroup { Threshold : nat; PublicKey : DistPublic }.

(** The last step of [Orchestrator.RunResharing]: the old and the new group
    are loaded and their keys compared; what is printed when they differ. *)
Definition RunResharing_check (oldgroup newgroup : Group) : list string :=
  if bool_decide (Key (PublicKey oldgroup) = Key (PublicKey newgroup))
  then [] else ["[-] Invalid distributed key !"].

(** Modelled from the spec: the resharing DKG (4.H) is not among the sources.
    "Resharing produces fresh shares of the same secret for a new committee":
    a member of the old group deals a fresh polynomial of the new threshold
    whose constant term is its own share. *)
Record Deal := mkDeal { dealer : N; poly : list F }.

(** Modelled from the spec: a deal is valid when it has the degree of the new
    threshold and its constant commitment is the old distributed public key
    at the index of the dealer (a share is "valid only if verified against
    the public polynomial commitment at index"). *)
Definition valid_deal (old : Group) (t' : nat) (d : Deal) : bool :=
  bool_decide (length (poly d) = t')
  && bool_decide (Key (Commit (poly d))
                  = Some (eval (Coefficients (PublicKey old))
                            (point (dealer d)))).

Definition points (qual : list Deal) : list F :=
  map (λ d, point (dealer d)) qual.

(** The weight of a qualified dealer: its Lagrange coefficient at 0. *)
Definition weight (qual : list Deal) (d : Deal) : F :=
  lagrange (points qual) (point (dealer d)) zero.

(** Modelled from the spec: at [Finalize] the new distributed public key is
    the combination of the dealt commitments ... *)
Definition recombine (qual : list Deal) : list F :=
  foldr (λ d acc, padd (pscale (weight qual d) (poly d)) acc) [] qual.

(** ... and the new share of index [j] the same combination of what the
    dealers dealt to [j]. *)
Definition new_share (qual : list Deal) (j : N) : F :=
  sum (map (λ d, mul (weight qual d) (eval (poly d) (point j))) qual).

(** Modelled from the spec: a resharing from the group [old] to the threshold
    [t'].  With fewer valid deals than the old threshold, or two deals of one
    dealer, it aborts and no share is produced; else it gives the new group,
    with its distributed public key, and the new shares. *)
Definition reshare (old : Group) (t' : nat) (deals : list Deal)
    : option (Group * (N → F)) :=
  let qual := filter (λ d, valid_deal old t' d = true) deals in
  if bool_decide (Threshold old ≤ length qual)
     && bool_decide (NoDup (points qual))
  then Some ({| Threshold := t'; PublicKey := Commit (recombine qual) |},
             new_share qual)
  else None.

End scalars.

End dkg.

(** *** The demo: [demo/orchestrator.go] *)
Module demo.

(** A [*Node], as far as the orchestrator reads and writes it: the index
    [i], the address, the folder and the flag [reshared].  What a node does
    ([Start], [Stop], [Ping], [GetCokey], [GetGroup], writing its files) is a
    collaborator and shows as an event or as an input.  The progress lines
    that the orchestrator prints are left out. *)
Record Node := mkNode {
  i : Z;
  addr : string;
  base : string;
  reshared : bool
}.

#[global] Instance Node_eq_dec : EqDecision Node.
Proof. solve_decision. Defined.

Definition set_reshared (v : bool) (n : Node) : Node :=
  {| i := i n; addr := addr n; base := base n; reshared := v |}.

(** What the orchestrator does to the outside. *)
Inductive Event :=
| RemoveAll (path : string)
| MkdirAll (path : string)
| WriteCertificate (n : Node) (path : string)
| WritePublic (n : Node) (path : string)
| Start (n : Node) (certFolder : string)
| Stop (n : Node)
| Ping (n : Node)
| Sleep (d : Z)
| Command (name : string) (args : list string)
| ReadFile (path : string).

(** A function returns, panics, or is still looping when its input is used
    up. *)
Inductive Result (A : Type) :=
| Done (a : A)
| Panicked (msg : string)
| Looping.
Arguments Done {A} a.
Arguments Panicked {A} msg.
Arguments Looping {A}.

(** The fields of [Orchestrator] that the functions below read and write. *)
Record Orchestrator := mkOrchestrator {
  n : Z;
  thr : Z;
  period : string;
  periodD : Z;
  basePath : string;
  groupPath : string;
  newGroupPath : string;
  certFolder : string;
  nodes : list Node;
  paths : list string;
  newNodes : list Node;
  newPaths : list string;
  transition : Z;
  resharePaths : list string;
  reshareIndex : list Z;
  reshareThr : Z;
  reshareNodes : list Node
}.

(** [filterNodes]: the inner loop, then the outer one. *)
Fixpoint isExcluded (exclude : list Z) (node : Node) : bool :=
  match exclude with
  | [] => false
  | x :: rest => if (x =? i node)%Z then true else isExcluded rest node
  end.

Definition filterNodes (list_ : list Node) (exclude : list Z) : list Node :=
  foldl (λ filtered node,
           if negb (isExcluded exclude node) then filtered ++ [node]
           else filtered) [] list_.

(** [StopNode] and [StopAllNodes]. *)
Definition StopNode (e : Orchestrator) (idx : Z) : list Event :=
  foldl (λ ev node, if (i node =? idx)%Z then ev ++ [Stop node] else ev)
    [] (nodes e).

Definition StopAllNodes (e : Orchestrator) (toExclude : list Z)
    : list Event :=
  let filtered := filterNodes (nodes e) toExclude in
  foldl (λ ev node, ev ++ StopNode e (i node)) [] filtered.

(** The nodes a trace stops, in order. *)
Definition stopped (ev : list Event) : list Node :=
  omap (λ x, match x with Stop node => Some node | _ => None end) ev.

(** [StartNode].  [pings] is what the successive calls of [Ping] give.  The
    variable [trial] is compared with 5 on every turn of the loop; nothing
    assigns to it. *)
Fixpoint StartNode_loop (foundNode : Node) (trial : Z) (pings : list bool)
    : Result unit * list Event :=
  if (trial <? 5)%Z then
    match pings with
    | [] => (Looping, [])
    | true :: _ => (Done tt, [Ping foundNode])
    | false :: rest =>
        let '(r, ev) := StartNode_loop foundNode trial rest in
        (r, Ping foundNode :: Sleep 1000000000 :: ev)
    end
  else (Panicked ("[-] Could not start node " +:+ addr foundNode +:+ " ... "),
        []).

Definition StartNode (e : Orchestrator) (idx : Z) (pings : list bool)
    : Result unit * list Event :=
  let foundNode :=
    foldl (λ found node, if (i node =? idx)%Z then Some node else found)
      None (nodes e) in
  match foundNode with
  | None => (Panicked "node to start doesn't exist", [])
  | Some foundNode =>
      let trial := 0%Z in
      let '(r, ev) := StartNode_loop foundNode trial pings in
      (r, Start foundNode (certFolder e) :: ev)
  end.

(** The calls of [Ping] in a trace. *)
Definition pinged (ev : list Event) : nat :=
  length (omap (λ x, match x with Ping node => Some node | _ => None end) ev).

Section orchestrator.

(** The collaborators: [NewNode], [path.Join], [os.TempDir()], the errors of
    [os.MkdirAll], of a command run to its end and of [ioutil.ReadFile],
    [time.ParseDuration], and the helper [pair]. *)
Variable NewNode : Z → string → Node.
Variable Join : string → string → string.
Variable TempDir : string.
Variable MkdirAll_err : string → option error.
Variable Run_err : string → list string → option error.
Variable ReadFile_err : string → option error.
Variable ParseDuration : string → Z + error.
Variable pair : string → string → list string.

(** [createNodes]: the nodes of the indices [offset], [offset + 1], ... and
    the paths of their public keys. *)
Definition createNodes (n offset : Z) (basePath certFolder : string)
    : list Node * list string * list Event :=
  let '(nodes, ev) :=
    foldl (λ '(nodes, ev) k,
             let idx := (Z.of_nat k + offset)%Z in
             let n := NewNode idx basePath in
             (nodes ++ [n],
              ev ++ [WriteCertificate n
                       (Join certFolder ("cert-" +:+ pretty idx))]))
      ([], []) (seq 0 (Z.to_nat n)) in
  let '(paths, ev) :=
    foldl (λ '(paths, ev) node,
             let path :=
               Join basePath ("public-" +:+ pretty (i node) +:+ ".toml") in
             (paths ++ [path], ev ++ [WritePublic node path]))
      ([], ev) nodes in
  (nodes, paths, ev).

(** [NewOrchestrator]; [checkErr] panics on an error. *)
Definition NewOrchestrator (n thr : Z) (period : string)
    : Result Orchestrator * list Event :=
  let basePath := Join TempDir "drand-full" in
  let ev := [RemoveAll basePath; MkdirAll basePath] in
  match MkdirAll_err basePath with
  | Some err => (Panicked err, ev)
  | None =>
      let certFolder := Join basePath "certs" in
      let ev := ev ++ [MkdirAll certFolder] in
      match MkdirAll_err certFolder with
      | Some err => (Panicked err, ev)
      | None =>
          let '(nodes, paths, ev') := createNodes n 1 basePath certFolder in
          match ParseDuration period with
          | inr err => (Panicked err, ev ++ ev')
          | inl periodD =>
              (Done {| n := n; thr := thr; period := period;
                       periodD := periodD; basePath := basePath;
                       groupPath := Join basePath "group.toml";
                       newGroupPath := ""; certFolder := certFolder;
                       nodes := nodes; paths := paths;
                       newNodes := []; newPaths := []; transition := 0;
                       resharePaths := []; reshareIndex := [];
                       reshareThr := 0; reshareNodes := [] |},
               ev ++ ev')
          end
      end
  end.

(** [SetupNewNodes]. *)
Definition SetupNewNodes (e : Orchestrator) (n : Z)
    : Orchestrator * list Event :=
  let '(newNodes, newPaths, ev) :=
    createNodes n (Z.of_nat (length (nodes e)) + 1) (basePath e)
      (certFolder e) in
  ({| n := demo.n e; thr := thr e; period := period e;
      periodD := periodD e; basePath := basePath e;
      groupPath := groupPath e; newGroupPath := newGroupPath e;
      certFolder := certFolder e; nodes := nodes e; paths := paths e;
      newNodes := map (set_reshared true) newNodes; newPaths := newPaths;
      transition := transition e; resharePaths := resharePaths e;
      reshareIndex := reshareIndex e; reshareThr := reshareThr e;
      reshareNodes := reshareNodes e |}, ev).

(** [CreateResharingGroup].  The slice expressions [e.nodes[oldToRemove:]]
    and [e.paths[oldToRemove:]] panic out of range. *)
Definition CreateResharingGroup (e : Orchestrator)
    (oldToRemove threshold transitionTime : Z)
    : Result Orchestrator * list Event :=
  if (oldToRemove <? 0)%Z || (Z.of_nat (length (nodes e)) <? oldToRemove)%Z
  then (Panicked "slice bounds out of range", [])
  else
    let kept := drop (Z.to_nat oldToRemove) (nodes e) in
    let reshareIndex :=
      (reshareIndex e ++ map i kept) ++ map i (newNodes e) in
    let reshareNodes := (reshareNodes e ++ kept) ++ newNodes e in
    if (Z.of_nat (length (paths e)) <? oldToRemove)%Z
    then (Panicked "slice bounds out of range", [])
    else
      let resharePaths :=
        (resharePaths e ++ drop (Z.to_nat oldToRemove) (paths e))
        ++ newPaths e in
      let newGroupPath := Join (basePath e) "new_group.toml" in
      let args :=
        ((["group"; "--out"; newGroupPath] ++ pair "--from" (groupPath e))
         ++ pair "--threshold" (pretty threshold))
        ++ pair "--transition" (pretty transitionTime) in
      let args := args ++ resharePaths in
      let ev := [Command "drand" args] in
      match Run_err "drand" args with
      | Some err => (Panicked err, ev)
      | None =>
          let ev := ev ++ [ReadFile newGroupPath] in
          match ReadFile_err newGroupPath with
          | Some err => (Panicked err, ev)
          | None =>
              let stops :=
                foldl (λ ev node,
                         if existsb (λ idx, (idx =? i node)%Z) reshareIndex
                         then ev else ev ++ [Stop node])
                  [] (nodes e) in
              (Done {| n := n e; thr := thr e; period := period e;
                       periodD := periodD e; basePath := basePath e;
                       groupPath := groupPath e;
                       newGroupPath := newGroupPath;
                       certFolder := certFolder e; nodes := nodes e;
                       paths := paths e; newNodes := newNodes e;
                       newPaths := newPaths e;
                       transition := transitionTime;
                       resharePaths := resharePaths;
                       reshareIndex := reshareIndex;
                       reshareThr := threshold;
                       reshareNodes := reshareNodes |},
               ev ++ stops)
          end
      end.

End orchestrator.

Section checkDKGNodes.

(** A [*key.Group] and its distributed public key are those of package
    [key]; [GetGroup] may give nil, here [None]. *)
Variable Group : Type.
Variable DistPublic : Type.
Variable PublicKey : Group → DistPublic.
Variable Equal : DistPublic → DistPublic → bool.
Variable GetGroup : Node → option Group.

(** One turn of the first loop of [checkDKGNodes]: [allFound] and what is
    left of [cokeys], the answers of the successive calls of [GetCokey];
    [None] when they are used up. *)
Fixpoint allFound (nodes : list Node) (cokeys : list bool)
    : option (bool * list bool) :=
  match nodes with
  | [] => Some (true, cokeys)
  | node :: rest =>
      match cokeys with
      | [] => None
      | true :: cokeys => allFound rest cokeys
      | false :: cokeys => Some (false, cokeys)
      end
  end.

(** The first loop, for at most [turns] turns: whether it ends. *)
Fixpoint present (turns : nat) (nodes : list Node) (cokeys : list bool)
    : bool :=
  match turns with
  | 0 => false
  | S turns =>
      match allFound nodes cokeys with
      | None => false
      | Some (true, _) => true
      | Some (false, cokeys) => present turns nodes cokeys
      end
  end.

(** The second loop: every group is compared with the first one found. *)
Fixpoint compare (g : option Group) (lastNode : string) (nodes : list Node)
    : Result (option Group) :=
  match nodes with
  | [] => Done g
  | node :: rest =>
      let group := GetGroup node in
      match g with
      | None => compare group (addr node) rest
      | Some g0 =>
          match group with
          | None => Panicked "invalid memory address or nil pointer dereference"
          | Some group0 =>
              if negb (Equal (PublicKey g0) (PublicKey group0))
              then Panicked ("- Node " +:+ addr node
                             +:+ " has different cokey than " +:+ lastNode)
              else compare g lastNode rest
          end
      end
  end.

(** [checkDKGNodes]; a turn of the first loop uses up an answer or ends the
    loop, so there are no more turns than answers, plus one. *)
Definition checkDKGNodes (nodes : list Node) (cokeys : list bool)
    : Result (option Group) :=
  if present (S (length cokeys)) nodes cokeys
  then compare None "" nodes
  else Looping.

End checkDKGNodes.

End demo.

(** *** Concrete inputs, used by the examples and witnesses of Part II *)
Module sample.

Definition peer : net.Peer := {| net.Address := "127.0.0.1:4444"; net.IsTLS := false |}.

Definition request : bytes := [Byte.x01; Byte.x02].

(** A world where the clock reads 1000 ns, every dial succeeds and every
    invocation is answered with the request itself. *)
Definition world : net.World :=
  {| net.clock := λ _, 1000%Z; net.reads := 0;
     net.dialer := λ _ _, None;
     net.server := λ _ _ _ req, inl req;
     net.binder := λ _ _ _, None;
     net.trace := [] |}.

(** A world whose server is gone: the first invocation fails with a
    connection error, later ones are answered. *)
Definition flaky : net.World :=
  {| net.clock := λ _, 1000%Z; net.reads := 0;
     net.dialer := λ _ _, None;
     net.server := λ k _ _ req,
       if k <? 2 then inr "rpc error: code = Unavailable desc = connection error"
       else inl req;
     net.binder := λ _ _ _, None;
     net.trace := [] |}.

(** A client that already holds a connection to [peer]. *)
Definition connection : net.ClientConn :=
  {| net.cc_target := "127.0.0.1:4444"; net.cc_serial := 0 |}.

Definition client : net.grpcClient :=
  {| net.conns := {[ "127.0.0.1:4444" := Some connection ]};
     net.opts := []; net.timeout := net.defaultTimeout; net.manager := None |}.

(** A node on which [InitReshare] was called for the group "next" and whose
    DKG is not set up yet, and a first packet of the leader for that group. *)
Definition waiting_node : core.Drand :=
  {| core.addr := "127.0.0.1:4444"; core.dkgDone := true; core.dkg := None;
     core.nextGroupHash := "next"; core.nextFirstReceived := false;
     core.nextOldPresent := false; core.nextConf := 0; core.beacon := None;
     core.callbacks := ∅ |}.

Definition kick : core.ResharePacket :=
  {| core.GroupHash := "next"; core.Dkg := None |}.

(** The same node once its DKG is set up. *)
Definition ready_node : core.Drand :=
  core.set_dkg (Some {| core.processed := [] |}) waiting_node.

(** A group of three with threshold two, a period of two seconds and its
    genesis two seconds from now, as in [TestBeaconSimple]. *)
Definition node (i : N) (a : string) : beacon.Node :=
  {| beacon.node_index := i; beacon.node_address := a;
     beacon.node_tls := false; beacon.node_key := [] |}.

Definition group : beacon.Group :=
  {| beacon.Nodes := [node 0 "127.0.0.1:4000"; node 1 "127.0.0.1:4001";
                      node 2 "127.0.0.1:4002"];
     beacon.Threshold := 2; beacon.Period := 2; beacon.GenesisTime := 2;
     beacon.GenesisSeed := [Byte.x2a]; beacon.TransitionTime := None;
     beacon.PublicKey := [[Byte.x07]] |}.

Definition share : beacon.Share :=
  {| beacon.share_index := 0; beacon.share_scalar := [Byte.x03];
     beacon.share_commits := [[Byte.x07]] |}.

(** A toy scheme to run the engine on: the message of a round is the previous
    signature followed by the round, and a signature is the message itself. *)
Definition Message (previous_sig : bytes) (previous_round round : N) : bytes :=
  previous_sig ++ [default Byte.x00 (Byte.of_N round)].
Definition Sign (sh : beacon.Share) (msg : bytes) : bytes := msg.
Definition VerifyPartial (pub : list bytes) (i : N) (msg sig : bytes) : bool :=
  bool_decide (sig = msg).
Definition Recover (pub : list bytes) (msg : bytes) (partials : list (N * bytes))
    (thr : nat) : option bytes :=
  if bool_decide (thr ≤ length partials) then Some msg else None.
Definition VerifyRecovered (pub : list bytes) (msg sig : bytes) : bool :=
  bool_decide (sig = msg).

(** The partial of node 1 for a round, on top of a head. *)
Definition partial (r : N) (prev : beacon.Beacon) : beacon.BeaconPacket :=
  {| beacon.pk_round := r; beacon.pk_previous_round := beacon.Round prev;
     beacon.pk_previous_sig := beacon.Signature prev; beacon.pk_index := 1;
     beacon.pk_partial_sig :=
       Some (Message (beacon.Signature prev) (beacon.Round prev) r) |}.

Definition beacon1 : beacon.Beacon :=
  {| beacon.Round := 1; beacon.PreviousRound := 0;
     beacon.PreviousSig := [Byte.x2a];
     beacon.Signature := [Byte.x2a; Byte.x01] |}.

Definition beacon2 : beacon.Beacon :=
  {| beacon.Round := 2; beacon.PreviousRound := 1;
     beacon.PreviousSig := [Byte.x2a; Byte.x01];
     beacon.Signature := [Byte.x2a; Byte.x01; Byte.x02] |}.

(** Two rounds of the engine: start, genesis, the partial of node 1, the next
    period, the partial of node 1. *)
Definition two_rounds : list beacon.Input :=
  [beacon.Start; beacon.Clock 2;
   beacon.Inbound (partial 1 (beacon.genesis_beacon group));
   beacon.Clock 4; beacon.Inbound (partial 2 beacon1)].

(** A node that serves the two beacons. *)
Definition serving_node : core.Drand :=
  {| core.addr := "127.0.0.1:4000"; core.dkgDone := true; core.dkg := None;
     core.nextGroupHash := ""; core.nextFirstReceived := false;
     core.nextOldPresent := false; core.nextConf := 0;
     core.beacon :=
       Some (beacon.NewHandler group share
               (<[2%N := beacon2]> (<[1%N := beacon1]> ∅)));
     core.callbacks := ∅ |}.

(** A subscriber whose stream is broken: every send fails. *)
Definition subscriber : core.Stream :=
  {| core.stream_peer := "10.0.0.9:5000"; core.stream_serial := 0 |}.

Definition broken : core.Streams :=
  {| core.send := λ _ _ _, Some "transport is closing";
     core.attempts := []; core.done := [] |}.

Definition subscribed : core.Drand :=
  core.PublicRandStream subscriber serving_node.

(** A disk that holds at most one key pair per folder, here none or one for
    every folder alike. *)
Definition LoadKeyPair (folder : string) (fs : option cli.Pair)
    : cli.Pair + error :=
  match fs with
  | Some kp => inl kp
  | None => inr "open: no such file or directory"
  end.

Definition SaveKeyPair (folder : string) (kp : cli.Pair)
    (fs : option cli.Pair) : option cli.Pair * option error :=
  (Some kp, None).

Definition NewKeyPair (tls : bool) (addr : string) : cli.Pair :=
  {| cli.Pair_Key := [Byte.x11];
     cli.Public := {| cli.Key := [Byte.x22]; cli.Addr := addr; cli.TLS := tls |} |}.

Definition old_pair : cli.Pair := NewKeyPair true "drand.example.org:443".

Definition keygen_context : cli.Context :=
  {| cli.Args := ["10.0.0.1"]; cli.verbose := false; cli.listen := "";
     cli.control := ""; cli.folder := "/home/drand/.drand";
     cli.tls_disable := false; cli.tls_cert := None; cli.tls_key := None;
     cli.certs_dir := None |}.

(** A resharing over the rationals: the old key is 5 + 3X (threshold 2), held
    by the indices 0, 1, 2 at the points 1, 2, 3; each deals a polynomial of
    the new threshold 3 whose constant term is its share. *)
#[global] Instance Qc_eq_dec' : EqDecision Qc := Qc_eq_dec.

Definition scalar (z : Z) : Qc := Q2Qc (inject_Z z).

Definition point (i : N) : Qc := scalar (Z.of_N i + 1).

Definition old_group : dkg.Group :=
  {| dkg.Threshold := 2;
     dkg.PublicKey := {| dkg.Coefficients := [scalar 5; scalar 3] |} |}.

Definition deals : list dkg.Deal :=
  [dkg.mkDeal 0 [scalar 8; scalar 1; scalar 1];
   dkg.mkDeal 1 [scalar 11; scalar 2; scalar 0];
   dkg.mkDeal 2 [scalar 14; scalar 0; scalar 1]].

(** A world in which no dial succeeds. *)
Definition unreachable : net.World :=
  {| net.clock := λ _, 1000%Z; net.reads := 0;
     net.dialer := λ _ _, Some "dial tcp: no route to host";
     net.server := λ _ _ _ req, inl req;
     net.binder := λ _ _ _, None;
     net.trace := [] |}.

(** A second peer, reached over TLS. *)
Definition other_peer : net.Peer :=
  {| net.Address := "10.0.0.2:8080"; net.IsTLS := true |}.

(** Three calls, to two peers. *)
Definition calls : list (net.Method * net.Peer * bytes) :=
  [(net.MPublicRand, peer, request); (net.MGroup, peer, []);
   (net.MDistKey, other_peer, request)].

(** The key file of a node holds the identity of the node at the address the
    file is named after; the group file holds [cli_group]. *)
Definition LoadIdentity (str : string) (fs : unit) : cli.Identity + error :=
  inl {| cli.Key := [Byte.x33]; cli.Addr := str; cli.TLS := true |}.

Definition NewGroup (nodes : list cli.Identity) (threshold genesis : Z)
    : cli.Group :=
  {| cli.Nodes := nodes; cli.Threshold := threshold; cli.Period := 0;
     cli.GenesisTime := genesis; cli.GenesisSeed := [];
     cli.TransitionTime := 0 |}.

Definition cli_group : cli.Group :=
  {| cli.Nodes := [ {| cli.Key := [Byte.x33]; cli.Addr := "10.0.0.1:8080";
                       cli.TLS := false |};
                    {| cli.Key := [Byte.x34]; cli.Addr := "10.0.0.2:8080";
                       cli.TLS := false |} ];
     cli.Threshold := 2; cli.Period := 30000000000;
     cli.GenesisTime := 1590000000; cli.GenesisSeed := [Byte.x07];
     cli.TransitionTime := 0 |}.

Definition group_context : cli.Context :=
  {| cli.Args := ["a.public"; "b.public"; "c.public"]; cli.verbose := false;
     cli.listen := ""; cli.control := ""; cli.folder := "/home/drand/.drand";
     cli.tls_disable := false; cli.tls_cert := None; cli.tls_key := None;
     cli.certs_dir := None |}.

(** [drand group --from group.toml --start-in 60s --out new.toml]: no
    [--transition]. *)
Definition reshare_flags : cli.GroupFlags :=
  {| cli.flag_from := Some "group.toml"; cli.flag_threshold := None;
     cli.flag_period := None; cli.flag_genesis := None;
     cli.flag_start_in := Some "60s"; cli.flag_transition := None;
     cli.flag_out := Some "new.toml" |}.

(** [drand group --genesis 1600000000 --threshold 2 --out group.toml]. *)
Definition group_flags : cli.GroupFlags :=
  {| cli.flag_from := None; cli.flag_threshold := Some 2%Z;
     cli.flag_period := None; cli.flag_genesis := Some 1600000000%Z;
     cli.flag_start_in := None; cli.flag_transition := None;
     cli.flag_out := Some "group.toml" |}.

(** The clock reads 1599999000 s whenever it is asked; a duration parses to
    one minute. *)
Definition now (k : nat) : Z := 1599999000000000000%Z.

Definition ParseDuration (str : string) : Z + error := inl 60000000000%Z.

(** [drand check-group group.toml]. *)
Definition check_context : cli.Context :=
  {| cli.Args := ["group.toml"]; cli.verbose := false;
     cli.listen := ""; cli.control := ""; cli.folder := "/home/drand/.drand";
     cli.tls_disable := true; cli.tls_cert := None; cli.tls_key := None;
     cli.certs_dir := None |}.

(** The two runs of [drand group]: saving always works, the default threshold
    is taken as half the nodes plus one and the default period as a minute. *)
Definition SaveGroup (path : string) (g : cli.Group) (fs : unit)
    : unit * option error := (fs, None).

Definition DefaultThreshold (n : nat) : Z := (Z.of_nat n / 2 + 1)%Z.

Definition group_run : cli.Exit * unit * list cli.Output :=
  cli.groupCmd unit LoadIdentity (λ _ _, inl cli_group) SaveGroup NewGroup
    DefaultThreshold cli.GenesisSeed (λ _, inl "") 60000000000%Z
    ParseDuration (λ _, "") now group_context group_flags tt.

Definition reshare_run : cli.Exit * unit * list cli.Output :=
  cli.groupCmd unit LoadIdentity (λ _ _, inl cli_group) SaveGroup NewGroup
    DefaultThreshold cli.GenesisSeed (λ _, inl "") 60000000000%Z
    ParseDuration (λ _, "") now group_context reshare_flags tt.

(** Nodes of the demo, and an orchestrator of three nodes to which two new
    ones were added. *)
Definition NewNode (idx : Z) (basePath : string) : demo.Node :=
  {| demo.i := idx; demo.addr := "127.0.0.1:" +:+ pretty (8000 + idx)%Z;
     demo.base := basePath +:+ "/node-" +:+ pretty idx;
     demo.reshared := false |}.

Definition path_Join (a b : string) : string := a +:+ "/" +:+ b.

Definition orchestrator : demo.Orchestrator :=
  {| demo.n := 3; demo.thr := 2; demo.period := "10s";
     demo.periodD := 10000000000; demo.basePath := "/tmp/drand-full";
     demo.groupPath := "/tmp/drand-full/group.toml";
     demo.newGroupPath := ""; demo.certFolder := "/tmp/drand-full/certs";
     demo.nodes := [NewNode 1 "/tmp/drand-full"; NewNode 2 "/tmp/drand-full";
                    NewNode 3 "/tmp/drand-full"];
     demo.paths := ["/tmp/drand-full/public-1.toml";
                    "/tmp/drand-full/public-2.toml";
                    "/tmp/drand-full/public-3.toml"];
     demo.newNodes := [demo.set_reshared true (NewNode 4 "/tmp/drand-full");
                       demo.set_reshared true (NewNode 5 "/tmp/drand-full")];
     demo.newPaths := ["/tmp/drand-full/public-4.toml";
                       "/tmp/drand-full/public-5.toml"];
     demo.transition := 0; demo.resharePaths := []; demo.reshareIndex := [];
     demo.reshareThr := 0; demo.reshareNodes := [] |}.

(** The groups the nodes hold after a DKG: all with the distributed key 7,
    or the third with another one. *)
Definition GetGroup (bad : Z) (node : demo.Node) : option (Z * Z) :=
  Some (demo.i node, if (demo.i node =? bad)%Z then 9%Z else 7%Z).

End sample.

(** ** Part II: lemmas and theorems *)

(** *** The network shim *)

Lemma Contains_sample :
  Contains "rpc error: code = Unavailable desc = connection error"
    "connection error" = true
  ∧ Contains "rpc error: code = DeadlineExceeded" "connection error" = false.
Proof. split; reflexivity. Qed.

Lemma defaultTimeout_is_one_minute (o : list net.DialOption) :
  net.timeout (net.NewGrpcClient o) = 60000000000%Z.
Proof. reflexivity. Qed.

Example DistKey_sample :
  ∃ g' w',
    net.DistKey sample.peer sample.request (net.NewGrpcClient []) sample.world
      = net.Ret (inl sample.request, g', w')
    ∧ net.invocations (net.trace w') = [(net.MDistKey, net.Background)].
Proof. eexists _, _. split; [vm_compute; reflexivity | vm_compute; reflexivity]. Qed.

Section shim.
Import net.

Lemma new_events_emit w e : new_events w (emit e w) = [e].
Proof.
  unfold new_events, emit; simpl.
  by rewrite drop_app_length.
Qed.

Lemma new_events_refl w : new_events w w = [].
Proof. unfold new_events. by rewrite drop_all. Qed.

Lemma conn_cached p g w c :
  conns g !! Address p = Some c →
  conn p g w = Ret ((c, None), g, w).
Proof.
  intros H. unfold conn, mbind, M_bind, get_client. by rewrite H.
Qed.

Lemma conn_fresh p g w :
  conns g !! Address p = None →
  conn p g w =
    let w' := emit (EvDial (Address p) (dial_options g p)) w in
    match dialer w (length (trace w)) (Address p) with
    | None =>
        let cc := mkClientConn (Address p) (length (trace w)) in
        Ret ((Some cc, None),
             {| conns := <[Address p := Some cc]> (conns g); opts := opts g;
                timeout := timeout g; manager := manager g |}, w')
    | Some e =>
        Ret ((None, Some e),
             {| conns := <[Address p := None]> (conns g); opts := opts g;
                timeout := timeout g; manager := manager g |}, w')
    end.
Proof.
  intros H. unfold conn, mbind, M_bind, get_client, dial_options. rewrite H.
  unfold grpc_Dial, dial, set_conns, mret, M_ret.
  destruct (IsTLS p); simpl; destruct (dialer w (length (trace w)) (Address p));
    reflexivity.
Qed.

(** The context the shim builds from [context.Background()]. *)
Lemma getTimeoutContext_Background g w :
  getTimeoutContext Background g w =
    Ret ({| Deadline := Some (clock w (reads w) + timeout g)%Z |}, g,
         {| clock := clock w; reads := S (reads w); dialer := dialer w;
            server := server w; binder := binder w; trace := trace w |}).
Proof. reflexivity. Qed.

Lemma with_deadline_cached m p req g w cc :
  conns g !! Address p = Some (Some cc) →
  with_deadline m p req g w =
    Ret (server w (length (trace w)) m (cc_target cc) req, g,
         {| clock := clock w; reads := S (reads w); dialer := dialer w;
            server := server w; binder := binder w;
            trace := trace w ++
              [EvInvoke m cc
                 {| Deadline := Some (clock w (reads w) + timeout g)%Z |} req] |}).
Proof.
  intros H. unfold with_deadline, mbind, M_bind at 1.
  rewrite (conn_cached _ _ _ _ H). reflexivity.
Qed.

Lemma with_deadline_nil m p req g w :
  conns g !! Address p = Some None →
  with_deadline m p req g w = Panic.
Proof.
  intros H. unfold with_deadline, mbind, M_bind at 1.
  rewrite (conn_cached _ _ _ _ H). reflexivity.
Qed.

Lemma with_deadline_fresh m p req g w :
  conns g !! Address p = None →
  with_deadline m p req g w =
    let dialled := trace w ++ [EvDial (Address p) (dial_options g p)] in
    match dialer w (length (trace w)) (Address p) with
    | None =>
        let cc := mkClientConn (Address p) (length (trace w)) in
        Ret (server w (length dialled) m (Address p) req,
             {| conns := <[Address p := Some cc]> (conns g); opts := opts g;
                timeout := timeout g; manager := manager g |},
             {| clock := clock w; reads := S (reads w); dialer := dialer w;
                server := server w; binder := binder w;
                trace := dialled ++
                  [EvInvoke m cc
                     {| Deadline := Some (clock w (reads w) + timeout g)%Z |}
                     req] |})
    | Some e =>
        Ret (inr e,
             {| conns := <[Address p := None]> (conns g); opts := opts g;
                timeout := timeout g; manager := manager g |},
             {| clock := clock w; reads := reads w; dialer := dialer w;
                server := server w; binder := binder w; trace := dialled |})
    end.
Proof.
  intros H. unfold with_deadline, mbind, M_bind at 1.
  rewrite (conn_fresh _ _ _ H). simpl.
  destruct (dialer w (length (trace w)) (Address p)); reflexivity.
Qed.

Lemma DistKey_cached p req g w cc :
  conns g !! Address p = Some (Some cc) →
  DistKey p req g w =
    Ret (server w (length (trace w)) MDistKey (cc_target cc) req, g,
         emit (EvInvoke MDistKey cc Background req) w).
Proof.
  intros H. unfold DistKey, mbind, M_bind at 1.
  rewrite (conn_cached _ _ _ _ H). reflexivity.
Qed.

Lemma call_with_deadline m :
  m ≠ MDistKey → m ≠ MNewBeacon → call m = with_deadline m.
Proof. destruct m; intros; congruence || reflexivity. Qed.

Lemma NewBeacon_unfold p req g w :
  NewBeacon p req g w =
    match with_deadline MNewBeacon p req g w with
    | Ret (inr e, g1, w1) =>
        if Contains e "connection error" then
          with_deadline MNewBeacon p req
            {| conns := delete (Address p) (conns g1); opts := opts g1;
               timeout := timeout g1; manager := manager g1 |} w1
        else Ret (inr e, g1, w1)
    | Ret (inl r, g1, w1) => Ret (inl r, g1, w1)
    | Panic => Panic
    end.
Proof.
  unfold NewBeacon, NewBeacon_do, mbind, M_bind at 1.
  change (M_bind _ _ (λ '(c, err), match err with
            | Some e => mret (inr e)
            | None => M_bind _ _ (λ ctx, invoke MNewBeacon c ctx req)
                        (getTimeoutContext Background)
            end) (conn p) g w)
    with (with_deadline MNewBeacon p req g w).
  destruct (with_deadline MNewBeacon p req g w) as [[[[r|e] g1] w1]|];
    try reflexivity.
  destruct (Contains e "connection error"); reflexivity.
Qed.

Lemma invocations_app tr1 tr2 :
  invocations (tr1 ++ tr2) = invocations tr1 ++ invocations tr2.
Proof. unfold invocations. apply omap_app. Qed.

Lemma dials_app tr1 tr2 : dials (tr1 ++ tr2) = dials tr1 ++ dials tr2.
Proof. unfold dials. apply omap_app. Qed.

Lemma new_events_app w tr l :
  new_events w {| clock := clock w; reads := tr; dialer := dialer w;
                  server := server w; binder := binder w;
                  trace := trace w ++ l |} = l.
Proof. unfold new_events; simpl. by rewrite drop_app_length. Qed.

(** One attempt: the world only grows, the timeout is kept, and whatever is
    invoked is invoked under a deadline, the time read plus the timeout. *)
Lemma with_deadline_events m p req g w r g' w' :
  with_deadline m p req g w = Ret (r, g', w') →
  clock w' = clock w ∧ dialer w' = dialer w ∧ server w' = server w
  ∧ reads w ≤ reads w' ∧ timeout g' = timeout g
  ∧ ∃ l, trace w' = trace w ++ l
      ∧ ∀ m' ctx, (m', ctx) ∈ invocations l →
          m' = m ∧ Deadline ctx = Some (clock w (reads w) + timeout g)%Z.
Proof.
  destruct (conns g !! Address p) as [[cc|]|] eqn:Hc.
  - rewrite (with_deadline_cached _ _ _ _ _ _ Hc). intros [= <- <- <-]; simpl.
    repeat split; try lia. eexists; split; [reflexivity|].
    intros m' ctx Hin. apply list_elem_of_singleton in Hin.
    by injection Hin as -> ->.
  - by rewrite (with_deadline_nil _ _ _ _ _ Hc).
  - rewrite (with_deadline_fresh _ _ _ _ _ Hc); simpl.
    destruct (dialer w (length (trace w)) (Address p)).
    + intros [= <- <- <-]; simpl. repeat split; try lia.
      eexists; split; [reflexivity|]. intros m' ctx Hin. simpl in Hin.
      by apply elem_of_nil in Hin.
    + intros [= <- <- <-]; simpl. repeat split; try lia.
      eexists; split; [by rewrite <- app_assoc|]. intros m' ctx Hin.
      simpl in Hin. apply list_elem_of_singleton in Hin.
      by injection Hin as -> ->.
Qed.

(** Every unary method but [DistKey] issues its invocations under a deadline:
    a time read during the call plus the timeout of the client. *)
Lemma siblings_carry_deadline m p req g w r g' w' m' ctx :
  m ≠ MDistKey →
  call m p req g w = Ret (r, g', w') →
  (m', ctx) ∈ invocations (new_events w w') →
  ∃ k, reads w ≤ k ∧ Deadline ctx = Some (clock w k + timeout g)%Z.
Proof.
  intros Hm Hcall Hin.
  destruct (decide (m = MNewBeacon)) as [->|Hn].
  - simpl in Hcall. rewrite NewBeacon_unfold in Hcall.
    destruct (with_deadline MNewBeacon p req g w) as [[[r1 g1] w1]|] eqn:H1;
      [|discriminate Hcall].
    destruct (with_deadline_events _ _ _ _ _ _ _ _ H1)
      as (Hck & _ & _ & Hrd & Hto & l1 & Htr1 & Hl1).
    assert (Hsame : (r, g', w') = (r1, g1, w1) →
              ∃ k, reads w ≤ k ∧ Deadline ctx = Some (clock w k + timeout g)%Z).
    { intros [= -> -> ->]. exists (reads w). split; [done|].
      unfold new_events in Hin. rewrite Htr1, drop_app_length in Hin.
      by apply Hl1 in Hin as [_ ?]. }
    destruct r1 as [b|e]; [by injection Hcall as <- <- <-; apply Hsame|].
    destruct (Contains e "connection error");
      [|by injection Hcall as <- <- <-; apply Hsame].
    destruct (with_deadline_events _ _ _ _ _ _ _ _ Hcall)
      as (_ & _ & _ & _ & _ & l2 & Htr2 & Hl2).
    simpl in Hl2. unfold new_events in Hin.
    rewrite Htr2, Htr1, <- app_assoc, drop_app_length, invocations_app in Hin.
    apply elem_of_app in Hin as [Hin|Hin].
    + exists (reads w). split; [done|]. by apply Hl1 in Hin as [_ ?].
    + exists (reads w1). split; [done|]. apply Hl2 in Hin as [_ ->].
      by rewrite Hck, Hto.
  - rewrite (call_with_deadline m Hm Hn) in Hcall.
    destruct (with_deadline_events _ _ _ _ _ _ _ _ Hcall)
      as (_ & _ & _ & _ & _ & l & Htr & Hl).
    unfold new_events in Hin. rewrite Htr, drop_app_length in Hin.
    exists (reads w). split; [done|]. by apply Hl in Hin as [_ ?].
Qed.

(** C5 (the code at the input where it departs from the claim): every unary
    call of the shim should carry a deadline, one minute by default, and the
    siblings of [DistKey] do; [DistKey] itself hands [context.Background()]
    to the stub, so its invocation carries no deadline, and the claim of the
    specification fails for it. *)
Theorem DistKey_carries_no_deadline :
  net.DistKey sample.peer sample.request sample.client sample.world
    = Ret (inl sample.request, sample.client,
           emit (EvInvoke MDistKey sample.connection Background sample.request)
             sample.world)
  ∧ Deadline Background = None
  ∧ ¬ carries_deadline MDistKey
  ∧ ∀ m, m ≠ MDistKey → carries_deadline m.
Proof.
  assert (Hrun : net.DistKey sample.peer sample.request sample.client sample.world
    = Ret (inl sample.request, sample.client,
           emit (EvInvoke MDistKey sample.connection Background sample.request)
             sample.world)).
  { by rewrite (DistKey_cached _ _ _ _ sample.connection). }
  split; [exact Hrun|]. split; [reflexivity|]. split.
  - intros Hall.
    destruct (Hall _ _ _ _ _ _ _ MDistKey Background Hrun) as [d Hd].
    + rewrite new_events_emit. simpl. apply list_elem_of_singleton. reflexivity.
    + discriminate Hd.
  - intros m Hm p req g w r g' w' m' ctx Hcall Hin.
    destruct (siblings_carry_deadline _ _ _ _ _ _ _ _ _ _ Hm Hcall Hin)
      as (k & _ & ->).
    by eexists.
Qed.

(** A unary method other than [NewBeacon], called over a cached connection,
    invokes the stub once and hands back what it gave, whatever the error:
    nothing is dialled and the cache is left as it was. *)
Lemma other_calls_never_redial m p req g w cc :
  m ≠ MNewBeacon →
  conns g !! Address p = Some (Some cc) →
  ∃ ctx,
    call m p req g w =
      Ret (server w (length (trace w)) m (cc_target cc) req, g,
           {| clock := clock w;
              reads := if decide (m = MDistKey) then reads w else S (reads w);
              dialer := dialer w; server := server w; binder := binder w;
              trace := trace w ++ [EvInvoke m cc ctx req] |}).
Proof.
  intros Hm Hc. destruct (decide (m = MDistKey)) as [->|Hd].
  - exists Background. simpl. by rewrite (DistKey_cached _ _ _ _ _ Hc).
  - rewrite (call_with_deadline m Hd Hm).
    rewrite (with_deadline_cached _ _ _ _ _ _ Hc). by eexists.
Qed.

(** [NewBeacon] does re-dial on a connection error. *)
Lemma NewBeacon_redials : redials MNewBeacon.
Proof.
  intros p req g w cc e Hc Hs He. simpl.
  rewrite NewBeacon_unfold, (with_deadline_cached _ _ _ _ _ _ Hc), Hs, He.
  rewrite with_deadline_fresh by (simpl; apply lookup_delete_eq). simpl.
  destruct (dialer w _ (Address p)); eexists _, _, _;
    (split; [reflexivity|]); unfold new_events; simpl;
    rewrite <- ?app_assoc, drop_app_length; simpl;
    apply list_elem_of_here.
Qed.

(** An explicit timeout replaces the default one. *)
Lemma explicit_timeout t o p g w :
  timeout (NewGrpcClientWithTimeout t o) = t
  ∧ ∃ g', SetTimeout p g w = Ret (tt, g', w) ∧ timeout g' = p
          ∧ conns g' = conns g.
Proof. split; [done|]. by eexists. Qed.

(** C6 (as stated, refuted): the re-dial on a "connection error" does not
    apply to every unary call of the shim.  [PublicRand], called over a cached
    connection whose invocation fails with such an error, returns the error;
    it dials nothing. *)
Lemma redial_not_for_every_unary_call : ¬ ∀ m, redials m.
Proof.
  intros Hall.
  destruct (Hall MPublicRand sample.peer sample.request sample.client
              sample.flaky sample.connection
              "rpc error: code = Unavailable desc = connection error")
    as (r & g' & w' & Hcall & Hin); try reflexivity.
  vm_compute in Hcall. injection Hcall as <- <- <-.
  vm_compute in Hin. by apply elem_of_nil in Hin.
Qed.

(** C6 (amended): when the first attempt of [NewBeacon] (a dial if no
    connection is cached, then the call) fails with an error whose description
    contains "connection error", the cached connection of the peer is dropped
    and the attempt is made once more: the peer is dialled again and, if that
    dial succeeds, the call is invoked exactly once more, under a deadline,
    and its outcome is returned whatever it is.  An error without that
    substring is returned as it is, and so is a reply; nothing is dialled
    then.  The other unary calls have no such retry: over a cached connection
    they invoke the stub once and return its outcome. *)
Theorem NewBeacon_redials_once p req g w e g1 w1 :
  NewBeacon_do p req g w = Ret (inr e, g1, w1) →
  (if Contains e "connection error" then
     ∃ r g2 w2,
       NewBeacon p req g w = Ret (r, g2, w2)
       ∧ dials (new_events w1 w2) = [Address p]
       ∧ match dialer w1 (length (trace w1)) (Address p) with
         | None =>
             ∃ cc ctx,
               conns g2 !! Address p = Some (Some cc)
               ∧ new_events w1 w2 =
                   [EvDial (Address p) (dial_options g1 p);
                    EvInvoke MNewBeacon cc ctx req]
               ∧ is_Some (Deadline ctx)
               ∧ r = server w1 (S (length (trace w1))) MNewBeacon (Address p) req
         | Some e' =>
             new_events w1 w2 = [EvDial (Address p) (dial_options g1 p)]
             ∧ r = inr e'
         end
   else NewBeacon p req g w = Ret (inr e, g1, w1))
  ∧ (∀ m cc, m ≠ MNewBeacon → conns g !! Address p = Some (Some cc) →
       ∃ r' w', call m p req g w = Ret (r', g, w')
         ∧ r' = server w (length (trace w)) m (cc_target cc) req
         ∧ dials (new_events w w') = []
         ∧ length (invocations (new_events w w')) = 1).
Proof.
  intros Hdo. split.
  - rewrite NewBeacon_unfold.
    change (NewBeacon_do p req g w) with (with_deadline MNewBeacon p req g w)
      in Hdo.
    rewrite Hdo. destruct (Contains e "connection error"); [|reflexivity].
    rewrite with_deadline_fresh by (simpl; apply lookup_delete_eq).
    simpl. destruct (dialer w1 (length (trace w1)) (Address p)) as [e'|].
    + eexists _, _, _. split; [reflexivity|].
      rewrite new_events_app. by repeat split.
    + eexists _, _, _. split; [reflexivity|].
      rewrite <- app_assoc, new_events_app. split; [reflexivity|].
      eexists _, _. simpl. rewrite lookup_insert_eq.
      repeat split; try reflexivity.
      * by eexists.
      * by rewrite length_app, Nat.add_1_r.
  - intros m cc Hm Hc.
    destruct (other_calls_never_redial m p req g w cc Hm Hc) as [ctx ->].
    eexists _, _. split; [reflexivity|]. split; [reflexivity|].
    by rewrite new_events_app.
Qed.

(** The amended C6 at work: the server is gone at the first invocation; the
    shim drops the connection, dials again and the second invocation is
    answered. *)
Lemma NewBeacon_redials_once_witness :
  NewBeacon_do sample.peer sample.request sample.client sample.flaky
    = Ret (inr "rpc error: code = Unavailable desc = connection error",
           sample.client,
           {| clock := clock sample.flaky; reads := 1;
              dialer := dialer sample.flaky; server := server sample.flaky;
              binder := binder sample.flaky;
              trace := [EvInvoke MNewBeacon sample.connection
                          {| Deadline := Some 60000001000%Z |} sample.request] |})
  ∧ ∃ g2 w2,
      NewBeacon sample.peer sample.request sample.client sample.flaky
        = Ret (inl sample.request, g2, w2)
      ∧ length (invocations (trace w2)) = 2.
Proof.
  assert (Hdo : NewBeacon_do sample.peer sample.request sample.client sample.flaky
    = Ret (inr "rpc error: code = Unavailable desc = connection error",
           sample.client,
           {| clock := clock sample.flaky; reads := 1;
              dialer := dialer sample.flaky; server := server sample.flaky;
              binder := binder sample.flaky;
              trace := [EvInvoke MNewBeacon sample.connection
                          {| Deadline := Some 60000001000%Z |} sample.request] |})).
  { change (NewBeacon_do ?p ?r) with (with_deadline MNewBeacon p r).
    by rewrite (with_deadline_cached _ _ _ _ _ sample.connection). }
  split; [exact Hdo|].
  destruct (NewBeacon_redials_once _ _ _ _ _ _ _ Hdo) as [Hretry _].
  simpl in Hretry.
  destruct Hretry as (r & g2 & w2 & Hcall & _ & cc & ctx & _ & Hev & _ & Hr).
  exists g2, w2. rewrite Hcall, Hr. split; [reflexivity|].
  unfold new_events in Hev. simpl in Hev.
  assert (Htr : trace w2 = take 1 (trace w2) ++ drop 1 (trace w2))
    by (symmetry; apply take_drop).
  rewrite Htr, Hev, invocations_app, length_app.
  vm_compute in Hcall. injection Hcall as _ _ <-. reflexivity.
Defined.

Lemma listens_app tr1 tr2 : listens (tr1 ++ tr2) = listens tr1 ++ listens tr2.
Proof. unfold listens. apply omap_app. Qed.

Lemma prefix_append (s t : string) : String.prefix s (s +:+ t) = true.
Proof.
  induction s as [|c s IH]; simpl; [by destruct t|].
  by destruct (Ascii.ascii_dec c c).
Qed.

(** C9: for every control port [p] the control listener listens on
    "localhost:p" and on nothing else, the listener it returns is bound to
    that address, and the control client dials that same address; the host of
    the address is "localhost" whatever the port. *)
Theorem control_endpoint_is_loopback {S : Type} (s : S) (port : string)
    (w : World) :
  controlListenAddr port = "localhost:" +:+ port
  ∧ String.prefix "localhost:" (controlListenAddr port) = true
  ∧ listens (new_events w (NewTCPGrpcControlListener s port w).2)
      = [("tcp", "localhost:" +:+ port)]
  ∧ (∀ cl, (NewTCPGrpcControlListener s port w).1 = Returns cl →
       lis_network (lis cl) = "tcp"
       ∧ lis_address (lis cl) = "localhost:" +:+ port)
  ∧ dials (new_events w (NewControlClient port w).2) = ["localhost:" +:+ port]
  ∧ (∀ c, (NewControlClient port w).1 = Returns c →
       cc_target (ControlClient_conn c) = "localhost:" +:+ port).
Proof.
  split; [reflexivity|]. split; [apply (prefix_append "localhost:")|].
  unfold NewTCPGrpcControlListener, NewControlClient, net_Listen, dial.
  change (controlListenAddr port) with ("localhost:" +:+ port).
  destruct (binder w (length (trace w)) "tcp" ("localhost:" +:+ port));
    destruct (dialer w (length (trace w)) ("localhost:" +:+ port)); simpl;
    rewrite !new_events_emit; repeat split; try reflexivity;
    intros; by simplify_eq.
Qed.

End shim.

(** *** The chain store *)
Section chain_store.
Import beacon.

Lemma foldr_max_upper (l : list N) (k : N) :
  (∀ x, x ∈ l → (x ≤ k)%N) → (foldr N.max 0%N l ≤ k)%N.
Proof.
  induction l as [|a l IH]; simpl; intros H; [lia|].
  apply N.max_lub; [apply H; left|apply IH; intros; apply H; by right].
Qed.

Lemma foldr_max_ge (l : list N) (x : N) :
  x ∈ l → (x ≤ foldr N.max 0%N l)%N.
Proof.
  induction l as [|a l IH]; simpl; intros H; [by apply elem_of_nil in H|].
  apply elem_of_cons in H as [->|H]; [lia|]. specialize (IH H). lia.
Qed.

(** [Last] is the beacon stored at the greatest round. *)
Lemma Last_greatest (s : gmap N Beacon) (k : N) (b : Beacon) :
  s !! k = Some b →
  (∀ k', is_Some (s !! k') → (k' ≤ k)%N) →
  Last s = inl b.
Proof.
  intros Hk Hmax. unfold Last, max_round.
  assert (foldr N.max 0%N (elements (dom s)) = k) as ->; [|by rewrite Hk].
  apply N.le_antisymm.
  - apply foldr_max_upper. intros x Hx. apply Hmax.
    by apply elem_of_dom, elem_of_elements.
  - apply foldr_max_ge, elem_of_elements, elem_of_dom. by eexists.
Qed.

Lemma Last_empty : Last (∅ : gmap N Beacon) = inr Empty.
Proof. reflexivity. Qed.

(** What [Last] returns is stored, and no stored round is greater. *)
Lemma Last_stored (s : gmap N Beacon) (b : Beacon) :
  Last s = inl b →
  ∃ k, s !! k = Some b ∧ ∀ k', is_Some (s !! k') → (k' ≤ k)%N.
Proof.
  unfold Last. destruct (s !! max_round s) as [b'|] eqn:E; [|done].
  intros [= ->]. exists (max_round s). split; [done|].
  intros k' Hk'. apply foldr_max_ge, elem_of_elements, elem_of_dom, Hk'.
Qed.

Lemma Get_stored (s : gmap N Beacon) (r : N) (b : Beacon) :
  Get r s = inl b ↔ s !! r = Some b.
Proof. unfold Get. destruct (s !! r); naive_solver. Qed.

End chain_store.

(** *** The public service of the node *)
Section public_service.
Import core.
Variable Randomness : beacon.Beacon → bytes.

Lemma String_eqb_true (a b : string) : String.eqb a b = true ↔ a = b.
Proof. apply String.eqb_eq. Qed.

Lemma String_eqb_false (a b : string) : String.eqb a b = false ↔ a ≠ b.
Proof. apply String.eqb_neq. Qed.

(** Both guards of [Reshare] return an error and leave the node as it was:
    nothing is handed to the DKG and nothing is started. *)
Lemma Reshare_rejects d in_ :
  nextGroupHash d = "" ∨ GroupHash in_ ≠ nextGroupHash d →
  ∃ e, Reshare d in_ = (inr e, d, []).
Proof.
  intros H. unfold Reshare.
  destruct (String.eqb (nextGroupHash d) "") eqn:E1; [by eexists|].
  apply String_eqb_false in E1.
  destruct (String.eqb (GroupHash in_) (nextGroupHash d)) eqn:E2; simpl;
    [|by eexists].
  apply String_eqb_true in E2. by destruct H.
Qed.

(** C8 (as stated, refuted): a packet for the expected group with no DKG
    payload is not always accepted.  On a node whose DKG is not set up yet,
    [Reshare] answers it with the error "drand: no dkg setup yet". *)
Lemma Reshare_without_payload_refused : ¬ accepts_without_payload.
Proof.
  intros Hall.
  destruct (Hall sample.waiting_node sample.kick) as [Hreply _];
    [done|reflexivity|reflexivity|].
  vm_compute in Hreply. discriminate Hreply.
Qed.

(** C8 (amended): if [InitReshare] has not been called (the expected hash is
    empty) or the hash of the packet differs from the expected one, [Reshare]
    returns an error, the node is unchanged and nothing is processed by the
    DKG.  A packet for the expected group whose DKG payload is absent is
    accepted without any DKG processing when a DKG is set up on the node; when
    none is set up it is answered with the error "drand: no dkg setup yet",
    again without any processing.  A payload that is present is handed to the
    DKG once. *)
Theorem Reshare_guards d in_ :
  (nextGroupHash d = "" ∨ GroupHash in_ ≠ nextGroupHash d →
     ∃ e, (Reshare d in_).1.1 = inr e ∧ (Reshare d in_).1.2 = d
          ∧ (Reshare d in_).2 = [])
  ∧ (nextGroupHash d ≠ "" → GroupHash in_ = nextGroupHash d →
       match dkg d, Dkg in_ with
       | Some h, None =>
           (Reshare d in_).1.1 = inl tt ∧ dkg (Reshare d in_).1.2 = Some h
       | Some h, Some pkt =>
           (Reshare d in_).1.1 = inl tt
           ∧ dkg (Reshare d in_).1.2
               = Some {| processed := processed h ++ [pkt] |}
       | None, _ =>
           (Reshare d in_).1.1 = inr "drand: no dkg setup yet"
           ∧ dkg (Reshare d in_).1.2 = None
       end).
Proof.
  split.
  - intros H. destruct (Reshare_rejects d in_ H) as [e ->]. by exists e.
  - intros H1 H2. unfold Reshare.
    apply String_eqb_false in H1. apply String_eqb_true in H2.
    rewrite H1, H2. simpl.
    destruct (negb (nextFirstReceived d) && nextOldPresent d); simpl;
      destruct (dkg d) as [h|] eqn:Hd; destruct (Dkg in_); simpl; done.
Qed.

(** The amended C8 on the leader's first packet: refused while no DKG is set
    up, accepted without processing once one is. *)
Lemma Reshare_guards_witness :
  (Reshare sample.waiting_node sample.kick).1.1 = inr "drand: no dkg setup yet"
  ∧ (Reshare sample.ready_node sample.kick).1.1 = inl tt
  ∧ dkg (Reshare sample.ready_node sample.kick).1.2
      = Some {| processed := [] |}.
Proof.
  split.
  - exact (proj1 (proj2 (Reshare_guards sample.waiting_node sample.kick)
                    ltac:(discriminate) eq_refl)).
  - exact (proj2 (Reshare_guards sample.ready_node sample.kick)
             ltac:(discriminate) eq_refl).
Defined.

(** C2: a [PublicRand] request on a node whose beacon engine is not started
    is answered with an error and no beacon.  On a started node a request for
    round 0 is answered with the last stored beacon, the one of the greatest
    round, and a request for another round with the beacon stored at exactly
    that round; when no beacon is stored at the requested round, or none at
    all for round 0, the answer is an error. *)
Theorem PublicRand_cases (d : Drand) (in_ : PublicRandRequest) :
  (beacon d = None →
     PublicRand Randomness d in_ = inr "drand: beacon generation not started yet")
  ∧ (∀ h, beacon d = Some h →
       (GetRound in_ = 0%N →
          (∀ k b, beacon.Store h !! k = Some b →
             (∀ k', is_Some (beacon.Store h !! k') → (k' ≤ k)%N) →
             PublicRand Randomness d in_ = inl (response Randomness b))
          ∧ (beacon.Store h = ∅ →
               PublicRand Randomness d in_
                 = inr "can't retrieve beacon: no beacon saved"))
       ∧ (GetRound in_ ≠ 0%N →
            (∀ b, beacon.Store h !! GetRound in_ = Some b →
               PublicRand Randomness d in_ = inl (response Randomness b)
               ∧ resp_Signature (response Randomness b) = beacon.Signature b)
            ∧ (beacon.Store h !! GetRound in_ = None →
                 PublicRand Randomness d in_
                   = inr "can't retrieve beacon: beacon not found"))).
Proof.
  unfold PublicRand. split; [by intros ->|].
  intros h ->. split.
  - intros ->. simpl. split.
    + intros k b Hk Hmax. by rewrite (Last_greatest _ _ _ Hk Hmax).
    + by intros ->.
  - intros Hr. apply N.eqb_neq in Hr. rewrite Hr. unfold beacon.Get. split.
    + by intros b ->.
    + by intros ->.
Qed.

(** One callback: the registry only shrinks, one send is logged, made by the
    callback itself with the response of the beacon, and a callback whose send
    failed is no longer registered under the address it captured. *)
Lemma callback_effect cb b reg w :
  (callback Randomness cb b reg w).1 ⊆ reg
  ∧ ∃ err,
      attempts (callback Randomness cb b reg w).2
        = attempts w ++ [(cb, response Randomness b, err)]
      ∧ (is_Some err → (callback Randomness cb b reg w).1 !! cb_addr cb = None).
Proof.
  unfold callback.
  destruct (send w (length (attempts w)) (cb_stream cb) (response Randomness b))
    as [e|] eqn:E; simpl.
  - split; [apply delete_subseteq|]. eexists; split; [done|].
    intros _. apply lookup_delete_eq.
  - split; [done|]. eexists; split; [done|]. by intros [? ?].
Qed.

(** The loop of [notify], from any point of the iteration on. *)
Lemma notify_loop b (l : list (string * Callback)) reg w :
  let st := foldl (λ st kv,
                     match st.1 !! kv.1 with
                     | Some cb => callback Randomness cb b st.1 st.2
                     | None => st
                     end) (reg, w) l in
  st.1 ⊆ reg
  ∧ ∃ new,
      attempts st.2 = attempts w ++ new
      ∧ (∀ x, x ∈ new → ∃ id, reg !! id = Some x.1.1)
      ∧ (∀ cb resp e, (cb, resp, Some e) ∈ new → st.1 !! cb_addr cb = None).
Proof.
  revert reg w. induction l as [|[id cb0] l IH]; intros reg w; simpl.
  - split; [done|]. exists []. rewrite app_nil_r. split; [done|].
    split; intros; by apply elem_of_nil in H.
  - destruct (reg !! id) as [cb|] eqn:Hid; [|apply IH].
    destruct (callback_effect cb b reg w) as (Hsub & err & Hatt & Hfail).
    destruct (callback Randomness cb b reg w) as [reg1 w1]; simpl in *.
    destruct (IH reg1 w1) as (Hsub2 & new & Hatt2 & Hdom & Hgone).
    split; [by etrans|].
    exists ((cb, response Randomness b, err) :: new).
    split; [by rewrite Hatt2, Hatt, <- app_assoc|]. split.
    + intros x Hx. apply elem_of_cons in Hx as [->|Hx]; [by exists id|].
      destruct (Hdom x Hx) as [id' Hid']. exists id'.
      by eapply lookup_weaken.
    + intros cb' resp e Hx. apply elem_of_cons in Hx as [Heq|Hx].
      * injection Heq as -> _ <-.
        eapply lookup_weaken_None; [|exact Hsub2]. by apply Hfail.
      * by eapply Hgone.
Qed.

Lemma notify_effect b reg w :
  (notify Randomness b reg w).1 ⊆ reg
  ∧ ∃ new,
      attempts (notify Randomness b reg w).2 = attempts w ++ new
      ∧ (∀ x, x ∈ new → ∃ id, reg !! id = Some x.1.1)
      ∧ (∀ cb resp e, (cb, resp, Some e) ∈ new →
           (notify Randomness b reg w).1 !! cb_addr cb = None).
Proof. apply notify_loop. Qed.

Lemma since_app w w' new :
  attempts w' = attempts w ++ new → since w w' = new.
Proof. unfold since. intros ->. by rewrite drop_app_length. Qed.

Lemma registered_by_stream_subseteq (reg reg' : gmap string Callback) :
  reg' ⊆ reg → registered_by_stream reg → registered_by_stream reg'.
Proof.
  intros Hsub Hwf id cb Hid. apply Hwf. by eapply lookup_weaken.
Qed.

(** [PublicRandStream] keeps the registry keyed by the captured address. *)
Lemma PublicRandStream_registered stream d :
  registered_by_stream (callbacks d) →
  registered_by_stream (callbacks (PublicRandStream stream d)).
Proof.
  intros Hwf id cb. unfold PublicRandStream, AddCallback; simpl.
  destruct (decide (stream_peer stream = id)) as [<-|Hne].
  - rewrite lookup_insert_eq. by intros [= <-].
  - rewrite lookup_insert_ne by done. apply Hwf.
Qed.

(** Once an address is not registered, no later beacon is sent by a callback
    that captured it. *)
Lemma unregistered_gets_nothing bs : ∀ reg w a,
  registered_by_stream reg →
  reg !! a = None →
  (notify_all Randomness bs reg w).1 !! a = None
  ∧ ∃ new,
      attempts (notify_all Randomness bs reg w).2 = attempts w ++ new
      ∧ ∀ x, x ∈ new → cb_addr x.1.1 ≠ a.
Proof.
  induction bs as [|b bs IH]; intros reg w a Hwf Ha; simpl.
  - split; [done|]. exists []. rewrite app_nil_r. split; [done|].
    intros x Hx. by apply elem_of_nil in Hx.
  - destruct (notify_effect b reg w) as (Hsub & new & Hatt & Hdom & _).
    destruct (notify Randomness b reg w) as [reg1 w1]; simpl in *.
    destruct (IH reg1 w1 a) as (Hgone & new2 & Hatt2 & Hnot).
    { by eapply registered_by_stream_subseteq. }
    { by eapply lookup_weaken_None. }
    split; [done|]. exists (new ++ new2).
    split; [by rewrite Hatt2, Hatt, <- app_assoc|].
    intros x Hx. apply elem_of_app in Hx as [Hx|Hx]; [|by apply Hnot].
    destruct (Hdom x Hx) as [id Hid]. rewrite (Hwf _ _ Hid).
    intros ->. by rewrite Ha in Hid.
Qed.

(** C7: when the registry is notified of a new beacon and the send to a
    registered stream subscriber fails, the callback of that subscriber is no
    longer in the registry afterwards, and whatever beacons are stored later,
    none is sent to it. *)
Theorem failed_delivery_removes_subscriber b reg w cb resp e :
  registered_by_stream reg →
  (cb, resp, Some e) ∈ since w (notify Randomness b reg w).2 →
  (notify Randomness b reg w).1 !! cb_addr cb = None
  ∧ ∀ bs x,
      x ∈ since (notify Randomness b reg w).2
            (notify_all Randomness bs (notify Randomness b reg w).1
               (notify Randomness b reg w).2).2 →
      x.1.1 ≠ cb.
Proof.
  intros Hwf Hin.
  destruct (notify_effect b reg w) as (Hsub & new & Hatt & Hdom & Hgone).
  rewrite (since_app _ _ _ Hatt) in Hin.
  pose proof (Hgone _ _ _ Hin) as Hnone. split; [done|].
  intros bs x Hx.
  destruct (unregistered_gets_nothing bs (notify Randomness b reg w).1
              (notify Randomness b reg w).2 (cb_addr cb))
    as (_ & new2 & Hatt2 & Hnot).
  { by eapply registered_by_stream_subseteq. }
  { done. }
  rewrite (since_app _ _ _ Hatt2) in Hx.
  intros Heq. apply (Hnot x Hx). by rewrite Heq.
Qed.

End public_service.

(** C2 on a node that stores rounds 1 and 2: round 0 is answered with the
    beacon of round 2, round 1 with the beacon of round 1, round 7 with an
    error. *)
Lemma PublicRand_cases_witness :
  core.PublicRand beacon.Signature sample.serving_node
      {| core.GetRound := 0 |}
    = inl (core.response beacon.Signature sample.beacon2)
  ∧ core.PublicRand beacon.Signature sample.serving_node
      {| core.GetRound := 1 |}
    = inl (core.response beacon.Signature sample.beacon1)
  ∧ core.PublicRand beacon.Signature sample.serving_node
      {| core.GetRound := 7 |}
    = inr "can't retrieve beacon: beacon not found".
Proof.
  pose proof (PublicRand_cases beacon.Signature sample.serving_node) as H.
  split; [|split].
  - destruct (H {| core.GetRound := 0 |}) as [_ H0].
    destruct (H0 _ eq_refl) as [[Hlast _] _]; [reflexivity|].
    apply (Hlast 2%N); [reflexivity|].
    intros k' [b Hb]. simpl in Hb. unfold beacon.Store in Hb. simpl in Hb.
    destruct (decide (k' = 2%N)) as [->|]; [lia|].
    rewrite lookup_insert_ne in Hb by done.
    destruct (decide (k' = 1%N)) as [->|]; [lia|].
    by rewrite lookup_insert_ne in Hb.
  - destruct (H {| core.GetRound := 1 |}) as [_ H1].
    destruct (H1 _ eq_refl) as [_ [Hget _]]; [done|].
    by apply Hget.
  - destruct (H {| core.GetRound := 7 |}) as [_ H7].
    destruct (H7 _ eq_refl) as [_ [_ Hnone]]; [done|].
    by apply Hnone.
Defined.

(** On a broken stream [PublicRandStream] returns the error of the send. *)
Example PublicRandStream_returns_error :
  core.PublicRandStream_result sample.subscriber
    (core.notify beacon.Signature sample.beacon1
       (core.callbacks sample.subscribed) sample.broken).2
  = Some "transport is closing".
Proof. vm_compute. reflexivity. Qed.

(** C7 on a subscriber whose stream is broken: the first beacon is sent to it
    and fails, its callback is gone, the second beacon is not sent to it. *)
Lemma failed_delivery_removes_subscriber_witness :
  (core.notify beacon.Signature sample.beacon1
     (core.callbacks sample.subscribed) sample.broken).1
    !! "10.0.0.9:5000" = None
  ∧ ∀ x,
      x ∈ core.since
            (core.notify beacon.Signature sample.beacon1
               (core.callbacks sample.subscribed) sample.broken).2
            (core.notify_all beacon.Signature [sample.beacon2]
               (core.notify beacon.Signature sample.beacon1
                  (core.callbacks sample.subscribed) sample.broken).1
               (core.notify beacon.Signature sample.beacon1
                  (core.callbacks sample.subscribed) sample.broken).2).2 →
      x.1.1 ≠ core.mkCallback "10.0.0.9:5000" sample.subscriber.
Proof.
  destruct (failed_delivery_removes_subscriber beacon.Signature
              sample.beacon1 (core.callbacks sample.subscribed) sample.broken
              (core.mkCallback "10.0.0.9:5000" sample.subscriber)
              (core.response beacon.Signature sample.beacon1)
              "transport is closing") as [Hgone Hlater].
  - apply PublicRandStream_registered. intros id cb Hid. done.
  - vm_compute. apply list_elem_of_singleton. reflexivity.
  - split; [exact Hgone|]. intros x. apply (Hlater [sample.beacon2] x).
Defined.

(** *** The command line: [generate-keypair] *)
Section keygen.
Import cli.

Variable FS : Type.
Variable LoadKeyPair : string → FS → Pair + error.
Variable SaveKeyPair : string → Pair → FS → FS * option error.
Variable NewKeyPair : string → Pair.
Variable NewTLSKeyPair : string → Pair.
Variable DefaultConfigFolder : string.
Variable Files : string → list string + error.
Variable Join : string → string → string.
Variable Abs : string → string + error.
Variable EncodeTOML : Identity → string + error.

Local Abbreviation keygen :=
  (keygenCmd FS LoadKeyPair SaveKeyPair NewKeyPair NewTLSKeyPair
     DefaultConfigFolder Files Join Abs EncodeTOML).

Example validID_samples :
  validID "127.0.0.1:8080" = true ∧ validID "127.0.0.1" = false
  ∧ validID "host:" = false ∧ validID "host:80a" = false
  ∧ validID "[::1]:443" = true.
Proof. repeat split. Qed.

Example askPort_samples :
  askPort [Some "99999"; None; Some "80"; Some "8443"] = Some "8443"
  ∧ askPort [Some "abcd"; Some ""] = Some "8080"
  ∧ askPort [None; Some "1"] = None.
Proof. repeat split. Qed.

Lemma ConfigFolder_app d conf o :
  ConfigFolder d (conf ++ [o])
  = match o with WithConfigFolder f => f | _ => ConfigFolder d conf end.
Proof. unfold ConfigFolder. by rewrite foldl_app. Qed.

(** The folder of the configuration is the one of the [--folder] flag. *)
Lemma ConfigFolder_contextToConfig c conf :
  contextToConfig Files c = Some conf →
  ConfigFolder DefaultConfigFolder conf = folder c.
Proof.
  unfold contextToConfig.
  set (o1 := if String.eqb (listen c) "" then _ else _).
  set (o2 := if String.eqb (control c) "" then _ else _).
  assert (Hf : ∀ o, (∀ f, o ≠ WithConfigFolder f) →
            ConfigFolder DefaultConfigFolder ((o2 ++ [WithConfigFolder (folder c)]) ++ [o])
            = folder c).
  { intros o Ho. rewrite ConfigFolder_app.
    destruct o; try (by rewrite ConfigFolder_app). by destruct (Ho folder0). }
  destruct (tls_disable c).
  - destruct (bool_decide _ || bool_decide _); [by destruct (certs_dir c)|].
    destruct (certs_dir c) as [dir|].
    + destruct (Files dir); [|done]. intros [= <-].
      rewrite ConfigFolder_app. by apply Hf.
    + intros [= <-]. by apply Hf.
  - destruct (certs_dir c) as [dir|].
    + destruct (Files dir); [|done]. intros [= <-].
      rewrite ConfigFolder_app. by apply Hf.
    + intros [= <-]. by apply Hf.
Qed.

(** C10: [generate-keypair] never overwrites an existing key pair.  If a key
    pair loads from the configuration folder, the disk after the command is
    the disk before it, whatever the arguments, the flags and the input, so
    the same key pair still loads; and once the command has an address, given
    with a port or completed from the input, and its configuration, it
    returns without an error. *)
Theorem keygenCmd_keeps_existing_keypair c stdin fs kp :
  LoadKeyPair (folder c) fs = inl kp →
  (keygen c stdin fs).1.2 = fs
  ∧ LoadKeyPair (folder c) (keygen c stdin fs).1.2 = inl kp
  ∧ (∀ first rest, Args c = first :: rest →
       validID first = true ∨ is_Some (askPort stdin) →
       is_Some (contextToConfig Files c) →
       (keygen c stdin fs).1.1 = Return None).
Proof.
  intros Hload.
  assert (Hfs : (keygen c stdin fs).1.2 = fs).
  { unfold keygenCmd. destruct (Args c) as [|first rest]; [done|].
    destruct (validID first); [|destruct (askPort stdin); [|done]];
      destruct (tls_disable c); simpl;
      destruct (contextToConfig Files c) as [conf|] eqn:Hc; try done; simpl;
      by rewrite (ConfigFolder_contextToConfig c conf Hc), Hload. }
  split; [done|]. split; [by rewrite Hfs|].
  intros first rest Hargs Haddr [conf Hc]. unfold keygenCmd. rewrite Hargs.
  assert (Hdir := ConfigFolder_contextToConfig c conf Hc).
  destruct (validID first).
  - destruct (tls_disable c); simpl; rewrite Hc; simpl;
      by rewrite Hdir, Hload.
  - destruct Haddr as [|[port Hport]]; [done|]. rewrite Hport.
    destruct (tls_disable c); simpl; rewrite Hc; simpl;
      by rewrite Hdir, Hload.
Qed.

(** Without a key pair in the folder the command does save the new one. *)
Lemma keygenCmd_saves_new_keypair c stdin fs first rest e conf :
  Args c = first :: rest →
  validID first = true →
  contextToConfig Files c = Some conf →
  LoadKeyPair (folder c) fs = inr e →
  (keygen c stdin fs).1.2
    = (SaveKeyPair (folder c)
         (if tls_disable c then NewKeyPair first else NewTLSKeyPair first)
         fs).1.
Proof.
  intros Hargs Hvalid Hc Hload. unfold keygenCmd. rewrite Hargs, Hvalid.
  assert (Hdir := ConfigFolder_contextToConfig c conf Hc).
  destruct (tls_disable c); simpl; rewrite Hc; simpl; rewrite Hdir, Hload;
    destruct (SaveKeyPair _ _ fs) as [fs' [err|]]; simpl; try done;
    destruct (Abs _); simpl; try done; by destruct (EncodeTOML _).
Qed.

End keygen.

(** C10 on a folder that holds a key pair: an address without a port, a port
    read from the input, and the old key pair is still the one on disk. *)
Lemma keygenCmd_keeps_existing_keypair_witness :
  (cli.keygenCmd (option cli.Pair) sample.LoadKeyPair sample.SaveKeyPair
     (sample.NewKeyPair false) (sample.NewKeyPair true) "/root/.drand"
     (λ _, inl []) (λ a b, a +:+ "/" +:+ b) inl (λ _, inl "")
     sample.keygen_context [Some "4444"] (Some sample.old_pair)).1
  = (cli.Return None, Some sample.old_pair).
Proof.
  destruct (keygenCmd_keeps_existing_keypair (option cli.Pair)
              sample.LoadKeyPair sample.SaveKeyPair
              (sample.NewKeyPair false) (sample.NewKeyPair true) "/root/.drand"
              (λ _, inl []) (λ a b, a +:+ "/" +:+ b) inl (λ _, inl "")
              sample.keygen_context [Some "4444"] (Some sample.old_pair)
              sample.old_pair eq_refl) as (Hfs & _ & Hret).
  apply injective_projections; simpl.
  - apply (Hret "10.0.0.1" []); [reflexivity| |by eexists].
    right. by eexists.
  - exact Hfs.
Defined.

(** *** The beacon engine *)
Section engine.
Import beacon.

Variable Message : bytes → N → N → bytes.
Variable Sign : Share → bytes → bytes.
Variable VerifyPartial : list bytes → N → bytes → bytes → bool.
Variable Recover : list bytes → bytes → list (N * bytes) → nat → option bytes.
Variable VerifyRecovered : list bytes → bytes → bytes → bool.

Local Abbreviation verifies := (verifies Message VerifyRecovered).
Local Abbreviation chain_verifies := (chain_verifies Message VerifyRecovered).
Local Abbreviation preserves := (preserves Message VerifyRecovered).
Local Abbreviation step :=
  (step Message Sign VerifyPartial Recover VerifyRecovered).
Local Abbreviation run :=
  (run Message Sign VerifyPartial Recover VerifyRecovered).

Lemma put_verified g b s s' :
  chain_verifies g s →
  verifies g b = true →
  put b s = inl s' →
  chain_verifies g s'.
Proof.
  intros Hs Hb. unfold put.
  destruct (s !! Round b) as [b'|] eqn:E.
  - destruct (decide (Signature b' = Signature b)); [|done].
    by intros [= <-].
  - intros [= <-] r b0. destruct (decide (Round b = r)) as [<-|Hne].
    + rewrite lookup_insert_eq. by intros [= <-].
    + rewrite lookup_insert_ne by done. apply Hs.
Qed.

Lemma preserves_refl h : preserves h h.
Proof. by split. Qed.

Lemma preserves_same_store h h' :
  group h' = group h → store h' = store h → preserves h h'.
Proof. intros Hg Hs. split; [done|]. by rewrite Hs. Qed.

Lemma preserves_trans h1 h2 h3 :
  preserves h1 h2 → preserves h2 h3 → preserves h1 h3.
Proof.
  intros [Hg1 Hs1] [Hg2 Hs2]. split; [congruence|].
  intros H. rewrite <- Hg1. apply Hs2. rewrite Hg1. by apply Hs1.
Qed.

Lemma sign_round_preserves r h :
  preserves h (sign_round Message Sign r h).1.
Proof. by apply preserves_same_store. Qed.

Lemma tick_preserves r h : preserves h (tick Message Sign r h).1.
Proof.
  unfold tick. destruct (Round (head h) + 1 <? r)%N.
  - by apply preserves_same_store.
  - eapply preserves_trans; [|apply sign_round_preserves].
    by apply preserves_same_store.
Qed.

(** Recovery stores a beacon only after the recovered signature has been
    verified against the distributed public key. *)
Lemma try_recover_preserves r h :
  preserves h (try_recover Message Recover VerifyRecovered r h).1.
Proof.
  unfold try_recover. case_bool_decide; [|apply preserves_refl].
  destruct (Recover _ _ _ _) as [sig|]; [|apply preserves_refl].
  destruct (VerifyRecovered _ _ sig) eqn:Hv; [|apply preserves_refl].
  destruct (put _ (store h)) as [s'|] eqn:Hput; simpl.
  - split; [done|]. intros Hs. eapply put_verified; [exact Hs| |exact Hput].
    exact Hv.
  - by apply preserves_same_store.
Qed.

Lemma process_preserves p h :
  preserves h (process Message VerifyPartial Recover VerifyRecovered p h).1.
Proof.
  unfold process. destruct (pk_partial_sig p) as [sig|]; [|apply preserves_refl].
  case_bool_decide; [apply preserves_refl|].
  destruct (valid_partial _ _ _ _ _); [|apply preserves_refl].
  case_bool_decide.
  - eapply preserves_trans; [|apply try_recover_preserves].
    by apply preserves_same_store.
  - by apply preserves_same_store.
Qed.

(** The syncer stores a beacon only after it has verified it. *)
Lemma sync_preserves b h :
  preserves h (sync Message VerifyRecovered b h).1.
Proof.
  unfold sync.
  destruct (verifies (group h) b) eqn:Hv; simpl; [|apply preserves_refl].
  destruct (_ && _); [|apply preserves_refl].
  destruct (put b (store h)) as [s'|] eqn:Hput; simpl.
  - split; [done|]. intros Hs. by eapply put_verified.
  - by apply preserves_same_store.
Qed.

Lemma step_preserves h i : preserves h (step h i).1.
Proof.
  unfold beacon.step.
  destruct i, (state h); simpl;
    try apply preserves_refl; try (by apply preserves_same_store).
  - destruct (t <? genesis_time)%Z; [apply preserves_refl|].
    eapply preserves_trans; [|apply tick_preserves].
    by apply preserves_same_store.
  - destruct (round h <? _)%N; [apply tick_preserves|apply preserves_refl].
  - apply process_preserves.
  - apply sync_preserves.
  - destruct (round h =? 0)%N; [by apply preserves_same_store|].
    eapply preserves_trans; [|apply sign_round_preserves].
    by apply preserves_same_store.
Qed.

Lemma run_preserves ins : ∀ h, preserves h (run h ins).1.
Proof.
  induction ins as [|i ins IH]; intros h; simpl; [apply preserves_refl|].
  pose proof (step_preserves h i) as H1.
  destruct (step h i) as [h1 a1]. specialize (IH h1).
  destruct (run h1 ins) as [h2 a2]. simpl in *.
  by eapply preserves_trans.
Qed.

(** Signing a round notifies nobody. *)
Lemma sign_round_silent r h b :
  Notify b ∉ (sign_round Message Sign r h).2.
Proof.
  unfold sign_round; simpl. intros Hin.
  apply list_elem_of_fmap in Hin as (n & Hn & _). discriminate Hn.
Qed.

Lemma tick_silent r h b : Notify b ∉ (tick Message Sign r h).2.
Proof.
  unfold tick. destruct (_ <? _)%N; [|apply sign_round_silent].
  simpl. intros Hin. apply list_elem_of_singleton in Hin. discriminate Hin.
Qed.

Lemma try_recover_notifies r h b :
  Notify b ∈ (try_recover Message Recover VerifyRecovered r h).2 →
  verifies (group h) b = true.
Proof.
  unfold try_recover. case_bool_decide; [|by intros ?%elem_of_nil].
  destruct (Recover _ _ _ _) as [sig|]; [|by intros ?%elem_of_nil].
  destruct (VerifyRecovered _ _ sig) eqn:Hv; [|by intros ?%elem_of_nil].
  destruct (put _ (store h)); simpl; [|by intros ?%elem_of_nil].
  intros Hin. apply list_elem_of_singleton in Hin. injection Hin as ->.
  exact Hv.
Qed.

(** What the callbacks of the tests assert: every beacon the handler notifies
    verifies under the distributed public key. *)
Lemma step_notifies_verified h i b :
  Notify b ∈ (step h i).2 → verifies (group h) b = true.
Proof.
  unfold beacon.step.
  destruct i, (state h); simpl; try (by intros ?%elem_of_nil);
    try (by intros [=]%list_elem_of_singleton).
  - destruct (t <? genesis_time)%Z; [by intros ?%elem_of_nil|].
    by intros ?%tick_silent.
  - destruct (round h <? _)%N; [by intros ?%tick_silent|].
    by intros ?%elem_of_nil.
  - unfold process.
    destruct (pk_partial_sig p) as [sig|]; [|by intros ?%elem_of_nil].
    case_bool_decide; [by intros ?%elem_of_nil|].
    destruct (valid_partial _ _ _ _ _); [|by intros ?%elem_of_nil].
    case_bool_decide; [|by intros ?%elem_of_nil].
    intros Hin. by apply try_recover_notifies in Hin.
  - unfold sync. destruct (verifies (group h) b0) eqn:Hv; simpl;
      [|by intros [=]%list_elem_of_singleton].
    destruct (_ && _); [|by intros [=]%list_elem_of_singleton].
    destruct (put b0 (store h)); simpl; [|by intros ?%elem_of_nil].
    intros Hin. apply list_elem_of_singleton in Hin. by injection Hin as ->.
  - destruct (round h =? 0)%N; [by intros ?%elem_of_nil|].
    by intros ?%sign_round_silent.
Qed.

Lemma run_notifies_verified ins : ∀ h b,
  Notify b ∈ (run h ins).2 → verifies (group h) b = true.
Proof.
  induction ins as [|i ins IH]; intros h b; simpl; [by intros ?%elem_of_nil|].
  pose proof (step_notifies_verified h i b) as H1.
  destruct (step_preserves h i) as [Hg _].
  destruct (step h i) as [h1 a1]. specialize (IH h1 b).
  destruct (run h1 ins) as [h2 a2]. simpl in *.
  intros Hin. apply elem_of_app in Hin as [Hin|Hin]; [by apply H1|].
  rewrite <- Hg. by apply IH.
Qed.

(** C1: whatever the handler is fed with from an empty store on (ticks,
    partials of peers, beacons received while syncing), every beacon of its
    store with a round greater than 1 has a signature that verifies, under the
    distributed public key of the group, over the message of its previous
    signature, previous round and round. *)
Theorem stored_beacons_verify g sh ins r b :
  store (run (NewHandler g sh ∅) ins).1 !! r = Some b →
  (1 < Round b)%N →
  VerifyRecovered (PublicKey g)
    (Message (PreviousSig b) (PreviousRound b) (Round b)) (Signature b) = true.
Proof.
  intros Hb _.
  destruct (run_preserves ins (NewHandler g sh ∅)) as [Hg Hs].
  simpl in Hg, Hs.
  destruct (Hs ltac:(by intros ? ? ?) r b Hb) as [_ Hv]. exact Hv.
Qed.

End engine.

(** The engine on the toy scheme: after two rounds the store holds the
    beacons of rounds 1 and 2, chained from the genesis seed. *)
Example two_rounds_stored :
  let h := (beacon.run sample.Message sample.Sign sample.VerifyPartial
              sample.Recover sample.VerifyRecovered
              (beacon.NewHandler sample.group sample.share ∅)
              sample.two_rounds).1 in
  beacon.store h !! 1%N = Some sample.beacon1
  ∧ beacon.store h !! 2%N = Some sample.beacon2
  ∧ beacon.head h = sample.beacon2
  ∧ beacon.state h = beacon.Running.
Proof. vm_compute. repeat split. Qed.

(** C1 on the toy scheme: the beacon of round 2 verifies. *)
Lemma stored_beacons_verify_witness :
  sample.VerifyRecovered (beacon.PublicKey sample.group)
    (sample.Message (beacon.PreviousSig sample.beacon2)
       (beacon.PreviousRound sample.beacon2) (beacon.Round sample.beacon2))
    (beacon.Signature sample.beacon2) = true.
Proof.
  apply (stored_beacons_verify sample.Message sample.Sign sample.VerifyPartial
           sample.Recover sample.VerifyRecovered sample.group sample.share
           sample.two_rounds 2%N sample.beacon2).
  - vm_compute. reflexivity.
  - vm_compute. reflexivity.
Defined.

(** *** The round clock and the start of the engine *)
Section round_clock.
Import beacon.

Variable Message : bytes → N → N → bytes.
Variable Sign : Share → bytes → bytes.
Variable VerifyPartial : list bytes → N → bytes → bytes → bool.
Variable Recover : list bytes → bytes → list (N * bytes) → nat → option bytes.
Variable VerifyRecovered : list bytes → bytes → bytes → bool.

Local Abbreviation step :=
  (step Message Sign VerifyPartial Recover VerifyRecovered).
Local Abbreviation run :=
  (run Message Sign VerifyPartial Recover VerifyRecovered).

Lemma current_round_before_genesis genesis period t :
  (t < genesis)%Z → current_round genesis period t = 0%N.
Proof.
  intros H. unfold current_round.
  by destruct (Z.ltb_spec t genesis); [|lia].
Qed.

Lemma current_round_at_genesis genesis period :
  (0 < period)%Z → current_round genesis period genesis = 1%N.
Proof.
  intros H. unfold current_round. rewrite Z.ltb_irrefl, Z.sub_diag.
  by rewrite Z.div_0_l by lia.
Qed.

(** From genesis on, the round of a time is the number of whole periods
    elapsed, plus one. *)
Lemma current_round_from_genesis genesis period t :
  (0 < period)%Z → (genesis ≤ t)%Z →
  (round_start_time genesis period (current_round genesis period t) ≤ t
   < round_start_time genesis period (current_round genesis period t) + period)%Z.
Proof.
  intros Hp Ht. unfold current_round, round_start_time.
  destruct (Z.ltb_spec t genesis); [lia|].
  pose proof (Z.div_pos (t - genesis) period ltac:(lia) Hp).
  rewrite Z2N.id by lia.
  pose proof (Z.mul_div_le (t - genesis) period Hp).
  pose proof (Z.mul_succ_div_gt (t - genesis) period Hp). lia.
Qed.

(** A waiting handler stays as it is on everything but [Stop], as long as the
    clock is before genesis. *)
Lemma step_waiting h i :
  state h = Waiting (GenesisTime (group h)) →
  (∀ t, i = Clock t → (t < GenesisTime (group h))%Z) →
  step h i = (h, []) ∨ i = Stop ∧ step h i = (set_state Stopped h, []).
Proof.
  intros Hst Hclock. unfold beacon.step. rewrite Hst.
  destruct i; try (by left); [by right|].
  left. specialize (Hclock t eq_refl).
  by destruct (Z.ltb_spec t (GenesisTime (group h))); [|lia].
Qed.

Lemma step_stopped h i :
  state h = Stopped →
  step h i = (h, []) ∨ step h i = (set_state Stopped h, []).
Proof.
  intros Hst. unfold beacon.step. rewrite Hst. destruct i; by (left + right).
Qed.

Lemma run_before_genesis ins : ∀ h,
  state h = Waiting (GenesisTime (group h)) ∨ state h = Stopped →
  (∀ t, Clock t ∈ ins → (t < GenesisTime (group h))%Z) →
  (run h ins).2 = []
  ∧ group (run h ins).1 = group h
  ∧ (state (run h ins).1 = Waiting (GenesisTime (group h))
     ∨ state (run h ins).1 = Stopped)
  ∧ (Stop ∉ ins → state (run h ins).1 = state h).
Proof.
  induction ins as [|i ins IH]; intros h Hst Hclock; simpl.
  - by repeat split.
  - assert (Hstep : ∃ h1, step h i = (h1, [])
              ∧ group h1 = group h
              ∧ (state h1 = Waiting (GenesisTime (group h1))
                 ∨ state h1 = Stopped)
              ∧ (i ≠ Stop → state h1 = state h)).
    { destruct Hst as [Hst|Hst].
      - destruct (step_waiting h i Hst) as [->|[-> ->]].
        + intros t ->. apply Hclock. left.
        + exists h. repeat split; by try left.
        + exists (set_state Stopped h). repeat split; by try right.
      - destruct (step_stopped h i Hst) as [->| ->].
        + exists h. repeat split; by try right.
        + exists (set_state Stopped h). repeat split; try by right.
          intros _. by rewrite Hst. }
    destruct Hstep as (h1 & -> & Hg & Hst1 & Hkeep).
    destruct (IH h1 Hst1) as (Hact & Hg2 & Hst2 & Hkeep2).
    { intros t Ht. rewrite Hg. apply Hclock. by right. }
    destruct (run h1 ins) as [h2 a2]. simpl in *. subst a2.
    split; [done|]. split; [congruence|]. split; [by rewrite <- Hg|].
    intros Hstop. rewrite Hkeep2, Hkeep; [done| |].
    + intros ->. apply Hstop. left.
    + intros H. apply Hstop. by right.
Qed.

(** C4: at every time strictly before genesis the round is 0; and a handler
    that was started, fed with anything while its clock stays strictly before
    genesis, is still not started (it waits for genesis, or was stopped) and
    has emitted nothing: no partial signature is broadcast. *)
Theorem not_started_before_genesis g sh s ins :
  (∀ t, Clock t ∈ ins → (t < GenesisTime g)%Z) →
  (∀ t, (t < GenesisTime g)%Z →
     current_round (GenesisTime g) (Period g) t = 0%N)
  ∧ started (run (NewHandler g sh s) (Start :: ins)).1 = false
  ∧ (run (NewHandler g sh s) (Start :: ins)).2 = []
  ∧ (Stop ∉ ins →
       state (run (NewHandler g sh s) (Start :: ins)).1
         = Waiting (GenesisTime g)).
Proof.
  intros Hclock. split; [intros t; apply current_round_before_genesis|].
  change (run (NewHandler g sh s) (Start :: ins))
    with (let '(h2, a2) :=
            run (set_state (Waiting (GenesisTime g)) (NewHandler g sh s)) ins
          in (h2, [] ++ a2)).
  destruct (run_before_genesis ins
              (set_state (Waiting (GenesisTime g)) (NewHandler g sh s)))
    as (Hact & _ & Hst & Hkeep); [by left|done|].
  destruct (run _ ins) as [h2 a2]. simpl in *.
  split; [|split; [done|by intros H; rewrite Hkeep]].
  unfold started. by destruct Hst as [-> | ->].
Qed.

(** When the clock reaches genesis the waiting handler starts. *)
Lemma starts_at_genesis h t :
  state h = Waiting (GenesisTime (group h)) →
  (GenesisTime (group h) ≤ t)%Z →
  started (step h (Clock t)).1 = true.
Proof.
  intros Hst Ht. unfold beacon.step. rewrite Hst.
  destruct (Z.ltb_spec t (GenesisTime (group h))); [lia|].
  unfold tick. by destruct (_ <? _)%N.
Qed.

End round_clock.

(** C4 as in [TestBeaconSimple]: genesis is two seconds away; one second
    later the handler has not started and has sent nothing. *)
Lemma not_started_before_genesis_witness :
  beacon.started
    (beacon.run sample.Message sample.Sign sample.VerifyPartial
       sample.Recover sample.VerifyRecovered
       (beacon.NewHandler sample.group sample.share ∅)
       [beacon.Start; beacon.Clock 1]).1 = false
  ∧ (beacon.run sample.Message sample.Sign sample.VerifyPartial
       sample.Recover sample.VerifyRecovered
       (beacon.NewHandler sample.group sample.share ∅)
       [beacon.Start; beacon.Clock 1]).2 = []
  ∧ beacon.current_round 2 2 1 = 0%N.
Proof.
  destruct (not_started_before_genesis sample.Message sample.Sign
              sample.VerifyPartial sample.Recover sample.VerifyRecovered
              sample.group sample.share ∅ [beacon.Clock 1])
    as (Hround & Hstarted & Hnone & _).
  - intros t Ht. apply list_elem_of_singleton in Ht. injection Ht as ->.
    reflexivity.
  - split; [exact Hstarted|]. split; [exact Hnone|].
    apply (Hround 1%Z). reflexivity.
Defined.

(** And one second later, at genesis, it has started and has sent its partial
    for round 1 to the two other nodes. *)
Example started_at_genesis :
  let r := beacon.run sample.Message sample.Sign sample.VerifyPartial
             sample.Recover sample.VerifyRecovered
             (beacon.NewHandler sample.group sample.share ∅)
             [beacon.Start; beacon.Clock 1; beacon.Clock 2] in
  beacon.started r.1 = true ∧ beacon.round r.1 = 1%N ∧ length r.2 = 2.
Proof. vm_compute. repeat split. Qed.

(** *** Resharing *)
Section resharing.
Import dkg.

Context {F : Type} `{EqDecision F}.
Variables (zero one : F) (add mul sub : F → F → F) (opp : F → F)
          (div : F → F → F) (inv : F → F).
Hypothesis Fth : field_theory zero one add mul sub opp div inv eq.
Variable point : N → F.

Add Field scalars : Fth.

Local Notation "0" := zero.
Local Notation "1" := one.
Local Infix "+" := add.
Local Infix "*" := mul.
Local Infix "-" := sub.
Local Infix "/" := div.
Local Abbreviation eval := (eval zero add mul).
Local Abbreviation padd := (padd add).
Local Abbreviation pscale := (pscale mul).
Local Abbreviation pmul_lin := (pmul_lin zero add mul opp).
Local Abbreviation divlin := (divlin zero add mul).
Local Abbreviation lagrange := (lagrange one mul sub div).
Local Abbreviation lag_poly := (lag_poly zero one add mul sub opp inv).
Local Abbreviation sum := (sum zero add).
Local Abbreviation interpolate := (interpolate zero one add mul sub opp inv).
Local Abbreviation valid_deal := (valid_deal zero add mul point).
Local Abbreviation points := (points point).
Local Abbreviation weight := (weight zero one mul sub div point).
Local Abbreviation recombine := (recombine zero one add mul sub div point).
Local Abbreviation new_share := (new_share zero one add mul sub div point).
Local Abbreviation reshare := (reshare zero one add mul sub div point).

Lemma eval_padd p q x : eval (padd p q) x = eval p x + eval q x.
Proof.
  revert q. induction p as [|a p IH]; intros [|b q]; simpl; try ring.
  rewrite IH. ring.
Qed.

Lemma eval_pscale c p x : eval (pscale c p) x = c * eval p x.
Proof. induction p as [|a p IH]; simpl; [ring|]. rewrite IH. ring. Qed.

Lemma eval_pmul_lin c p x : eval (pmul_lin c p) x = (x - c) * eval p x.
Proof. unfold dkg.pmul_lin. rewrite eval_padd, eval_pscale. simpl. ring. Qed.

Lemma mul_zero_r a b : a * b = 0 → a ≠ 0 → b = 0.
Proof.
  intros Hab Ha. assert (b = (1 / a) * (a * b)) as -> by (field; done).
  rewrite Hab. ring.
Qed.

Lemma length_padd p q : length (padd p q) = max (length p) (length q).
Proof.
  revert q. induction p as [|a p IH]; intros [|b q]; simpl; try done.
  by rewrite IH.
Qed.

Lemma length_pscale c p : length (pscale c p) = length p.
Proof. apply length_map. Qed.

Lemma length_pmul_lin c p : length (pmul_lin c p) = S (length p).
Proof.
  unfold dkg.pmul_lin. rewrite length_padd, length_pscale. simpl. lia.
Qed.

Lemma length_divlin p a : length (divlin p a) = pred (length p).
Proof.
  induction p as [|b [|c q] IH]; simpl in *; try done. by rewrite IH.
Qed.

(** The factor theorem. *)
Lemma eval_divlin p a x :
  eval p x = eval p a + (x - a) * eval (divlin p a) x.
Proof.
  induction p as [|b [|c q] IH]; simpl in *; try ring.
  rewrite IH. ring.
Qed.

Lemma sub_ne a b : a ≠ b → a - b ≠ 0.
Proof.
  intros Hne H0. apply Hne. assert (a = (a - b) + b) as -> by ring.
  rewrite H0. ring.
Qed.

(** A polynomial with as many distinct roots as coefficients is zero
    everywhere. *)
Lemma roots_bound roots : ∀ p,
  length p ≤ length roots →
  NoDup roots →
  (∀ r, r ∈ roots → eval p r = 0) →
  ∀ x, eval p x = 0.
Proof.
  induction roots as [|a rs IH]; intros p Hlen Hnd Hroots x.
  - destruct p; [done|simpl in Hlen; lia].
  - apply NoDup_cons in Hnd as [Ha Hnd].
    rewrite (eval_divlin p a x), (Hroots a) by left.
    rewrite (IH (divlin p a)); [ring| |done|].
    + rewrite length_divlin. simpl in Hlen. lia.
    + intros r Hr. apply (mul_zero_r (r - a)).
      * trans (eval p r); [|by apply Hroots; right].
        rewrite (eval_divlin p a r), (Hroots a) by left. ring.
      * apply sub_ne. intros ->. done.
Qed.


Lemma eval_lag_poly xs xi z :
  eval (lag_poly xs xi) z = lagrange xs xi z.
Proof.
  induction xs as [|xj xs IH]; simpl; [ring|].
  destruct (decide (xj = xi)) as [->|Hne]; [done|].
  rewrite eval_pscale, eval_pmul_lin, IH. field. apply sub_ne. congruence.
Qed.

Lemma length_lag_poly xs xi :
  length (lag_poly xs xi) ≤ S (length xs)
  ∧ (xi ∈ xs → length (lag_poly xs xi) ≤ length xs).
Proof.
  induction xs as [|xj xs [IH1 IH2]]; simpl.
  - split; [done|]. intros H. by apply elem_of_nil in H.
  - destruct (decide (xj = xi)) as [->|Hne].
    + split; [lia|]. intros _. lia.
    + rewrite length_pscale, length_pmul_lin. split; [lia|].
      intros H. apply elem_of_cons in H as [->|H]; [done|].
      specialize (IH2 H). lia.
Qed.

(** The basis polynomial of a point vanishes at the other points... *)
Lemma lagrange_other xs xi xk : xk ∈ xs → xk ≠ xi → lagrange xs xi xk = 0.
Proof.
  induction xs as [|xj xs IH]; intros Hin Hne; simpl.
  - by apply elem_of_nil in Hin.
  - destruct (decide (xj = xi)) as [->|Hji].
    + apply elem_of_cons in Hin as [->|Hin]; [done|]. by apply IH.
    + apply elem_of_cons in Hin as [->|Hin].
      * field. apply sub_ne. congruence.
      * rewrite IH by done. field. apply sub_ne. congruence.
Qed.

(** ... and is 1 at its own point. *)
Lemma lagrange_self xs xi : lagrange xs xi xi = 1.
Proof.
  induction xs as [|xj xs IH]; simpl; [done|].
  destruct (decide (xj = xi)) as [->|Hji]; [done|].
  rewrite IH. field. apply sub_ne. congruence.
Qed.

Lemma eval_interpolate_gen p (xs ys : list F) z :
  eval (foldr (λ xi acc, padd (pscale (eval p xi) (lag_poly xs xi)) acc) [] ys) z
  = sum (map (λ xi, eval p xi * lagrange xs xi z) ys).
Proof.
  induction ys as [|y ys IH]; simpl; [done|].
  rewrite eval_padd, eval_pscale, eval_lag_poly, IH. ring.
Qed.

Lemma length_interpolate_gen p (xs ys : list F) :
  ys ⊆ xs →
  length (foldr (λ xi acc, padd (pscale (eval p xi) (lag_poly xs xi)) acc) [] ys)
  ≤ length xs.
Proof.
  induction ys as [|y ys IH]; intros Hsub; simpl; [lia|].
  rewrite length_padd, length_pscale.
  apply Nat.max_lub.
  - apply length_lag_poly, Hsub. left.
  - apply IH. intros x Hx. apply Hsub. by right.
Qed.

(** At a point of the list only the own term of the sum is left. *)
Lemma sum_lagrange_at p xs ys xk :
  xk ∈ xs → NoDup ys →
  sum (map (λ xi, eval p xi * lagrange xs xi xk) ys)
  = if decide (xk ∈ ys) then eval p xk else 0.
Proof.
  intros Hk. unfold dkg.sum.
  induction ys as [|y ys IH]; intros Hnd; cbn [map foldr].
  - destruct (decide (xk ∈ [])) as [H'|_]; [by apply elem_of_nil in H'|done].
  - apply NoDup_cons in Hnd as [Hy Hnd]. rewrite (IH Hnd).
    destruct (decide (xk = y)) as [->|Hne].
    + rewrite lagrange_self.
      destruct (decide (y ∈ ys)); [done|].
      destruct (decide (y ∈ y :: ys)) as [_|H']; [ring|].
      exfalso. apply H'. left.
    + rewrite (lagrange_other xs y xk Hk Hne).
      destruct (decide (xk ∈ ys)) as [Hin|Hin];
        destruct (decide (xk ∈ y :: ys)) as [Hin'|Hin']; try ring.
      * exfalso. apply Hin'. by right.
      * apply elem_of_cons in Hin' as [?|?]; done.
Qed.

(** Lagrange interpolation: a polynomial with no more coefficients than there
    are points is the sum of its values at the points, weighted by the basis
    polynomials. *)
Lemma interpolation p xs z :
  NoDup xs → length p ≤ length xs →
  sum (map (λ xi, eval p xi * lagrange xs xi z) xs) = eval p z.
Proof.
  intros Hnd Hlen.
  pose (d := padd p (pscale (opp 1) (interpolate xs p))).
  assert (Hd : ∀ x, eval d x = eval p x
             - sum (map (λ xi, eval p xi * lagrange xs xi x) xs)).
  { intros x. unfold d, dkg.interpolate.
    rewrite eval_padd, eval_pscale, eval_interpolate_gen. ring. }
  assert (H0 : eval d z = 0).
  { apply (roots_bound xs); [|done|].
    - unfold d. rewrite length_padd, length_pscale. apply Nat.max_lub; [done|].
      by apply length_interpolate_gen.
    - intros r Hr. rewrite Hd, (sum_lagrange_at p xs xs r Hr Hnd).
      rewrite decide_True by done. ring. }
  rewrite Hd in H0.
  assert (∀ a b : F, a - b = 0 → b = a) as Heq.
  { intros a b Hab. assert (b = a - (a - b)) as -> by ring. rewrite Hab. ring. }
  by apply Heq.
Qed.

Lemma eval_zero p : eval p 0 = nth 0 p 0.
Proof. destruct p; simpl; [done|ring]. Qed.

Lemma eval_linear (w : Deal → F) (l : list Deal) x :
  eval (foldr (λ d acc, padd (pscale (w d) (poly d)) acc) [] l) x
  = sum (map (λ d, w d * eval (poly d) x) l).
Proof.
  induction l as [|d l IH]; simpl; [done|].
  rewrite eval_padd, eval_pscale, IH. ring.
Qed.

Lemma length_linear (w : Deal → F) (l : list Deal) n :
  (∀ d, d ∈ l → length (poly d) = n) → l ≠ [] →
  length (foldr (λ d acc, padd (pscale (w d) (poly d)) acc) [] l) = n.
Proof.
  intros Hlen Hne. induction l as [|d l IH]; [done|]. simpl.
  rewrite length_padd, length_pscale, (Hlen d) by left.
  destruct l as [|d' l]; [simpl; lia|].
  rewrite IH; [lia| |done]. intros d0 Hd0. apply Hlen. by right.
Qed.

Lemma sum_ext {A} (f g : A → F) (l : list A) :
  (∀ a, a ∈ l → f a = g a) → sum (map f l) = sum (map g l).
Proof.
  induction l as [|a l IH]; intros Hfg; simpl; [done|].
  rewrite (Hfg a) by left. rewrite IH; [done|].
  intros a' Ha'. apply Hfg. by right.
Qed.


(** C3: a successful resharing leaves the distributed key unchanged.  When the
    resharing of an old group (whose distributed public key has as many
    coefficients as its threshold) to a new threshold succeeds, the key of the
    new group is the key of the old group, so [RunResharing] prints no
    "Invalid distributed key"; the new distributed public key has as many
    coefficients as the new threshold, and every new share lies on it. *)
Theorem resharing_keeps_distributed_key old t' deals new shares :
  reshare old t' deals = Some (new, shares) →
  length (Coefficients (PublicKey old)) = Threshold old →
  0 < Threshold old →
  0 < t' →
  Key (PublicKey old) = Key (PublicKey new)
  ∧ RunResharing_check old new = []
  ∧ Threshold new = t'
  ∧ length (Coefficients (PublicKey new)) = Threshold new
  ∧ (∀ j, shares j = eval (Coefficients (PublicKey new)) (point j)).
Proof.
  intros Hre Hold Ht Ht'. unfold dkg.reshare in Hre.
  set (qual := filter (λ d, valid_deal old t' d = true) deals) in *.
  destruct (bool_decide (Threshold old ≤ length qual)) eqn:Hq; [|done].
  destruct (bool_decide (NoDup (points qual))) eqn:Hnd; [|done].
  apply bool_decide_eq_true in Hq, Hnd. injection Hre as <- <-. simpl.
  assert (Hvalid : ∀ d, d ∈ qual → length (poly d) = t'
            ∧ eval (poly d) 0
              = eval (Coefficients (PublicKey old)) (point (dealer d))).
  { intros d Hd. apply list_elem_of_filter in Hd as [Hd _].
    apply andb_true_iff in Hd as [H1 H2].
    apply bool_decide_eq_true in H1, H2. split; [done|].
    unfold dkg.Key, dkg.Commit in H2. simpl in H2.
    rewrite eval_zero. destruct (poly d); [done|]. simpl in *. congruence. }
  assert (Hne : qual ≠ []) by (intros E; rewrite E in Hq; simpl in Hq; lia).
  assert (Hlen : length (recombine qual) = t').
  { apply length_linear; [|done]. intros d Hd. by apply Hvalid. }
  assert (Hkey : Key (PublicKey old) = Some (nth 0 (recombine qual) 0)).
  { unfold dkg.Key.
    destruct (Coefficients (PublicKey old)) as [|a0 old'] eqn:Hco;
      [simpl in Hold; lia|].
    simpl. f_equal. rewrite <- eval_zero.
    assert (a0 = eval (a0 :: old') 0) as -> by (simpl; ring).
    unfold dkg.recombine. rewrite eval_linear.
    rewrite <- (interpolation (a0 :: old') (points qual) 0 Hnd).
    - unfold dkg.points. rewrite map_map. apply sum_ext.
      intros d Hd. destruct (Hvalid d Hd) as [_ <-].
      unfold dkg.weight, dkg.points. ring.
    - unfold dkg.points. rewrite length_map. simpl in Hold. simpl. lia. }
  assert (Hsame : Key (PublicKey old) = head (recombine qual)).
  { rewrite Hkey. destruct (recombine qual); [simpl in Hlen; lia|done]. }
  split; [exact Hsame|]. split.
  { unfold dkg.RunResharing_check. simpl. unfold dkg.Key at 2. simpl.
    by rewrite bool_decide_true. }
  split; [done|]. split; [done|].
  intros j. unfold dkg.new_share, dkg.recombine. by rewrite eval_linear.
Qed.

End resharing.

(** C3 on a resharing from threshold 2 to threshold 3 over the rationals: it
    succeeds, and the key 5 of the old group is the key of the new one. *)
Lemma resharing_keeps_distributed_key_witness :
  ∃ new shares,
    dkg.reshare (Q2Qc 0) 1%Qc Qcplus Qcmult Qcminus Qcdiv sample.point
      sample.old_group 3 sample.deals = Some (new, shares)
    ∧ dkg.Key (dkg.PublicKey sample.old_group) = dkg.Key (dkg.PublicKey new).
Proof.
  destruct (dkg.reshare (Q2Qc 0) 1%Qc Qcplus Qcmult Qcminus Qcdiv sample.point
              sample.old_group 3 sample.deals) as [[new shares]|] eqn:E.
  - exists new, shares. split; [reflexivity|].
    apply (resharing_keeps_distributed_key (Q2Qc 0) 1%Qc Qcplus Qcmult
             Qcminus Qcopp Qcdiv Qcinv Qcft sample.point
             sample.old_group 3 sample.deals new shares E);
      [reflexivity|simpl; lia|lia].
  - unfold dkg.reshare in E.
    destruct (bool_decide _ && bool_decide _) eqn:C in E; [discriminate E|].
    vm_compute in C. discriminate C.
Defined.

(** The coefficients beyond the key are fresh: in that resharing the new
    distributed public key has three coefficients, the old one two. *)
Example resharing_renews_the_polynomial :
  length (dkg.recombine (Q2Qc 0) 1%Qc Qcplus Qcmult Qcminus Qcdiv sample.point
            sample.deals) = 3
  ∧ length (dkg.Coefficients (dkg.PublicKey sample.old_group)) = 2.
Proof. split; reflexivity. Qed.

(** *** The network shim: the connection cache *)
Section connection_cache.
Import net.

Lemma after_0_nil w : after 0 [] w = w.
Proof. destruct w. unfold after; simpl. by rewrite app_nil_r. Qed.

Lemma after_after j k l1 l2 w :
  after k l2 (after j l1 w) = after (k + j) (l1 ++ l2) w.
Proof. unfold after; simpl. f_equal; [lia|by rewrite app_assoc]. Qed.

Lemma new_events_after k l w : new_events w (after k l w) = l.
Proof. unfold new_events, after; simpl. by rewrite drop_app_length. Qed.

(** The methods that set a deadline make one attempt. *)
Lemma with_deadline_attempt m p req g w r g' w' :
  with_deadline m p req g w = Ret (r, g', w') →
  Attempt m p req g w r g' w'.
Proof.
  destruct (conns g !! Address p) as [[cc|]|] eqn:Hc.
  - rewrite (with_deadline_cached _ _ _ _ _ _ Hc). intros [= <- <- <-].
    by apply (attempt_cached m p req g w cc _ 1).
  - by rewrite (with_deadline_nil _ _ _ _ _ Hc).
  - rewrite (with_deadline_fresh _ _ _ _ _ Hc); simpl.
    destruct (dialer w (length (trace w)) (Address p)) as [e|] eqn:Hd.
    + intros [= <- <- <-]. by apply (attempt_failed m p req g w e).
    + intros [= <- <- <-].
      replace (length (trace w ++ [EvDial (Address p) (dial_options g p)]))
        with (S (length (trace w))) by (rewrite length_app; simpl; lia).
      rewrite <- app_assoc.
      by apply (attempt_dialled m p req g w _ 1).
Qed.

(** So does [DistKey], which reads no clock. *)
Lemma DistKey_attempt p req g w r g' w' :
  DistKey p req g w = Ret (r, g', w') →
  Attempt MDistKey p req g w r g' w'.
Proof.
  unfold DistKey, mbind, M_bind at 1.
  destruct (conns g !! Address p) as [[cc|]|] eqn:Hc.
  - rewrite (conn_cached _ _ _ _ Hc). simpl. intros [= <- <- <-].
    by apply (attempt_cached MDistKey p req g w cc Background 0).
  - by rewrite (conn_cached _ _ _ _ Hc).
  - rewrite (conn_fresh _ _ _ Hc); simpl.
    destruct (dialer w (length (trace w)) (Address p)) as [e|] eqn:Hd; simpl.
    + intros [= <- <- <-]. by apply (attempt_failed MDistKey p req g w e).
    + intros [= <- <- <-].
      unfold emit; simpl. rewrite length_app, Nat.add_1_r, <- app_assoc.
      by apply (attempt_dialled MDistKey p req g w Background 0).
Qed.

Lemma call_attempt m p req g w r g' w' :
  m ≠ MNewBeacon →
  call m p req g w = Ret (r, g', w') →
  Attempt m p req g w r g' w'.
Proof.
  intros Hm. destruct (decide (m = MDistKey)) as [->|Hd].
  - apply DistKey_attempt.
  - rewrite (call_with_deadline m Hd Hm). apply with_deadline_attempt.
Qed.

(** [NewBeacon] makes one attempt, or two when the first fails with a
    connection error; the second starts from an emptied cache entry. *)
Lemma NewBeacon_attempts p req g w r g' w' :
  NewBeacon p req g w = Ret (r, g', w') →
  Attempt MNewBeacon p req g w r g' w'
  ∨ ∃ e g1 w1,
      Attempt MNewBeacon p req g w (inr e) g1 w1
      ∧ Contains e "connection error" = true
      ∧ Attempt MNewBeacon p req
          {| conns := delete (Address p) (conns g1); opts := opts g1;
             timeout := timeout g1; manager := manager g1 |} w1 r g' w'.
Proof.
  rewrite NewBeacon_unfold.
  destruct (with_deadline MNewBeacon p req g w) as [[[[b|e] g1] w1]|] eqn:H1;
    [| |done].
  - intros [= <- <- <-]. left. by apply with_deadline_attempt.
  - destruct (Contains e "connection error") eqn:He.
    + intros H2. right. exists e, g1, w1.
      split; [by apply with_deadline_attempt|]. split; [done|].
      by apply with_deadline_attempt.
    + intros [= <- <- <-]. left. by apply with_deadline_attempt.
Qed.

Lemma invoked_app tr1 tr2 : invoked (tr1 ++ tr2) = invoked tr1 ++ invoked tr2.
Proof. apply omap_app. Qed.

Lemma Attempt_left m p req g w r g' w' :
  Attempt m p req g w r g' w' → ∃ l, Left 1 p g w r g' w' l.
Proof.
  destruct 1 as [cc ctx k Hc|ctx k Hc Hd|e Hc Hd]; eexists;
    (split; [by eexists|done|done|done|..]); unfold cached_as; simpl.
  - done.
  - done.
  - intros t Ht. by apply elem_of_nil in Ht.
  - intros Hg t Ht. apply list_elem_of_singleton in Ht as ->. by apply Hg.
  - lia.
  - lia.
  - intros b _. exists cc. split; [done|]. intros Hg. by apply Hg.
  - intros a Ha. by apply lookup_insert_ne.
  - intros Hg a cc; simpl. destruct (decide (a = Address p)) as [->|Ha].
    + rewrite lookup_insert_eq. by intros [= <-].
    + rewrite lookup_insert_ne by done. apply Hg.
  - intros t Ht. by apply list_elem_of_singleton in Ht.
  - intros _ t Ht. by apply list_elem_of_singleton in Ht.
  - lia.
  - lia.
  - intros b _. eexists. rewrite lookup_insert_eq. by split.
  - intros a Ha. by apply lookup_insert_ne.
  - intros Hg a cc; simpl. destruct (decide (a = Address p)) as [->|Ha].
    + by rewrite lookup_insert_eq.
    + rewrite lookup_insert_ne by done. apply Hg.
  - intros t Ht. by apply list_elem_of_singleton in Ht.
  - intros _ t Ht. by apply elem_of_nil in Ht.
  - lia.
  - lia.
  - done.
Qed.

Lemma forgotten_coherent p g : coherent g → coherent (forgotten p g).
Proof.
  intros Hg a cc; simpl. intros H. apply lookup_delete_Some in H as [_ H].
  by apply Hg.
Qed.

(** Whatever a unary method leaves behind when it returns; [NewBeacon] may
    have made two attempts, the others one. *)
Lemma call_left m p req g w r g' w' :
  call m p req g w = Ret (r, g', w') →
  ∃ l, Left (if decide (m = MNewBeacon) then 2 else 1) p g w r g' w' l.
Proof.
  destruct (decide (m = MNewBeacon)) as [->|Hm].
  - intros H. apply NewBeacon_attempts in H as [H|(e & g1 & w1 & H1 & _ & H2)].
    + apply Attempt_left in H as [l []]. exists l. split; try done; lia.
    + apply Attempt_left in H1 as [l1 H1], H2 as [l2 H2]. exists (l1 ++ l2).
      destruct H1 as [[k1 ->] ? ? ? Ho1 Hc1 Hd1 Hi1 ? ? _].
      destruct H2 as [[k2 ->] ? ? ? Ho2 Hc2 Hd2 Hi2 ? ? Hr2].
      simpl in *. split.
      * eexists. apply after_after.
      * congruence.
      * congruence.
      * congruence.
      * intros a Ha. rewrite Ho2 by done. simpl.
        rewrite lookup_delete_ne by done. by apply Ho1.
      * intros Hg. by apply Hc2, forgotten_coherent, Hc1.
      * intros t. rewrite dials_app, elem_of_app. intros [?|?]; auto.
      * intros Hg t. rewrite invoked_app, elem_of_app. intros [?|?]; [auto|].
        by apply Hi2; [apply forgotten_coherent, Hc1|].
      * rewrite dials_app, length_app. lia.
      * rewrite invocations_app, length_app. lia.
      * intros b Hb. destruct (Hr2 b Hb) as (cc & ? & Hcc). exists cc.
        split; [done|]. intros Hg. by apply Hcc, forgotten_coherent, Hc1.
  - intros H. by apply call_attempt, Attempt_left in H.
Qed.

Lemma NewGrpcClient_coherent o : coherent (NewGrpcClient o).
Proof. intros a cc. simpl. by rewrite lookup_empty. Qed.

(** X1: once a unary call to a peer has returned a reply, the connection it
    used is kept: the next call of any method but [NewBeacon] to that peer, at
    any later time, returns without dialling, invokes the stub once at the
    address of the peer and leaves the client as it was. *)
Theorem connection_is_reused m p req g w b g' w' m2 req2 w2 :
  coherent g →
  call m p req g w = Ret (inl b, g', w') →
  m2 ≠ MNewBeacon →
  ∃ r2 w3,
    call m2 p req2 g' w2 = Ret (r2, g', w3)
    ∧ dials (new_events w2 w3) = []
    ∧ invoked (new_events w2 w3) = [Address p].
Proof.
  intros Hg Hcall Hm2. apply call_left in Hcall as [l HL].
  destruct (left_reply _ _ _ _ _ _ _ _ HL b eq_refl) as (cc & Hcc & Ht).
  destruct (other_calls_never_redial m2 p req2 g' w2 cc Hm2 Hcc) as [ctx ->].
  eexists _, _. split; [reflexivity|].
  rewrite new_events_app. simpl. by rewrite Ht.
Qed.

(** X2: a dial that fails is cached as a nil connection.  The call that
    dialled returns the error of the dial (for [NewBeacon], when the error is
    no connection error); afterwards every unary call to that peer
    dereferences the nil connection and panics, without dialling again. *)
Theorem failed_dial_is_cached m p req g w e :
  conns g !! Address p = None →
  dialer w (length (trace w)) (Address p) = Some e →
  m ≠ MNewBeacon ∨ Contains e "connection error" = false →
  ∃ g' w',
    call m p req g w = Ret (inr e, g', w')
    ∧ conns g' !! Address p = Some None
    ∧ dials (new_events w w') = [Address p]
    ∧ invocations (new_events w w') = []
    ∧ ∀ m2 req2 w2, call m2 p req2 g' w2 = Panic.
Proof.
  intros Hc Hd Hm.
  exists (cached_as None p g),
         (after 0 [EvDial (Address p) (dial_options g p)] w).
  assert (Hnil : conns (cached_as None p g) !! Address p = Some None)
    by apply lookup_insert_eq.
  assert (H1 : ∀ m', with_deadline m' p req g w =
            Ret (inr e, cached_as None p g,
                 after 0 [EvDial (Address p) (dial_options g p)] w)).
  { intros m'. rewrite (with_deadline_fresh _ _ _ _ _ Hc). simpl.
    by rewrite Hd. }
  split; [|split; [done|split; [by rewrite new_events_after|
           split; [by rewrite new_events_after|]]]].
  - destruct (decide (m = MDistKey)) as [->|Hk].
    { simpl. unfold DistKey, mbind, M_bind at 1.
      rewrite (conn_fresh _ _ _ Hc). simpl. by rewrite Hd. }
    destruct (decide (m = MNewBeacon)) as [->|Hn].
    + destruct Hm as [Hm|He]; [done|].
      simpl. by rewrite NewBeacon_unfold, H1, He.
    + by rewrite (call_with_deadline m Hk Hn).
  - intros m2 req2 w2.
    destruct (decide (m2 = MDistKey)) as [->|Hk].
    { simpl. unfold DistKey, mbind, M_bind at 1.
      by rewrite (conn_cached _ _ _ _ Hnil). }
    destruct (decide (m2 = MNewBeacon)) as [->|Hn].
    + simpl. by rewrite NewBeacon_unfold, (with_deadline_nil _ _ _ _ _ Hnil).
    + rewrite (call_with_deadline m2 Hk Hn).
      apply (with_deadline_nil _ _ _ _ _ Hnil).
Qed.

Lemma session_cons m p req cs g w rs g' w' :
  session ((m, p, req) :: cs) g w = Ret (rs, g', w') →
  ∃ r g1 w1 rs',
    call m p req g w = Ret (r, g1, w1)
    ∧ session cs g1 w1 = Ret (rs', g', w')
    ∧ rs = r :: rs'.
Proof.
  simpl. unfold mbind, M_bind at 1.
  destruct (call m p req g w) as [[[r g1] w1]|]; [|done].
  unfold M_bind.
  destruct (session cs g1 w1) as [[[rs' g2] w2]|] eqn:Hs; [|done].
  unfold mret, M_ret. intros [= <- <- <-]. by eexists _, _, _, _.
Qed.

Lemma session_left cs : ∀ g w rs g' w',
  session cs g w = Ret (rs, g', w') →
  coherent g →
  coherent g' ∧ ∃ k l, w' = after k l w
    ∧ ∀ t, t ∈ dials l ∨ t ∈ invoked l →
        ∃ m p req, (m, p, req) ∈ cs ∧ t = Address p.
Proof.
  induction cs as [|[[m p] req] cs IH]; intros g w rs g' w' H Hg.
  - injection H as <- <- <-. split; [done|]. exists 0, [].
    split; [by rewrite after_0_nil|].
    intros t [Ht|Ht]; by apply elem_of_nil in Ht.
  - apply session_cons in H as (r & g1 & w1 & rs' & Hcall & Hrest & _).
    apply call_left in Hcall as [l1 HL].
    destruct (IH _ _ _ _ _ Hrest (left_coherent _ _ _ _ _ _ _ _ HL Hg))
      as (Hg' & k2 & l2 & -> & Hl2).
    destruct (left_world _ _ _ _ _ _ _ _ HL) as [k1 ->].
    split; [done|]. exists (k2 + k1), (l1 ++ l2).
    split; [apply after_after|].
    intros t. rewrite dials_app, invoked_app, !elem_of_app.
    intros [[Ht|Ht]|[Ht|Ht]].
    + exists m, p, req. split; [left|].
      by apply (left_dials _ _ _ _ _ _ _ _ HL).
    + destruct (Hl2 t (or_introl Ht)) as (m' & p' & req' & ? & ?).
      exists m', p', req'. split; [by right|done].
    + exists m, p, req. split; [left|].
      by apply (left_invoked _ _ _ _ _ _ _ _ HL).
    + destruct (Hl2 t (or_intror Ht)) as (m' & p' & req' & ? & ?).
      exists m', p', req'. split; [by right|done].
Qed.

(** X3: a client talks only to the peers it is asked to reach.  Over any
    session of unary calls on a client whose cached connections are filed
    under their own address (as in a new client, whose cache is empty), every
    address dialled and every address a stub is invoked at is the address of
    the peer of one of the calls; and the cache is left so filed. *)
Theorem session_reaches_only_named_peers cs g w rs g' w' t :
  coherent g →
  session cs g w = Ret (rs, g', w') →
  t ∈ dials (new_events w w') ∨ t ∈ invoked (new_events w w') →
  coherent g' ∧ ∃ m p req, (m, p, req) ∈ cs ∧ t = Address p.
Proof.
  intros Hg H Ht.
  destruct (session_left _ _ _ _ _ _ H Hg) as (Hg' & k & l & -> & Hl).
  rewrite new_events_after in Ht. split; [done|]. by apply Hl.
Qed.

Lemma Attempt_dials m p req g w r g' w' :
  Attempt m p req g w r g' w' →
  ∃ k l, w' = after k l w
    ∧ (dials l = [] ∧ g' = g
       ∨ dials l = [Address p] ∧ conns g !! Address p = None
         ∧ ∃ c, conns g' = <[Address p := c]> (conns g)).
Proof.
  destruct 1 as [cc ctx k Hc|ctx k Hc Hd|e Hc Hd]; eexists _, _;
    (split; [reflexivity|]).
  - by left.
  - right. split; [done|]. split; [done|]. by eexists.
  - right. split; [done|]. split; [done|]. by eexists.
Qed.

Lemma session_dials cs : ∀ g w rs g' w',
  session cs g w = Ret (rs, g', w') →
  (∀ m p req, (m, p, req) ∈ cs → m ≠ MNewBeacon) →
  ∃ k l, w' = after k l w
    ∧ NoDup (dials l)
    ∧ (∀ t, t ∈ dials l → conns g !! t = None)
    ∧ (∀ t, is_Some (conns g !! t) → is_Some (conns g' !! t)).
Proof.
  induction cs as [|[[m p] req] cs IH]; intros g w rs g' w' H Hcs.
  - injection H as <- <- <-. exists 0, []. rewrite after_0_nil.
    split; [done|]. split; [constructor|]. split; [|done].
    intros t Ht. by apply elem_of_nil in Ht.
  - apply session_cons in H as (r & g1 & w1 & rs' & Hcall & Hrest & _).
    apply call_attempt in Hcall; [|apply (Hcs m p req); left].
    apply Attempt_dials in Hcall as (k1 & l1 & -> & Hl1).
    destruct (IH _ _ _ _ _ Hrest) as (k2 & l2 & -> & Hnd & Hnone & Hsome).
    { intros m' p' req' Hin. apply (Hcs m' p' req'). by right. }
    exists (k2 + k1), (l1 ++ l2). split; [apply after_after|].
    rewrite dials_app.
    destruct Hl1 as [[-> ->]|(-> & Hc & c & Hg1)]; simpl.
    + done.
    + split; [|split].
      * constructor; [|done]. intros Hin. apply Hnone in Hin.
        by rewrite Hg1, lookup_insert_eq in Hin.
      * intros t Ht. apply elem_of_cons in Ht as [->|Ht]; [done|].
        apply Hnone in Ht. rewrite Hg1 in Ht.
        by apply lookup_insert_None in Ht as [? _].
      * intros t Ht. apply Hsome. rewrite Hg1.
        destruct (decide (t = Address p)) as [->|Hne].
        -- by rewrite lookup_insert_eq.
        -- by rewrite lookup_insert_ne.
Qed.

(** X4: without [NewBeacon] no address is dialled twice.  Over any session of
    the other unary methods that returns, the dials are pairwise distinct and
    go to addresses the client held no cache entry for. *)
Theorem session_dials_once cs g w rs g' w' :
  (∀ m p req, (m, p, req) ∈ cs → m ≠ MNewBeacon) →
  session cs g w = Ret (rs, g', w') →
  NoDup (dials (new_events w w'))
  ∧ ∀ t, t ∈ dials (new_events w w') → conns g !! t = None.
Proof.
  intros Hcs H.
  destruct (session_dials _ _ _ _ _ _ H Hcs) as (k & l & -> & ? & ? & _).
  by rewrite new_events_after.
Qed.

(** X5: a unary call touches nothing of the client but the cache entry of the
    peer it is made to: the connections held for other addresses, the dial
    options, the timeout and the certificate manager are as before. *)
Theorem call_leaves_other_peers m p req g w r g' w' :
  call m p req g w = Ret (r, g', w') →
  opts g' = opts g ∧ timeout g' = timeout g ∧ manager g' = manager g
  ∧ ∀ a, a ≠ Address p → conns g' !! a = conns g !! a.
Proof.
  intros H. apply call_left in H as [l HL]. by destruct HL.
Qed.

(** X6: a unary call that returns has dialled at most once and invoked the
    stub at most once, except [NewBeacon], which may have done each twice;
    past events are kept and the new ones are appended. *)
Theorem call_bounds m p req g w r g' w' :
  call m p req g w = Ret (r, g', w') →
  let n := if decide (m = MNewBeacon) then 2 else 1 in
  trace w' = trace w ++ new_events w w'
  ∧ length (dials (new_events w w')) ≤ n
  ∧ length (invocations (new_events w w')) ≤ n.
Proof.
  intros H. apply call_left in H as [l HL].
  destruct (left_world _ _ _ _ _ _ _ _ HL) as [k ->].
  rewrite new_events_after. split; [done|]. by destruct HL.
Qed.

(** One attempt reads the clock before it invokes the stub. *)
Lemma with_deadline_read m p req g w r g' w' :
  with_deadline m p req g w = Ret (r, g', w') →
  clock w' = clock w ∧ timeout g' = timeout g ∧ reads w ≤ reads w'
  ∧ ∃ l, trace w' = trace w ++ l
      ∧ ∀ m' ctx, (m', ctx) ∈ invocations l →
          reads w < reads w'
          ∧ Deadline ctx = Some (clock w (reads w) + timeout g)%Z.
Proof.
  destruct (conns g !! Address p) as [[cc|]|] eqn:Hc.
  - rewrite (with_deadline_cached _ _ _ _ _ _ Hc). intros [= <- <- <-]; simpl.
    repeat split; try lia. eexists; split; [reflexivity|].
    intros m' ctx Hin. apply list_elem_of_singleton in Hin.
    injection Hin as -> ->. split; [lia|done].
  - by rewrite (with_deadline_nil _ _ _ _ _ Hc).
  - rewrite (with_deadline_fresh _ _ _ _ _ Hc); simpl.
    destruct (dialer w (length (trace w)) (Address p)).
    + intros [= <- <- <-]; simpl. repeat split; try lia.
      eexists; split; [reflexivity|]. intros m' ctx Hin. simpl in Hin.
      by apply elem_of_nil in Hin.
    + intros [= <- <- <-]; simpl. repeat split; try lia.
      eexists; split; [by rewrite <- app_assoc|]. intros m' ctx Hin.
      simpl in Hin. apply list_elem_of_singleton in Hin.
      injection Hin as -> ->. split; [lia|done].
Qed.

(** X7: [SetTimeout] governs the deadline of the calls that follow it.  Every
    invocation issued by a unary method other than [DistKey] called after
    [SetTimeout t] carries the deadline: a time read during the call, plus
    [t]. *)
Theorem SetTimeout_governs_deadline t m p req g w r g' w' m' ctx :
  m ≠ MDistKey →
  (SetTimeout t;; call m p req) g w = Ret (r, g', w') →
  (m', ctx) ∈ invocations (new_events w w') →
  timeout g' = t
  ∧ ∃ k, reads w ≤ k < reads w' ∧ Deadline ctx = Some (clock w k + t)%Z.
Proof.
  intros Hm Hcall Hin.
  change ((SetTimeout t;; call m p req) g w)
    with (call m p req {| conns := conns g; opts := opts g; timeout := t;
                          manager := manager g |} w) in Hcall.
  split.
  { apply call_left in Hcall as [l HL].
    by rewrite (left_timeout _ _ _ _ _ _ _ _ HL). }
  set (g0 := {| conns := conns g; opts := opts g; timeout := t;
                manager := manager g |}) in *.
  destruct (decide (m = MNewBeacon)) as [->|Hn].
  - simpl in Hcall. rewrite NewBeacon_unfold in Hcall.
    destruct (with_deadline MNewBeacon p req g0 w) as [[[r1 g1] w1]|] eqn:H1;
      [|discriminate Hcall].
    destruct (with_deadline_read _ _ _ _ _ _ _ _ H1)
      as (Hck & Hto & Hrd & l1 & Htr1 & Hl1).
    assert (Hsame : (r, g', w') = (r1, g1, w1) →
              ∃ k, reads w ≤ k < reads w'
                   ∧ Deadline ctx = Some (clock w k + t)%Z).
    { intros [= -> -> ->]. exists (reads w).
      unfold new_events in Hin. rewrite Htr1, drop_app_length in Hin.
      apply Hl1 in Hin as [? ?]. split; [lia|done]. }
    destruct r1 as [b|e]; [by injection Hcall as <- <- <-; apply Hsame|].
    destruct (Contains e "connection error");
      [|by injection Hcall as <- <- <-; apply Hsame].
    destruct (with_deadline_read _ _ _ _ _ _ _ _ Hcall)
      as (_ & _ & Hrd2 & l2 & Htr2 & Hl2).
    simpl in Hl2, Hrd2. unfold new_events in Hin.
    rewrite Htr2, Htr1, <- app_assoc, drop_app_length, invocations_app in Hin.
    apply elem_of_app in Hin as [Hin|Hin].
    + exists (reads w). apply Hl1 in Hin as [? ?]. split; [lia|done].
    + exists (reads w1). apply Hl2 in Hin as [? ->]. split; [lia|].
      by rewrite Hck, Hto.
  - rewrite (call_with_deadline m Hm Hn) in Hcall.
    destruct (with_deadline_read _ _ _ _ _ _ _ _ Hcall)
      as (_ & _ & _ & l & Htr & Hl).
    unfold new_events in Hin. rewrite Htr, drop_app_length in Hin.
    exists (reads w). apply Hl in Hin as [? ?]. split; [lia|done].
Qed.

End connection_cache.

Lemma connection_is_reused_witness :
  ∃ r2 w3,
    net.call net.MGroup sample.peer [] sample.client sample.flaky
      = net.Ret (r2, sample.client, w3)
    ∧ net.dials (net.new_events sample.flaky w3) = []
    ∧ net.invoked (net.new_events sample.flaky w3) = ["127.0.0.1:4444"].
Proof.
  eapply (connection_is_reused net.MPublicRand sample.peer sample.request
            sample.client sample.world).
  - intros a cc H. unfold sample.client in H. simpl in H.
    apply lookup_singleton_Some in H as [<- [= <-]]. reflexivity.
  - vm_compute. reflexivity.
  - discriminate.
Defined.

Lemma failed_dial_is_cached_witness :
  ∃ g' w',
    net.call net.MHome sample.peer sample.request (net.NewGrpcClient [])
        sample.unreachable
      = net.Ret (inr "dial tcp: no route to host", g', w')
    ∧ net.conns g' !! "127.0.0.1:4444" = Some None
    ∧ net.dials (net.new_events sample.unreachable w') = ["127.0.0.1:4444"]
    ∧ net.invocations (net.new_events sample.unreachable w') = []
    ∧ ∀ m2 req2 w2, net.call m2 sample.peer req2 g' w2 = net.Panic.
Proof.
  apply (failed_dial_is_cached net.MHome sample.peer sample.request
           (net.NewGrpcClient []) sample.unreachable
           "dial tcp: no route to host").
  - reflexivity.
  - reflexivity.
  - left. discriminate.
Defined.

Lemma session_reaches_only_named_peers_witness :
  ∃ rs g' w',
    net.session sample.calls (net.NewGrpcClient []) sample.world
      = net.Ret (rs, g', w')
    ∧ net.coherent g'
    ∧ ∃ m p req, (m, p, req) ∈ sample.calls ∧ "10.0.0.2:8080" = net.Address p.
Proof.
  eexists _, _, _. split; [vm_compute; reflexivity|].
  eapply (session_reaches_only_named_peers sample.calls (net.NewGrpcClient [])
            sample.world).
  - apply NewGrpcClient_coherent.
  - vm_compute. reflexivity.
  - right. vm_compute. repeat constructor.
Defined.

Lemma session_dials_once_witness :
  ∃ rs g' w',
    net.session sample.calls (net.NewGrpcClient []) sample.world
      = net.Ret (rs, g', w')
    ∧ NoDup (net.dials (net.new_events sample.world w'))
    ∧ ∀ t, t ∈ net.dials (net.new_events sample.world w') →
        net.conns (net.NewGrpcClient []) !! t = None.
Proof.
  eexists _, _, _. split; [vm_compute; reflexivity|].
  eapply (session_dials_once sample.calls (net.NewGrpcClient []) sample.world).
  - intros m p req Hin. unfold sample.calls in Hin.
    repeat (apply elem_of_cons in Hin as [[= -> _ _]|Hin]; [discriminate|]).
    by apply elem_of_nil in Hin.
  - vm_compute. reflexivity.
Defined.

Lemma call_leaves_other_peers_witness :
  ∃ r g' w',
    net.call net.MPublicRand sample.other_peer sample.request sample.client
        sample.world = net.Ret (r, g', w')
    ∧ net.opts g' = [] ∧ net.timeout g' = net.defaultTimeout
    ∧ net.manager g' = None
    ∧ ∀ a, a ≠ "10.0.0.2:8080" →
        net.conns g' !! a = net.conns sample.client !! a.
Proof.
  eexists _, _, _. split; [vm_compute; reflexivity|].
  eapply (call_leaves_other_peers net.MPublicRand sample.other_peer
            sample.request sample.client sample.world).
  vm_compute. reflexivity.
Defined.

Lemma call_bounds_witness :
  ∃ r g' w',
    net.call net.MNewBeacon sample.peer sample.request sample.client
        sample.flaky = net.Ret (r, g', w')
    ∧ net.trace w' = net.trace sample.flaky ++ net.new_events sample.flaky w'
    ∧ length (net.dials (net.new_events sample.flaky w')) ≤ 2
    ∧ length (net.invocations (net.new_events sample.flaky w')) ≤ 2.
Proof.
  eexists _, _, _. split; [vm_compute; reflexivity|].
  eapply (call_bounds net.MNewBeacon sample.peer sample.request sample.client
            sample.flaky).
  vm_compute. reflexivity.
Defined.

Lemma SetTimeout_governs_deadline_witness :
  ∃ k, net.reads sample.world ≤ k < 1
       ∧ net.Deadline {| net.Deadline := Some 5000001000%Z |}
         = Some (net.clock sample.world k + 5 * net.Second)%Z.
Proof.
  apply (SetTimeout_governs_deadline (5 * net.Second)%Z net.MPublicRand
           sample.peer sample.request sample.client sample.world
           (inl sample.request)
           {| net.conns := net.conns sample.client; net.opts := [];
              net.timeout := (5 * net.Second)%Z; net.manager := None |}
           (net.after 1
              [net.EvInvoke net.MPublicRand sample.connection
                 {| net.Deadline := Some 5000001000%Z |} sample.request]
              sample.world)
           net.MPublicRand {| net.Deadline := Some 5000001000%Z |}).
  - discriminate.
  - vm_compute. reflexivity.
  - vm_compute. repeat constructor.
Defined.

(** *** The public service: resharing requests in sequence *)
Section reshare_requests.
Import core.

Lemma Reshare_unexpected d in_ :
  expected d in_ = false →
  ∃ e, Reshare d in_ = (inr e, d, []).
Proof.
  unfold expected, Reshare. destruct (String.eqb (nextGroupHash d) "");
    simpl; [by eexists|].
  intros ->. by eexists.
Qed.

Lemma Reshare_expected d in_ :
  expected d in_ = true →
  let first := negb (nextFirstReceived d) && nextOldPresent d in
  let d1 := if first then set_nextFirstReceived true d else d in
  Reshare d in_ =
    (match dkg d with
     | None => inr "drand: no dkg setup yet"
     | Some _ => inl tt
     end,
     match dkg d with
     | None => d1
     | Some h =>
         match Dkg in_ with
         | Some pkt =>
             set_dkg (Some (Process pkt h)) (set_nextFirstReceived true d1)
         | None => set_nextFirstReceived true d1
         end
     end,
     if first then [GoStartDKG (nextConf d)] else []).
Proof.
  unfold expected, Reshare. destruct (String.eqb (nextGroupHash d) "");
    simpl; [done|]. intros ->. simpl.
  destruct (negb (nextFirstReceived d) && nextOldPresent d); simpl;
    destruct (dkg d); try done; by destruct (Dkg in_).
Qed.

(** [Reshare] never touches what the next group is nor whether the node is in
    the old group; what it starts, and when the first packet counts as
    received. *)
Lemma Reshare_keeps d in_ :
  let d' := (Reshare d in_).1.2 in
  nextGroupHash d' = nextGroupHash d ∧ nextOldPresent d' = nextOldPresent d
  ∧ nextConf d' = nextConf d
  ∧ nextFirstReceived d'
    = nextFirstReceived d
      || expected d in_
         && (nextOldPresent d || bool_decide (is_Some (dkg d)))
  ∧ (Reshare d in_).2
    = if expected d in_ && negb (nextFirstReceived d) && nextOldPresent d
      then [GoStartDKG (nextConf d)] else [].
Proof.
  destruct (expected d in_) eqn:He.
  - rewrite (Reshare_expected _ _ He); simpl.
    destruct (nextFirstReceived d) eqn:Hf, (nextOldPresent d) eqn:Ho,
      (dkg d), (Dkg in_); simpl; rewrite ?Hf, ?Ho; auto 10.
  - destruct (Reshare_unexpected _ _ He) as [e ->]; simpl.
    rewrite orb_false_r. auto 10.
Qed.

Lemma Reshare_all_cons d in_ ins :
  Reshare_all d (in_ :: ins) =
    ((Reshare d in_).1.1 :: (Reshare_all (Reshare d in_).1.2 ins).1.1,
     (Reshare_all (Reshare d in_).1.2 ins).1.2,
     (Reshare d in_).2 ++ (Reshare_all (Reshare d in_).1.2 ins).2).
Proof.
  simpl. destruct (Reshare d in_) as [[r d1] s1]; simpl.
  by destruct (Reshare_all d1 ins) as [[rs d2] s2].
Qed.

Lemma expected_ext d d' ins :
  nextGroupHash d' = nextGroupHash d →
  existsb (expected d') ins = existsb (expected d) ins.
Proof.
  intros H. induction ins as [|in_ ins IH]; [done|]. simpl.
  f_equal; [|done]. unfold expected. by rewrite H.
Qed.

(** X8: however many requests [Reshare] serves, [StartDKG] is started at
    most once.  It is started, with the configuration the node holds, exactly
    when the node is in the old group, had not received a first packet yet,
    and one of the requests is for the group it expects. *)
Theorem Reshare_starts_dkg_once d ins :
  (Reshare_all d ins).2 =
    if negb (nextFirstReceived d) && nextOldPresent d
       && existsb (expected d) ins
    then [GoStartDKG (nextConf d)] else [].
Proof.
  revert d. induction ins as [|in_ ins IH]; intros d.
  - simpl. by rewrite andb_false_r.
  - rewrite Reshare_all_cons. cbn [snd]. rewrite IH.
    destruct (Reshare_keeps d in_) as (Hh & Ho & Hc & Hf & Hs).
    cbn zeta in Hh, Ho, Hc, Hf, Hs.
    rewrite Hs, Hf, Ho, Hc, (expected_ext d _ ins Hh). cbn [existsb].
    by destruct (nextFirstReceived d), (nextOldPresent d), (expected d in_),
      (existsb (expected d) ins), (bool_decide (is_Some (dkg d))).
Qed.

Lemma Reshare_handled d in_ :
  handled (Reshare d in_).1.2
  = handled d ++ answered [(Reshare d in_).1.1] [in_].
Proof.
  destruct (expected d in_) eqn:He.
  - rewrite (Reshare_expected _ _ He); cbn [fst snd]. unfold handled.
    destruct (dkg d) as [h|] eqn:Hd, (Dkg in_) as [pkt|] eqn:Hp,
      (negb (nextFirstReceived d) && nextOldPresent d);
      simpl; by rewrite ?Hd, ?Hp, ?app_nil_r.
  - destruct (Reshare_unexpected _ _ He) as [e ->]. simpl.
    by rewrite app_nil_r.
Qed.

Lemma answered_cons r rs in_ ins :
  answered (r :: rs) (in_ :: ins) = answered [r] [in_] ++ answered rs ins.
Proof. destruct r; simpl; by destruct (Dkg in_). Qed.

(** X9: the DKG handler sees exactly the payloads of the requests that
    [Reshare] answered without an error, in the order of the requests, after
    what it had processed before; a refused request hands it nothing, and an
    accepted payload is not dropped. *)
Theorem Reshare_processes_answered d ins :
  handled (Reshare_all d ins).1.2
  = handled d ++ answered (Reshare_all d ins).1.1 ins.
Proof.
  revert d. induction ins as [|in_ ins IH]; intros d.
  - simpl. by rewrite app_nil_r.
  - rewrite Reshare_all_cons. cbn [fst snd].
    by rewrite IH, answered_cons, Reshare_handled, app_assoc.
Qed.

End reshare_requests.

(** *** The command line: addresses, ports and the configuration *)
Section command_line.
Import cli.

Variable FS : Type.
Variable LoadKeyPair : string → FS → Pair + error.
Variable SaveKeyPair : string → Pair → FS → FS * option error.
Variable NewKeyPair : string → Pair.
Variable NewTLSKeyPair : string → Pair.
Variable DefaultConfigFolder : string.
Variable Files : string → list string + error.
Variable Join : string → string → string.
Variable Abs : string → string + error.
Variable EncodeTOML : Identity → string + error.

Local Abbreviation keygen :=
  (keygenCmd FS LoadKeyPair SaveKeyPair NewKeyPair NewTLSKeyPair
     DefaultConfigFolder Files Join Abs EncodeTOML).

Lemma validID_port (pre digits : string) :
  digits ≠ "" → all_digits digits = true →
  validID (pre +:+ ":" +:+ digits) = true.
Proof.
  intros Hne Hd. induction pre as [|c pre IH]; simpl.
  - change ("" +:+ digits) with digits.
    rewrite Hd. apply String_eqb_false in Hne. by rewrite Hne.
  - rewrite IH. apply orb_true_r.
Qed.

(** X10: an address is taken as it is, without asking for a port, exactly
    when it ends in a colon followed by one decimal digit or more. *)
Theorem validID_iff (s : string) :
  validID s = true
  ↔ ∃ pre digits,
      s = pre +:+ ":" +:+ digits ∧ digits ≠ "" ∧ all_digits digits = true.
Proof.
  split.
  - induction s as [|c rest IH]; simpl; [done|].
    intros H. apply orb_true_iff in H as [H|H].
    + apply andb_true_iff in H as [H Hd]. apply andb_true_iff in H as [Hc Hne].
      apply Ascii.eqb_eq in Hc as ->. apply negb_true_iff in Hne.
      apply String_eqb_false in Hne. by exists "", rest.
    + destruct (IH H) as (pre & digits & -> & ? & ?).
      by exists (String c pre), digits.
  - intros (pre & digits & -> & Hne & Hd). by apply validID_port.
Qed.

(** X11: the port [askPort] returns is the default one, after an empty
    entry, or an entry of three or four characters that [strconv.Atoi]
    accepts; so no port of five digits can be chosen, while a signed number
    can.  The address completed with a port made of digits is a valid one. *)
Theorem askPort_port stdin port :
  askPort stdin = Some port →
  (port = defaultPort ∧ Some "" ∈ stdin
   ∨ Some port ∈ stdin ∧ 3 ≤ String.length port ≤ 4 ∧ Atoi_ok port = true)
  ∧ (all_digits port = true →
     ∀ addr, validID (addr +:+ ":" +:+ port) = true).
Proof.
  intros H.
  assert (Hshape : port = defaultPort ∧ Some "" ∈ stdin
    ∨ Some port ∈ stdin ∧ 3 ≤ String.length port ≤ 4 ∧ Atoi_ok port = true).
  { induction stdin as [|[p|] rest IH]; simpl in H; [done| |].
    - destruct (String.eqb p "") eqn:He.
      + apply String_eqb_true in He as ->. injection H as <-.
        left. split; [done|left].
      + destruct ((2 <? String.length p) && (String.length p <? 5)
                  && Atoi_ok p) eqn:Hp.
        * injection H as <-. right.
          apply andb_true_iff in Hp as [Hl Ha].
          apply andb_true_iff in Hl as [Hl1 Hl2].
          apply Nat.ltb_lt in Hl1, Hl2. split; [left|]. split; [lia|done].
        * destruct (IH H) as [[? ?]|[? ?]];
            [left; split; [done|by right]|right; split; [by right|done]].
    - destruct (IH H) as [[? ?]|[? ?]];
        [left; split; [done|by right]|right; split; [by right|done]]. }
  split; [done|]. intros Hd addr. apply validID_port; [|done].
  destruct Hshape as [[-> _]|(_ & Hl & _)]; [done|].
  intros ->. simpl in Hl. lia.
Qed.


(** X13: without a key pair in the folder, [generate-keypair] saves a new
    one there, made for the address given when it carries a port and else for
    that address completed with the port asked for, with TLS unless it is
    disabled; when saving fails the command exits with status 1. *)
Theorem keygenCmd_saves_for_address c stdin fs first rest e conf addr :
  Args c = first :: rest →
  (if validID first then addr = first
   else ∃ port, askPort stdin = Some port ∧ addr = first +:+ ":" +:+ port) →
  contextToConfig Files c = Some conf →
  LoadKeyPair (folder c) fs = inr e →
  let kp := if tls_disable c then NewKeyPair addr else NewTLSKeyPair addr in
  (keygen c stdin fs).1.2 = (SaveKeyPair (folder c) kp fs).1
  ∧ (is_Some (SaveKeyPair (folder c) kp fs).2 →
     (keygen c stdin fs).1.1 = OsExit 1).
Proof.
  intros Hargs Haddr Hc Hload kp. subst kp. unfold keygenCmd. rewrite Hargs.
  assert (Hdir := ConfigFolder_contextToConfig DefaultConfigFolder Files c
                    conf Hc).
  destruct (validID first).
  - subst addr.
    destruct (tls_disable c); simpl; rewrite Hc; simpl; rewrite Hdir, Hload;
      destruct (SaveKeyPair _ _ fs) as [fs' [err|]]; simpl;
      (split; [|try done; by intros [? [=]]]);
      repeat (case_match; simpl); done.
  - destruct Haddr as (port & -> & ->).
    destruct (tls_disable c); simpl; rewrite Hc; simpl; rewrite Hdir, Hload;
      destruct (SaveKeyPair _ _ fs) as [fs' [err|]]; simpl;
      (split; [|try done; by intros [? [=]]]);
      repeat (case_match; simpl); done.
Qed.

End command_line.

Lemma askPort_port_witness :
  (("-80" = cli.defaultPort ∧ Some "" ∈ [Some "65535"; None; Some "-80"])
   ∨ Some "-80" ∈ [Some "65535"; None; Some "-80"]
     ∧ 3 ≤ String.length "-80" ≤ 4 ∧ cli.Atoi_ok "-80" = true)
  ∧ (cli.all_digits "-80" = true →
     ∀ addr, cli.validID (addr +:+ ":" +:+ "-80") = true).
Proof.
  apply (askPort_port [Some "65535"; None; Some "-80"] "-80"). reflexivity.
Defined.

Lemma keygenCmd_saves_for_address_witness :
  (cli.keygenCmd (option cli.Pair) sample.LoadKeyPair sample.SaveKeyPair
     (sample.NewKeyPair false) (sample.NewKeyPair true) "/root/.drand"
     (λ _, inl []) (λ a b, a +:+ "/" +:+ b) inl (λ _, inl "")
     sample.keygen_context [Some "4444"] None).1.2
  = Some (sample.NewKeyPair true "10.0.0.1:4444").
Proof.
  apply (keygenCmd_saves_for_address (option cli.Pair)
           sample.LoadKeyPair sample.SaveKeyPair
           (sample.NewKeyPair false) (sample.NewKeyPair true) "/root/.drand"
           (λ _, inl []) (λ a b, a +:+ "/" +:+ b) inl (λ _, inl "")
           sample.keygen_context [Some "4444"] None "10.0.0.1" []
           "open: no such file or directory"
           [cli.WithLogLevel false; cli.WithConfigFolder "/home/drand/.drand";
            cli.WithTLS "" ""]
           "10.0.0.1:4444").
  - reflexivity.
  - simpl. by exists "4444".
  - reflexivity.
  - reflexivity.
Defined.

(** *** The command line: [group] *)
Section group_command.
Import cli.

Variable FS : Type.
Variable LoadIdentity : string → FS → Identity + error.
Variable LoadGroup : string → FS → Group + error.
Variable SaveGroup : string → Group → FS → FS * option error.
Variable NewGroup : list Identity → Z → Z → Group.
Variable DefaultThreshold : nat → Z.
Variable GetGenesisSeed : Group → bytes.
Variable EncodeGroupTOML : Group → string + error.
Variable DefaultBeaconPeriod : Z.
Variable ParseDuration : string → Z + error.
Variable TimeString : Z → string.
Variable now : nat → Z.

Local Abbreviation group :=
  (groupCmd FS LoadIdentity LoadGroup SaveGroup NewGroup DefaultThreshold
     GetGenesisSeed EncodeGroupTOML DefaultBeaconPeriod ParseDuration
     TimeString now).
Local Abbreviation out_written := (written FS SaveGroup EncodeGroupTOML).

Lemma getThreshold_ok c f t :
  getThreshold DefaultThreshold c f = inl t →
  (DefaultThreshold (length (Args c)) ≤ t)%Z.
Proof.
  unfold getThreshold. destruct (flag_threshold f) as [l|].
  - destruct (l <? _)%Z eqn:Hl; [done|]. intros [= <-].
    by apply Z.ltb_ge in Hl.
  - by intros [= <-].
Qed.

Lemma getPublicKeys_from_ok args : ∀ i fs publics lines,
  getPublicKeys_from FS LoadIdentity i args fs = (inl publics, lines) →
  Forall2 (λ str id, LoadIdentity str fs = inl id) args publics.
Proof.
  induction args as [|str rest IH]; intros i fs publics lines; simpl.
  - intros [= <- _]. constructor.
  - destruct (LoadIdentity str fs) as [pub|err] eqn:Hl; [|done].
    destruct (getPublicKeys_from _ _ (S i) rest fs) as [[ps|msg] out] eqn:Hr;
      [|done].
    intros [= <- _]. constructor; [done|]. by eapply IH.
Qed.

Lemma groupOut_written f g fs out fs' out' :
  groupOut FS SaveGroup EncodeGroupTOML f g fs out = (Return None, fs', out') →
  out_written f g fs fs' out'.
Proof.
  unfold groupOut, written. destruct (flag_out f) as [path|].
  - destruct (SaveGroup path g fs) as [fs1 [err|]]; [done|].
    by intros [= <- _].
  - destruct (EncodeGroupTOML g) as [toml|err]; [|done].
    intros [= <- <-]. split; [done|]. exists toml. split; [done|].
    by rewrite last_app.
Qed.

(** X14: the [group] command writes a new group only past its guards.  When
    it returns without an error and no old group was given, then it had three
    key files or more, it loaded one identity from each of them, in order,
    the threshold is not below the default one for that many nodes, the
    genesis time is later than the clock read after it was fixed, and the
    group written is the one made of these, with the period of [--period] or
    the default one. *)
Theorem groupCmd_guards c f fs fs' out :
  flag_from f = None →
  group c f fs = (Return None, fs', out) →
  ∃ publics threshold genesis period k,
    3 ≤ length (Args c)
    ∧ Forall2 (λ str id, LoadIdentity str fs = inl id) (Args c) publics
    ∧ (DefaultThreshold (length (Args c)) ≤ threshold)%Z
    ∧ (Unix (now k) < genesis)%Z
    ∧ match flag_period f with
      | Some str => ParseDuration str = inl period
      | None => period = DefaultBeaconPeriod
      end
    ∧ out_written f (set_Period period (NewGroup publics threshold genesis))
        fs fs' out.
Proof.
  intros Hfrom. unfold groupCmd. rewrite Hfrom.
  rewrite (bool_decide_eq_false_2 (is_Some None)) by by intros [? [=]].
  simpl. rewrite andb_true_r.
  destruct (bool_decide (Args c = []) || (length (Args c) <? 3)) eqn:Hn;
    [done|].
  apply orb_false_iff in Hn as [_ Hn]. apply Nat.ltb_ge in Hn.
  destruct (getThreshold _ c f) as [threshold|msg] eqn:Ht; [|done].
  destruct (getPublicKeys _ _ c fs) as [[publics|msg] lines] eqn:Hp; [|done].
  set (period := match flag_period f with
                 | Some str => ParseDuration str
                 | None => inl DefaultBeaconPeriod
                 end).
  destruct period as [p|err] eqn:Hperiod; [|done].
  destruct (getStartIn ParseDuration now f 0) as [r k] eqn:Hs.
  set (genesis := match r with
                  | inl t => inl t
                  | inr _ => match flag_genesis f with
                             | None => inr _
                             | Some t => inl t
                             end
                  end).
  destruct genesis as [g|msg] eqn:Hg; [|done].
  destruct (g <=? Unix (now k))%Z eqn:Hnow; [done|].
  intros Hout. apply groupOut_written in Hout.
  exists publics, threshold, g, p, k. split; [done|].
  split; [by eapply getPublicKeys_from_ok|].
  split; [by apply (getThreshold_ok c f)|].
  split; [by apply Z.leb_gt in Hnow|].
  split; [|done]. subst period. destruct (flag_period f); congruence.
Qed.

(** X15: a group made from an old one is made by [key.NewGroup] of the
    identities loaded, a threshold not below the default one and the genesis
    time of the old group; it is given the period of the old group and the
    seed that [GetGenesisSeed] returns for it.  But the transition time it is
    written with is the value of [--transition], which is 0 when the flag is
    not given, whatever time was worked out from [--start-in] and checked to
    lie ahead. *)
Theorem groupReshareCmd_group c f fs fs' out path :
  flag_from f = Some path →
  group c f fs = (Return None, fs', out) →
  ∃ old newNodes newT g,
    LoadGroup path fs = inl old
    ∧ GenesisSeed old ≠ []
    ∧ Forall2 (λ str id, LoadIdentity str fs = inl id) (Args c) newNodes
    ∧ (DefaultThreshold (length (Args c)) ≤ newT)%Z
    ∧ g = set_TransitionTime (default 0%Z (flag_transition f))
            (set_GenesisSeed (GetGenesisSeed old)
               (set_Period (Period old)
                  (NewGroup newNodes newT (GenesisTime old))))
    ∧ Period g = Period old
    ∧ GenesisSeed g = GetGenesisSeed old
    ∧ TransitionTime g = default 0%Z (flag_transition f)
    ∧ out_written f g fs fs' out.
Proof.
  intros Hfrom. unfold groupCmd. rewrite Hfrom.
  rewrite (bool_decide_eq_true_2 (is_Some (Some path))) by by eexists.
  simpl. rewrite andb_false_r, orb_false_r.
  destruct (bool_decide (Args c = [])); [done|].
  unfold groupReshareCmd. rewrite Hfrom.
  destruct (getStartIn ParseDuration now f 0) as [r k] eqn:Hs.
  set (checked := match r with
                  | inl t => inl t
                  | inr _ => match flag_transition f with
                             | None => inr _
                             | Some t => inl t
                             end
                  end).
  destruct checked as [t|msg]; [|done].
  destruct (t <=? Unix (now k))%Z; [done|]. simpl.
  destruct (LoadGroup path fs) as [old|err] eqn:Hl; [|done].
  destruct (length (GenesisSeed old) =? 0) eqn:Hseed; [done|].
  destruct (getThreshold _ c f) as [newT|msg] eqn:Ht; [|done].
  destruct (getPublicKeys _ _ c fs) as [[newNodes|msg] lines] eqn:Hp; [|done].
  intros Hout. apply groupOut_written in Hout.
  eexists old, newNodes, newT, _. split; [done|].
  split. { intros E. by rewrite E in Hseed. }
  split; [by eapply getPublicKeys_from_ok|].
  split; [by apply (getThreshold_ok c f)|].
  split; [reflexivity|]. by repeat split.
Qed.

End group_command.

Lemma groupCmd_guards_witness :
  ∃ publics threshold genesis period,
    (2 ≤ threshold)%Z ∧ (1599999000 < genesis)%Z
    ∧ cli.written unit sample.SaveGroup (λ _, inl "") sample.group_flags
        (cli.set_Period period (sample.NewGroup publics threshold genesis))
        tt sample.group_run.1.2 sample.group_run.2.
Proof.
  destruct (groupCmd_guards unit sample.LoadIdentity (λ _ _, inl sample.cli_group)
              sample.SaveGroup sample.NewGroup sample.DefaultThreshold
              cli.GenesisSeed (λ _, inl "") 60000000000%Z sample.ParseDuration
              (λ _, "") sample.now sample.group_context sample.group_flags tt
              sample.group_run.1.2 sample.group_run.2 eq_refl)
    as (publics & threshold & genesis & period & k & _ & _ & Ht & Hg & _ & Hw).
  - vm_compute. reflexivity.
  - by exists publics, threshold, genesis, period.
Defined.

Lemma groupReshareCmd_group_witness :
  ∃ g,
    cli.TransitionTime g = 0%Z
    ∧ cli.Period g = cli.Period sample.cli_group
    ∧ cli.written unit sample.SaveGroup (λ _, inl "") sample.reshare_flags g
        tt sample.reshare_run.1.2 sample.reshare_run.2.
Proof.
  destruct (groupReshareCmd_group unit sample.LoadIdentity
              (λ _ _, inl sample.cli_group)
              sample.SaveGroup sample.NewGroup sample.DefaultThreshold
              cli.GenesisSeed (λ _, inl "") 60000000000%Z sample.ParseDuration
              (λ _, "") sample.now sample.group_context sample.reshare_flags tt
              sample.reshare_run.1.2 sample.reshare_run.2 "group.toml" eq_refl)
    as (old & newNodes & newT & g & Hl & _ & _ & _ & _ & Hp & _ & Ht & Hw).
  - vm_compute. reflexivity.
  - injection Hl as <-. by exists g.
Defined.

(** *** The command line: [check-group] *)
Section check_group.
Import cli.

Variable FS : Type.
Variable Open : string → FS → option error.
Variable Stat_Size : string → FS → Z + error.
Variable LoadGroup : string → FS → Group + error.
Variable Files : string → list string + error.
Variable Certs : list ConfigOption → net.CertManager.

(** A world in which every dial succeeds and every invocation is answered. *)
Local Abbreviation healthy w :=
  ((∀ k t, net.dialer w k t = None)
   ∧ ∀ k m t req, ∃ b, net.server w k m t req = inl b).

(** [Home] on a client that was just made: one dial, one invocation at most,
    and no panic. *)
Lemma Home_new_client mgr id w :
  ∃ r g' k l,
    net.Home (Identity_Peer id) []
      (net.NewGrpcClientFromCertManager mgr []) w
      = net.Ret (r, g', net.after k l w)
    ∧ net.dials l = [Addr id]
    ∧ length (net.invocations l) ≤ 1
    ∧ (∀ b, r = inl b → length (net.invocations l) = 1)
    ∧ (healthy w → ∃ b, r = inl b).
Proof.
  change (net.Home (Identity_Peer id) []) with
    (net.with_deadline net.MHome (Identity_Peer id) []).
  rewrite with_deadline_fresh by apply lookup_empty. simpl.
  destruct (net.dialer w (length (net.trace w)) (Addr id)) as [e|] eqn:Hd.
  - eexists _, _, 0, [_]. split; [reflexivity|]. simpl.
    split; [done|]. split; [lia|]. split; [done|].
    intros [Hdial _]. by rewrite Hdial in Hd.
  - eexists _, _, 1, [_; _]. split.
    { unfold net.after. simpl. by rewrite <- app_assoc. }
    simpl. split; [done|]. split; [lia|]. split; [done|].
    intros [_ Hserver]. apply Hserver.
Qed.

Lemma checkGroup_nodes_spec mgr nodes : ∀ allGood invalidIds out w,
  ∃ bad out' k l,
    checkGroup_nodes mgr nodes allGood invalidIds out w
      = inl (allGood && bool_decide (bad = []), invalidIds ++ bad,
             out ++ out', net.after k l w)
    ∧ net.dials l = map Addr nodes
    ∧ sublist bad (map Addr nodes)
    ∧ length out' = length nodes
    ∧ (bad = [] → length (net.invocations l) = length nodes)
    ∧ (healthy w → bad = []).
Proof.
  induction nodes as [|id rest IH]; intros allGood invalidIds out w.
  - exists [], [], 0, []. simpl.
    by rewrite andb_true_r, !app_nil_r, after_0_nil.
  - simpl. destruct (Home_new_client mgr id w)
      as (r & g' & k1 & l1 & -> & Hd1 & Hi1 & Hr1 & Hh1).
    destruct r as [b|err].
    + destruct (IH allGood invalidIds
                  (out ++ ["drand: id " +:+ Addr id +:+ " answers correctly"])
                  (net.after k1 l1 w))
        as (bad & out' & k2 & l2 & -> & Hd2 & Hs2 & Ho2 & Hi2 & Hh2).
      exists bad, (("drand: id " +:+ Addr id +:+ " answers correctly")
                   :: out'), (k2 + k1), (l1 ++ l2).
      rewrite after_after, <- app_assoc. split; [done|].
      rewrite dials_app, invocations_app, length_app, Hd1, Hd2.
      split; [done|]. split; [by apply sublist_cons|].
      split; [simpl; lia|].
      split; [intros Hb; rewrite (Hi2 Hb), (Hr1 b eq_refl); simpl; lia|].
      intros Hw. by apply Hh2.
    + destruct (IH false (invalidIds ++ [Addr id])
                  (out ++ ["drand: error checking id " +:+ Addr id +:+ ": "
                           +:+ err])
                  (net.after k1 l1 w))
        as (bad & out' & k2 & l2 & -> & Hd2 & Hs2 & Ho2 & Hi2 & Hh2).
      exists (Addr id :: bad),
        (("drand: error checking id " +:+ Addr id +:+ ": " +:+ err) :: out'),
        (k2 + k1), (l1 ++ l2).
      rewrite after_after, <- !app_assoc. simpl. rewrite andb_false_r.
      split; [done|].
      rewrite dials_app, Hd1, Hd2.
      split; [done|]. split; [by apply sublist_skip|].
      split; [simpl; lia|]. split; [done|].
      intros Hw. by destruct (Hh1 Hw).
Qed.

(** X16: [check-group] asks every node of the group once.  With a group file
    that loads, the command returns and does not panic; it has dialled the
    nodes one by one in the order of the group, each over a connection of
    its own, and printed a line for each.  It returns no error only if [Home]
    was invoked on every node, and always when all dials succeed and all
    invocations are answered; the error it returns otherwise names, in
    order, some of the addresses of the group. *)
Theorem checkGroup_asks_every_node c fs w path rest conf group :
  Args c = path :: rest →
  contextToConfig Files c = Some conf →
  testEmptyGroup FS Open Stat_Size path fs = None →
  LoadGroup path fs = inl group →
  ∃ r out w',
    checkGroup FS Open Stat_Size LoadGroup Files Certs c fs w
      = (Return r, out, w')
    ∧ net.dials (net.new_events w w') = map Addr (Nodes group)
    ∧ length out = length (Nodes group)
    ∧ (r = None →
       length (net.invocations (net.new_events w w')) = length (Nodes group))
    ∧ (healthy w → r = None)
    ∧ (∀ e, r = Some e →
       ∃ bad, bad ≠ [] ∧ sublist bad (map Addr (Nodes group))
              ∧ e = "Following nodes don't answer: "
                    +:+ strings_Join bad " ,").
Proof.
  intros Hargs Hconf Hempty Hload. unfold checkGroup.
  rewrite Hargs, Hconf, Hempty, Hload.
  destruct (checkGroup_nodes_spec (Certs conf) (Nodes group) true [] [] w)
    as (bad & out' & k & l & -> & Hd & Hs & Ho & Hi & Hh).
  simpl. destruct bad as [|a bad]; simpl.
  - eexists None, _, _. split; [reflexivity|]. rewrite new_events_after.
    split; [done|]. split; [done|]. split; [by intros _; apply Hi|].
    split; [done|]. by intros e [=].
  - eexists (Some _), _, _. split; [reflexivity|]. rewrite new_events_after.
    split; [done|]. split; [done|]. split; [done|].
    split; [by intros Hw; specialize (Hh Hw)|].
    intros e [= <-]. by exists (a :: bad).
Qed.

End check_group.

Lemma checkGroup_asks_every_node_witness :
  ∃ r out w',
    cli.checkGroup unit (λ _ _, None) (λ _ _, inl 120%Z)
        (λ _ _, inl sample.cli_group) (λ _, inl [])
        (λ _, net.mkCertManager []) sample.check_context tt sample.unreachable
      = (cli.Return r, out, w')
    ∧ net.dials (net.new_events sample.unreachable w')
      = ["10.0.0.1:8080"; "10.0.0.2:8080"]
    ∧ r = Some "Following nodes don't answer: 10.0.0.1:8080 ,10.0.0.2:8080".
Proof.
  destruct (checkGroup_asks_every_node unit (λ _ _, None) (λ _ _, inl 120%Z)
              (λ _ _, inl sample.cli_group) (λ _, inl [])
              (λ _, net.mkCertManager []) sample.check_context tt
              sample.unreachable "group.toml" []
              [cli.WithLogLevel false;
               cli.WithConfigFolder "/home/drand/.drand"; cli.WithInsecure]
              sample.cli_group eq_refl eq_refl eq_refl eq_refl)
    as (r & out & w' & Hrun & Hd & _).
  exists r, out, w'. split; [exact Hrun|]. split; [exact Hd|].
  vm_compute in Hrun. by injection Hrun as <- _ _.
Defined.

(** *** The demo: the orchestrator *)
Section orchestrator.
Import demo.

(** A loop that appends to a slice. *)
Lemma foldl_append {A B} (step : list B → A → list B) (f : A → list B) :
  (∀ acc x, step acc x = acc ++ f x) →
  ∀ l acc, foldl step acc l = acc ++ concat (map f l).
Proof.
  intros Hstep. induction l as [|x l IH]; intros acc; simpl.
  - by rewrite app_nil_r.
  - by rewrite IH, Hstep, <- app_assoc.
Qed.

Lemma foldl_append2 {A B C} (step : list B * list C → A → list B * list C)
    (f : A → B) (g : A → C) :
  (∀ xs ys a, step (xs, ys) a = (xs ++ [f a], ys ++ [g a])) →
  ∀ l xs ys, foldl step (xs, ys) l = (xs ++ map f l, ys ++ map g l).
Proof.
  intros Hstep. induction l as [|x l IH]; intros xs ys; simpl.
  - by rewrite !app_nil_r.
  - by rewrite Hstep, IH, <- !app_assoc.
Qed.

Lemma concat_map_if {A B} (P : A → bool) (f : A → B) (l : list A) :
  concat (map (λ x, if P x then [f x] else []) l)
  = map f (filter (λ x, P x = true) l).
Proof.
  induction l as [|x l IH]; [done|]. simpl. rewrite IH.
  rewrite filter_cons. by destruct (P x).
Qed.

Lemma elem_of_concat {A} (x : A) (ls : list (list A)) :
  x ∈ concat ls ↔ ∃ l, x ∈ l ∧ l ∈ ls.
Proof.
  induction ls as [|l ls IH]; simpl.
  - split; [intros H; by apply elem_of_nil in H|].
    intros (l & _ & H). by apply elem_of_nil in H.
  - rewrite elem_of_app, IH. split.
    + intros [H|(l' & ? & ?)]; [exists l; split; [done|left]|].
      exists l'. split; [done|by right].
    + intros (l' & Hx & Hl). apply elem_of_cons in Hl as [->|Hl]; [by left|].
      right. by exists l'.
Qed.

Lemma isExcluded_spec exclude node :
  isExcluded exclude node = true ↔ i node ∈ exclude.
Proof.
  induction exclude as [|x rest IH]; simpl.
  - split; [done|]. intros H. by apply elem_of_nil in H.
  - rewrite elem_of_cons. destruct (Z.eqb_spec x (i node)) as [->|Hne].
    + split; auto.
    + rewrite IH. split; [auto|]. intros [?|?]; [congruence|done].
Qed.

Lemma filterNodes_filter l exclude :
  filterNodes l exclude = filter (λ node, i node ∉ exclude) l.
Proof.
  unfold filterNodes.
  rewrite (foldl_append _ (λ node, if negb (isExcluded exclude node)
                                   then [node] else [])).
  - simpl. rewrite (concat_map_if (λ node, negb (isExcluded exclude node)) id).
    rewrite list_fmap_id. apply list_filter_iff. intros node.
    rewrite negb_true_iff, <- not_true_iff_false. by rewrite isExcluded_spec.
  - intros acc node. destruct (negb _); by rewrite ?app_nil_r.
Qed.

(** X17: [filterNodes] keeps, in their order, exactly the nodes whose index
    is not excluded; filtering the result again is filtering once by both
    lists of indices. *)
Theorem filterNodes_keeps l a b :
  (∀ node, node ∈ filterNodes l a ↔ node ∈ l ∧ i node ∉ a)
  ∧ filterNodes l a `sublist_of` l
  ∧ filterNodes (filterNodes l a) b = filterNodes l (a ++ b).
Proof.
  rewrite !filterNodes_filter. split; [|split].
  - intros node. rewrite list_elem_of_filter. tauto.
  - apply sublist_filter.
  - rewrite list_filter_filter. apply list_filter_iff. intros node.
    rewrite elem_of_app. tauto.
Qed.

Lemma StopNode_filter e idx :
  StopNode e idx = map Stop (filter (λ node, i node = idx) (nodes e)).
Proof.
  unfold StopNode.
  rewrite (foldl_append _ (λ node, if (i node =? idx)%Z
                                   then [Stop node] else [])).
  - simpl. rewrite (concat_map_if (λ node, (i node =? idx)%Z) Stop).
    f_equal. apply list_filter_iff. intros node. apply Z.eqb_eq.
  - intros acc node. destruct (_ =? _)%Z; by rewrite ?app_nil_r.
Qed.

Lemma StopAllNodes_concat e toExclude :
  StopAllNodes e toExclude
  = concat (map (λ node, StopNode e (i node))
              (filterNodes (nodes e) toExclude)).
Proof. unfold StopAllNodes. by rewrite (foldl_append _ _ (λ _ _, eq_refl)). Qed.

Lemma stopped_map_Stop l : stopped (map Stop l) = l.
Proof. induction l as [|x l IH]; [done|]. simpl. by f_equal. Qed.

Lemma stopped_app ev1 ev2 : stopped (ev1 ++ ev2) = stopped ev1 ++ stopped ev2.
Proof. apply omap_app. Qed.

Lemma filter_none {A} (P : A → Prop) `{∀ x, Decision (P x)} (l : list A) :
  (∀ x, x ∈ l → ¬ P x) → filter P l = [].
Proof.
  induction l as [|x l IH]; intros Hl; [done|]. rewrite filter_cons.
  rewrite decide_False by (apply Hl; left). apply IH. intros y Hy.
  apply Hl. by right.
Qed.

Lemma filter_all {A} (P : A → Prop) `{∀ x, Decision (P x)} (l : list A) :
  (∀ x, x ∈ l → P x) → filter P l = l.
Proof.
  induction l as [|x l IH]; intros Hl; [done|]. rewrite filter_cons.
  rewrite decide_True by (apply Hl; left). f_equal. apply IH. intros y Hy.
  apply Hl. by right.
Qed.

(** With distinct indices, the nodes of a given index are the node itself. *)
Lemma filter_index_NoDup (l : list Node) node :
  NoDup (map i l) → node ∈ l →
  filter (λ m, i m = i node) l = [node].
Proof.
  induction l as [|x l IH]; intros Hnd Hin; [by apply elem_of_nil in Hin|].
  simpl in Hnd. apply NoDup_cons in Hnd as [Hx Hnd]. rewrite filter_cons.
  apply elem_of_cons in Hin as [->|Hin].
  - rewrite decide_True by done. f_equal. apply filter_none.
    intros m Hm E. apply Hx. rewrite <- E. by apply list_elem_of_fmap_2.
  - rewrite decide_False; [by apply IH|].
    intros E. apply Hx. rewrite E. by apply list_elem_of_fmap_2.
Qed.

(** X18: [StopAllNodes] stops a node of the orchestrator exactly when its
    index is not excluded; when the indices of the nodes are distinct, it
    stops each of these nodes once, in the order of the nodes. *)
Theorem StopAllNodes_stops e toExclude :
  (∀ node, Stop node ∈ StopAllNodes e toExclude
           ↔ node ∈ nodes e ∧ i node ∉ toExclude)
  ∧ (NoDup (map i (nodes e)) →
     stopped (StopAllNodes e toExclude) = filterNodes (nodes e) toExclude).
Proof.
  rewrite StopAllNodes_concat, filterNodes_filter. split.
  - intros node. rewrite elem_of_concat. split.
    + intros (ev & Hin & Hev). apply list_elem_of_fmap in Hev as (m & -> & Hm).
      rewrite StopNode_filter in Hin.
      apply list_elem_of_fmap in Hin as (node' & [= <-] & Hnode).
      apply list_elem_of_filter in Hnode as [Hi Hnode].
      apply list_elem_of_filter in Hm as [Hm _]. split; [done|]. by rewrite Hi.
    + intros [Hnode Hi]. exists (StopNode e (i node)). split.
      * rewrite StopNode_filter. apply list_elem_of_fmap_2.
        by apply list_elem_of_filter.
      * apply (list_elem_of_fmap_2 (λ node, StopNode e (i node))).
        by apply list_elem_of_filter.
  - intros Hnd.
    assert (Hsub : ∀ l, (∀ node, node ∈ l → node ∈ nodes e) →
              stopped (concat (map (λ node, StopNode e (i node)) l)) = l).
    { induction l as [|x l IH]; intros Hl; [done|]. simpl.
      rewrite stopped_app, IH by (intros; apply Hl; by right).
      rewrite StopNode_filter, stopped_map_Stop.
      rewrite filter_index_NoDup; [done|done|apply Hl; left]. }
    apply Hsub. intros node Hin. by apply list_elem_of_filter in Hin as [_ ?].
Qed.

Lemma StartNode_found l idx : ∀ found,
  foldl (λ found node, if (i node =? idx)%Z then Some node else found)
    found l
  = match last (filter (λ node, i node = idx) l) with
    | Some node => Some node
    | None => found
    end.
Proof.
  induction l as [|x l IH]; intros found; [done|]. simpl. rewrite IH.
  rewrite filter_cons. destruct (Z.eqb_spec (i x) idx) as [E|E].
  - rewrite decide_True by done.
    destruct (filter _ l) as [|y l'] eqn:Hf; [done|].
    change (last (x :: y :: l')) with (last (y :: l')).
    destruct (last (y :: l')) eqn:Hlast; [done|].
    by apply last_None in Hlast.
  - by rewrite decide_False.
Qed.

Lemma StartNode_loop_spec node pings :
  let '(r, ev) := StartNode_loop node 0 pings in
  (∀ msg, r ≠ Panicked msg)
  ∧ (r = Done tt ↔ true ∈ pings)
  ∧ (r = Looping → pinged ev = length pings)
  ∧ pinged ev ≤ length pings.
Proof.
  induction pings as [|[|] rest IH]; simpl.
  - split; [done|]. split; [|done]. split; [done|].
    intros H. by apply elem_of_nil in H.
  - split; [done|]. split; [|split; [done|unfold pinged; simpl; lia]].
    split; [intros _; left|done].
  - destruct (StartNode_loop node 0 rest) as [r ev].
    destruct IH as (Hp & Hd & Hl & Hle). split; [done|].
    split; [|split].
    + rewrite Hd. rewrite elem_of_cons. split; [auto|]. by intros [?|?].
    + intros Hr. change (pinged (Ping node :: Sleep 1000000000 :: ev))
        with (S (pinged ev)). f_equal. by apply Hl.
    + change (pinged (Ping node :: Sleep 1000000000 :: ev))
        with (S (pinged ev)). lia.
Qed.

(** X19: [StartNode] never gives up.  Its counter of trials is never
    incremented, so the panic for a node that could not be started cannot
    happen: the only panic is for an index that no node has; otherwise the
    call returns exactly when some ping succeeds, and as long as the pings
    fail it goes on pinging, however many times. *)
Theorem StartNode_never_gives_up e idx pings :
  (∀ msg, (StartNode e idx pings).1 = Panicked msg →
     msg = "node to start doesn't exist"
     ∧ ∀ node, node ∈ nodes e → i node ≠ idx)
  ∧ ((StartNode e idx pings).1 = Done tt
     ↔ (∃ node, node ∈ nodes e ∧ i node = idx) ∧ true ∈ pings)
  ∧ ((StartNode e idx pings).1 = Looping →
     pinged (StartNode e idx pings).2 = length pings).
Proof.
  unfold StartNode. rewrite StartNode_found.
  destruct (last (filter (λ node, i node = idx) (nodes e))) as [node|] eqn:Hl.
  - assert (Hnode : node ∈ nodes e ∧ i node = idx).
    { apply last_Some_elem_of, list_elem_of_filter in Hl. tauto. }
    pose proof (StartNode_loop_spec node pings) as Hloop.
    destruct (StartNode_loop node 0 pings) as [r ev]. simpl.
    destruct Hloop as (Hp & Hd & Hlo & _). split; [|split].
    + intros msg Hr. by destruct (Hp msg).
    + rewrite Hd. split; [|tauto]. intros ?. split; [by exists node|done].
    + intros Hr. change (pinged (Start node (certFolder e) :: ev))
        with (pinged ev). by apply Hlo.
  - apply last_None in Hl. simpl. split; [|split].
    + intros msg [= <-]. split; [done|]. intros node Hin E.
      assert (Hf : node ∈ filter (λ node, i node = idx) (nodes e))
        by by apply list_elem_of_filter.
      rewrite Hl in Hf. by apply elem_of_nil in Hf.
    + split; [done|]. intros [(node & Hin & E) _].
      assert (Hf : node ∈ filter (λ node, i node = idx) (nodes e))
        by by apply list_elem_of_filter.
      rewrite Hl in Hf. by apply elem_of_nil in Hf.
    + done.
Qed.

End orchestrator.

(** *** The demo: the nodes of a resharing *)
Section resharing_group.
Import demo.

Variable NewNode : Z → string → Node.
Variable Join : string → string → string.
Variable TempDir : string.
Variable MkdirAll_err : string → option error.
Variable Run_err : string → list string → option error.
Variable ReadFile_err : string → option error.
Variable ParseDuration : string → Z + error.
Variable pair : string → string → list string.

Local Abbreviation create := (createNodes NewNode Join).

Lemma createNodes_spec n offset basePath certFolder :
  let nodes := map (λ idx, NewNode idx basePath) (seqZ offset n) in
  (create n offset basePath certFolder).1.1 = nodes
  ∧ (create n offset basePath certFolder).1.2
    = map (λ node, Join basePath ("public-" +:+ pretty (i node) +:+ ".toml"))
        nodes.
Proof.
  unfold createNodes.
  rewrite (foldl_append2 _
             (λ k, NewNode (Z.of_nat k + offset) basePath)
             (λ k, WriteCertificate (NewNode (Z.of_nat k + offset) basePath)
                     (Join certFolder
                        ("cert-" +:+ pretty (Z.of_nat k + offset)%Z))))
    by done.
  rewrite (foldl_append2 _
             (λ node, Join basePath
                        ("public-" +:+ pretty (i node) +:+ ".toml"))
             (λ node, WritePublic node
                        (Join basePath
                           ("public-" +:+ pretty (i node) +:+ ".toml"))))
    by done.
  simpl. unfold seqZ. by rewrite <- list_fmap_compose.
Qed.

(** X20: the nodes of the orchestrator are numbered from 1, the nodes set up
    for a resharing follow on from them, so that no two nodes, old or new,
    share an index; the new nodes are marked as reshared and every node has
    the path of its public key.  (A node made by [NewNode] is taken to carry
    the index it was made for.) *)
Theorem orchestrator_indices n thr period m e ev e' ev' :
  (∀ idx basePath, i (NewNode idx basePath) = idx) →
  NewOrchestrator NewNode Join TempDir MkdirAll_err ParseDuration n thr period
    = (Done e, ev) →
  SetupNewNodes NewNode Join e m = (e', ev') →
  nodes e' = nodes e
  ∧ map i (nodes e') = seqZ 1 n
  ∧ map i (newNodes e') = seqZ (Z.of_nat (length (nodes e)) + 1) m
  ∧ NoDup (map i (nodes e' ++ newNodes e'))
  ∧ Forall (λ node, reshared node = true) (newNodes e')
  ∧ length (paths e') = length (nodes e')
  ∧ length (newPaths e') = length (newNodes e').
Proof.
  intros Hi Hnew Hsetup.
  assert (Hidx : ∀ offset k basePath,
            map i (map (λ idx, NewNode idx basePath) (seqZ offset k))
            = seqZ offset k).
  { intros. rewrite <- list_fmap_compose. rewrite <- (list_fmap_id (seqZ _ _)) at 2.
    apply list_fmap_ext. intros ? idx _. apply Hi. }
  unfold NewOrchestrator in Hnew.
  destruct (MkdirAll_err (Join TempDir "drand-full")); [done|].
  destruct (MkdirAll_err (Join (Join TempDir "drand-full") "certs")); [done|].
  destruct (createNodes_spec n 1 (Join TempDir "drand-full")
              (Join (Join TempDir "drand-full") "certs")) as [Hn Hp].
  destruct (create n 1 _ _) as [[ns ps] ev0]. simpl in Hn, Hp.
  destruct (ParseDuration period); [|done]. injection Hnew as <- <-.
  unfold SetupNewNodes in Hsetup. simpl in Hsetup.
  destruct (createNodes_spec m (Z.of_nat (length ns) + 1)
              (Join TempDir "drand-full")
              (Join (Join TempDir "drand-full") "certs")) as [Hn' Hp'].
  destruct (create m _ _ _) as [[ns' ps'] ev1]. simpl in Hn', Hp'.
  injection Hsetup as <- <-. simpl.
  assert (Hnew_i : map i (map (set_reshared true) ns')
                   = seqZ (Z.of_nat (length ns) + 1) m).
  { rewrite <- list_fmap_compose. rewrite Hn'.
    rewrite <- list_fmap_compose. rewrite <- (list_fmap_id (seqZ _ _)) at 2.
    apply list_fmap_ext. intros ? idx _. apply Hi. }
  assert (Hold_i : map i ns = seqZ 1 n) by (rewrite Hn; apply Hidx).
  split; [done|]. split; [done|]. split; [done|]. split.
  { rewrite map_app, Hold_i, Hnew_i. apply NoDup_app.
    split; [apply NoDup_seqZ|]. split; [|apply NoDup_seqZ].
    intros x Hx Hx'. apply elem_of_seqZ in Hx, Hx'.
    assert (Hlen : length ns = Z.to_nat n).
    { rewrite Hn, length_map. apply length_seqZ. }
    lia. }
  split.
  { apply Forall_forall. intros node Hin.
    by apply list_elem_of_fmap in Hin as (? & -> & _). }
  split; [rewrite Hp, Hn at 1; by rewrite !length_map|].
  rewrite Hp', Hn' at 1. by rewrite !length_map.
Qed.

Lemma existsb_index (l : list Z) node :
  existsb (λ idx, (idx =? i node)%Z) l = true ↔ i node ∈ l.
Proof.
  induction l as [|x l IH]; simpl.
  - split; [done|]. intros H. by apply elem_of_nil in H.
  - rewrite orb_true_iff, IH, elem_of_cons, Z.eqb_eq. split; intros [?|?]; auto.
Qed.

(** X21: in a fresh resharing over nodes of distinct indices,
    [CreateResharingGroup] keeps the old nodes from the [oldToRemove]-th on
    and the new ones, with their paths in the same order at the end of the
    command that makes the group, and it stops exactly the old nodes before
    them: no node that takes part in the resharing is stopped.  It panics
    unless [oldToRemove] lies between 0 and the number of nodes. *)
Theorem CreateResharingGroup_members e oldToRemove threshold transitionTime
    e' ev :
  NoDup (map i (nodes e ++ newNodes e)) →
  reshareIndex e = [] → reshareNodes e = [] → resharePaths e = [] →
  CreateResharingGroup Join Run_err ReadFile_err pair e oldToRemove threshold
    transitionTime = (Done e', ev) →
  let k := Z.to_nat oldToRemove in
  (0 ≤ oldToRemove ≤ Z.of_nat (length (nodes e)))%Z
  ∧ reshareNodes e' = drop k (nodes e) ++ newNodes e
  ∧ reshareIndex e' = map i (reshareNodes e')
  ∧ resharePaths e' = drop k (paths e) ++ newPaths e
  ∧ stopped ev = take k (nodes e)
  ∧ (∀ node, node ∈ stopped ev → node ∉ reshareNodes e')
  ∧ ∃ args, head ev = Some (Command "drand" (args ++ resharePaths e')).
Proof.
  intros Hnd Hri Hrn Hrp. unfold CreateResharingGroup.
  rewrite Hri, Hrn, Hrp.
  destruct ((oldToRemove <? 0)%Z || _) eqn:Hb; [done|].
  apply orb_false_iff in Hb as [Hb1 Hb2].
  apply Z.ltb_ge in Hb1, Hb2.
  destruct (Z.of_nat (length (paths e)) <? oldToRemove)%Z; [done|].
  destruct (Run_err _ _); [done|]. destruct (ReadFile_err _); [done|].
  intros [= <- <-]. simpl. set (k := Z.to_nat oldToRemove).
  set (index := map i (drop k (nodes e)) ++ map i (newNodes e)).
  assert (Hstops :
    foldl (λ ev node, if existsb (λ idx, (idx =? i node)%Z) index
                      then ev else ev ++ [Stop node]) [] (nodes e)
    = map Stop (take k (nodes e))).
  { rewrite (foldl_append _ (λ node,
               if negb (existsb (λ idx, (idx =? i node)%Z) index)
               then [Stop node] else []))
      by (intros acc node; destruct (existsb _ _); by rewrite ?app_nil_r).
    simpl. rewrite (concat_map_if
      (λ node, negb (existsb (λ idx, (idx =? i node)%Z) index)) Stop).
    f_equal. rewrite <- (take_drop k (nodes e)) at 1.
    rewrite <- (take_drop k (nodes e)), <- app_assoc, !map_app in Hnd.
    apply NoDup_app in Hnd as (_ & Hdisj & _).
    rewrite filter_app, filter_all, filter_none; [by rewrite app_nil_r| |].
    - intros node Hin. rewrite negb_true_iff, not_false_iff_true.
      apply existsb_index. unfold index. apply elem_of_app. left.
      by apply list_elem_of_fmap_2.
    - intros node Hin. rewrite negb_true_iff, <- not_true_iff_false.
      rewrite existsb_index. apply Hdisj. by apply list_elem_of_fmap_2. }
  rewrite Hstops. split; [done|]. split; [done|].
  split; [by rewrite map_app|]. split; [done|].
  split; [by rewrite stopped_map_Stop|]. split.
  - rewrite stopped_map_Stop. intros node Hin Hin'.
    rewrite <- (take_drop k (nodes e)), <- app_assoc, !map_app in Hnd.
    apply NoDup_app in Hnd as (_ & Hdisj & _).
    apply (Hdisj (i node)); [by apply list_elem_of_fmap_2|].
    rewrite <- map_app. by apply list_elem_of_fmap_2.
  - by exists ("group" :: "--out" :: Join (basePath e) "new_group.toml"
               :: (pair "--from" (groupPath e)
                   ++ pair "--threshold" (pretty threshold))
                  ++ pair "--transition" (pretty transitionTime)).
Qed.

End resharing_group.

(** *** The demo: the distributed key of the nodes *)
Section distributed_key.
Import demo.

Variable Group : Type.
Variable DistPublic : Type.
Variable PublicKey : Group → DistPublic.
Variable Equal : DistPublic → DistPublic → bool.
Variable GetGroup : Node → option Group.

Local Abbreviation agree g :=
  (λ node, ∃ group, GetGroup node = Some group
                    ∧ Equal (PublicKey g) (PublicKey group) = true).

Lemma compare_Some nodes : ∀ g lastNode r,
  compare Group DistPublic PublicKey Equal GetGroup (Some g) lastNode nodes
    = Done r →
  r = Some g ∧ Forall (agree g) nodes.
Proof.
  induction nodes as [|node rest IH]; intros g lastNode r; simpl.
  - by intros [= <-].
  - destruct (GetGroup node) as [group|] eqn:Hg; [|done].
    destruct (Equal (PublicKey g) (PublicKey group)) eqn:He; [|done]. simpl.
    intros H. destruct (IH _ _ _ H) as [-> Hrest]. split; [done|].
    constructor; [by exists group|done].
Qed.

(** X22: the group that [checkDKGNodes] returns is the one of the first node
    that has a group, and every node after it has a group whose distributed
    public key is equal to that one; a node whose key differs, or that has
    no group after another had one, makes it panic instead. *)
Theorem checkDKGNodes_agree nodes cokeys g :
  checkDKGNodes Group DistPublic PublicKey Equal GetGroup nodes cokeys
    = Done (Some g) →
  ∃ pre node post,
    nodes = pre ++ node :: post
    ∧ Forall (λ node, GetGroup node = None) pre
    ∧ GetGroup node = Some g
    ∧ Forall (agree g) post.
Proof.
  unfold checkDKGNodes. destruct (present _ _ _); [|done].
  generalize "" as lastNode.
  induction nodes as [|node rest IH]; intros lastNode; simpl; [done|].
  destruct (GetGroup node) as [group|] eqn:Hg.
  - intros H. apply compare_Some in H as [[= ->] Hrest].
    by exists [], node, rest.
  - intros H. destruct (IH _ H) as (pre & node' & post & -> & Hpre & ? & ?).
    exists (node :: pre), node', post. split; [done|].
    split; [by constructor|done].
Qed.

End distributed_key.

Lemma StopAllNodes_stops_witness :
  demo.stopped (demo.StopAllNodes sample.orchestrator [2%Z])
  = [sample.NewNode 1 "/tmp/drand-full"; sample.NewNode 3 "/tmp/drand-full"].
Proof.
  destruct (StopAllNodes_stops sample.orchestrator [2%Z]) as [_ H].
  rewrite H; [reflexivity|]. by apply (bool_decide_unpack _); vm_compute.
Defined.

Lemma orchestrator_indices_witness :
  ∃ e e',
    (demo.SetupNewNodes sample.NewNode sample.path_Join e 2).1 = e'
    ∧ map demo.i (demo.nodes e') = [1; 2; 3]%Z
    ∧ map demo.i (demo.newNodes e') = [4; 5]%Z
    ∧ NoDup (map demo.i (demo.nodes e' ++ demo.newNodes e')).
Proof.
  destruct (demo.NewOrchestrator sample.NewNode sample.path_Join "/tmp"
              (λ _, None) (λ _, inl 10000000000%Z) 3 2 "10s")
    as [r ev] eqn:Hnew.
  vm_compute in Hnew. injection Hnew as <- <-.
  eexists _, _. split; [reflexivity|].
  edestruct (orchestrator_indices sample.NewNode sample.path_Join "/tmp"
               (λ _, None) (λ _, inl 10000000000%Z) 3 2 "10s" 2)
    as (_ & Hold & Hnew & Hnd & _).
  - reflexivity.
  - vm_compute. reflexivity.
  - vm_compute. reflexivity.
  - split; [exact Hold|]. split; [exact Hnew|exact Hnd].
Defined.

Lemma CreateResharingGroup_members_witness :
  ∃ e' ev,
    demo.CreateResharingGroup sample.path_Join (λ _ _, None) (λ _, None)
      (λ a b, [a; b]) sample.orchestrator 1 3 1600000000 = (demo.Done e', ev)
    ∧ demo.stopped ev = [sample.NewNode 1 "/tmp/drand-full"]
    ∧ map demo.i (demo.reshareNodes e') = [2; 3; 4; 5]%Z.
Proof.
  eexists _, _. split; [vm_compute; reflexivity|].
  edestruct (CreateResharingGroup_members sample.path_Join (λ _ _, None)
               (λ _, None) (λ a b, [a; b]) sample.orchestrator 1 3 1600000000)
    as (_ & Hnodes & _ & _ & Hstop & _).
  - by apply (bool_decide_unpack _); vm_compute.
  - reflexivity.
  - reflexivity.
  - reflexivity.
  - vm_compute. reflexivity.
  - split; [exact Hstop|]. rewrite Hnodes. reflexivity.
Defined.

Lemma checkDKGNodes_agree_witness :
  ∃ pre node post,
    demo.nodes sample.orchestrator = pre ++ node :: post
    ∧ Forall (λ node, sample.GetGroup 0 node = None) pre
    ∧ sample.GetGroup 0 node = Some (1%Z, 7%Z)
    ∧ Forall (λ node, ∃ group, sample.GetGroup 0 node = Some group
                               ∧ (7 =? group.2)%Z = true) post.
Proof.
  apply (checkDKGNodes_agree (Z * Z) Z snd Z.eqb (sample.GetGroup 0)
           (demo.nodes sample.orchestrator) [false; true; true; true]
           (1%Z, 7%Z)).
  vm_compute. reflexivity.
Defined.

(** *** The command line: the nodes to contact *)
Section nodes_to_contact.
Import cli.

Variable FS : Type.
Variable Open : string → FS → option error.
Variable Stat_Size : string → FS → Z + error.
Variable LoadGroup : string → FS → Group + error.
Variable Identities : Group → list Identity.

Lemma strings_Split_nonempty s : strings_Split s ","%char ≠ [].
Proof.
  destruct s as [|c rest]; simpl; [done|].
  destruct (Ascii.eqb c ","); [done|]. by destruct (strings_Split rest ",").
Qed.

(** The pieces hold no separator, and put together again with it they give
    the string. *)
Lemma strings_Split_Join s :
  strings_Join (strings_Split s ","%char) "," = s.
Proof.
  induction s as [|c rest IH]; [done|]. simpl.
  destruct (Ascii.eqb_spec c ","%char) as [->|Hc].
  - pose proof (strings_Split_nonempty rest) as Hne.
    destruct (strings_Split rest ",") as [|piece pieces]; [done|].
    simpl in *. by rewrite IH.
  - destruct (strings_Split rest ",") as [|piece [|p2 pieces]];
      simpl in *; by rewrite <- IH.
Qed.

Lemma getNodes_selected gids addrs : ∀ acc,
  foldl (λ ids addr,
           foldl (λ ids gid, if String.eqb (Addr gid) addr
                             then ids ++ [gid] else ids) ids gids)
    acc addrs
  = acc ++ concat (map (λ addr, filter (λ gid, Addr gid = addr) gids) addrs).
Proof.
  apply (foldl_append _ (λ addr, filter (λ gid, Addr gid = addr) gids)).
  intros acc addr.
  rewrite (foldl_append _ (λ gid, if String.eqb (Addr gid) addr
                                  then [gid] else []))
    by (intros a gid; destruct (String.eqb _ _); by rewrite ?app_nil_r).
  f_equal. rewrite (concat_map_if (λ gid, String.eqb (Addr gid) addr) id).
  rewrite list_fmap_id. apply list_filter_iff. intros gid.
  apply String_eqb_true.
Qed.

(** X23: the identities [getNodes] returns are never none.  Without
    [--nodes] they are the identities of the group; with it they are the
    identities of the group whose address is one of the comma-separated
    pieces of the flag, grouped in the order of the pieces, so that an
    address of the flag that the group does not have is passed over without a
    word as long as another one matches. *)
Theorem getNodes_selects c flag_nodes fs ids :
  getNodes FS Open Stat_Size LoadGroup Identities c flag_nodes fs = inl ids →
  ∃ group,
    getGroup FS Open Stat_Size LoadGroup c fs = inl group
    ∧ ids ≠ []
    ∧ match flag_nodes with
      | None => ids = Identities group
      | Some value =>
          ids = concat (map (λ addr, filter (λ gid, Addr gid = addr)
                                       (Identities group))
                          (strings_Split value ","%char))
          ∧ ∀ id, id ∈ ids ↔ id ∈ Identities group
                             ∧ Addr id ∈ strings_Split value ","%char
      end.
Proof.
  unfold getNodes.
  destruct (getGroup _ _ _ _ c fs) as [group|msg]; [|done].
  intros H. exists group. split; [done|].
  destruct flag_nodes as [value|].
  - rewrite getNodes_selected in H. simpl in H.
    set (sel := concat _) in *.
    destruct (length sel =? 0) eqn:E1; [done|]. rewrite E1 in H.
    injection H as <-. split; [by destruct sel|]. split; [done|].
    intros id. unfold sel. rewrite elem_of_concat. split.
    + intros (l & Hid & Hl). apply list_elem_of_fmap in Hl as (addr & -> & Ha).
      apply list_elem_of_filter in Hid as [<- Hid]. done.
    + intros [Hid Ha]. exists (filter (λ gid, Addr gid = Addr id)
                                 (Identities group)).
      split; [by apply list_elem_of_filter|].
      apply list_elem_of_fmap. by exists (Addr id).
  - destruct (length (Identities group) =? 0) eqn:E; [done|].
    injection H as <-. split; [|done]. by destruct (Identities group).
Qed.

End nodes_to_contact.

Lemma getNodes_selects_witness :
  ∃ group,
    cli.getGroup unit (λ _ _, None) (λ _ _, inl 120%Z)
      (λ _ _, inl sample.cli_group) sample.check_context tt = inl group
    ∧ [ {| cli.Key := [Byte.x34]; cli.Addr := "10.0.0.2:8080";
           cli.TLS := false |} ] ≠ []
    ∧ ([ {| cli.Key := [Byte.x34]; cli.Addr := "10.0.0.2:8080";
            cli.TLS := false |} ]
       = concat (map (λ addr, filter (λ gid, cli.Addr gid = addr)
                                (cli.Nodes group))
                   (cli.strings_Split "10.0.0.9:8080,10.0.0.2:8080" ","%char))
       ∧ ∀ id, id ∈ [ {| cli.Key := [Byte.x34]; cli.Addr := "10.0.0.2:8080";
                        cli.TLS := false |} ]
               ↔ id ∈ cli.Nodes group
                 ∧ cli.Addr id
                   ∈ cli.strings_Split "10.0.0.9:8080,10.0.0.2:8080" ","%char).
Proof.
  apply (getNodes_selects unit (λ _ _, None) (λ _ _, inl 120%Z)
           (λ _ _, inl sample.cli_group) cli.Nodes sample.check_context
           (Some "10.0.0.9:8080,10.0.0.2:8080") tt).
  vm_compute. reflexivity.
Defined.
